(** * A shallow embedding of the MinLZ stream writer

    Source: [vendor/github.com/minio/minlz/writer.go].

    The Go code is translated function by function.  Integers are [Z] with
    the wrap-around of the Go type written out, a byte is a [Z] in
    [0, 256), a byte slice is a [list Z].  Code that mutates the [Writer]
    runs in a small state monad whose result also records a panic or a
    goroutine that never returns. *)

From Stdlib Require Import ZArith List Lia Bool String.
Import ListNotations.
Open Scope Z_scope.

(** ** Machine integers *)

Definition uint8 (x : Z) : Z := x mod 256.
Definition uint32 (x : Z) : Z := x mod 2 ^ 32.
Definition uint64 (x : Z) : Z := x mod 2 ^ 64.
Definition int64 (x : Z) : Z := (x + 2 ^ 63) mod 2 ^ 64 - 2 ^ 63.

Definition len {A} (l : list A) : Z := Z.of_nat (List.length l).

(** Go's [s[:n]] and [s[n:]] on a slice whose capacity is its length. *)
Definition take {A} (n : Z) (l : list A) : list A := firstn (Z.to_nat n) l.
Definition drop {A} (n : Z) (l : list A) : list A := skipn (Z.to_nat n) l.

(** Go's [copy(dst[off:], src)]: as many bytes as fit, the rest of [dst]
    is left as it was. *)
Definition copy_at (dst : list Z) (off : Z) (src : list Z) : list Z :=
  take off dst ++ take (len dst - off) src ++ drop (off + len src) dst.

(** ** Results of a Go call: a value, a panic, or no return at all *)

Inductive res (A : Type) : Type :=
| Val (a : A)
| Panics (msg : string)
| Diverges.
Arguments Val {A} a.
Arguments Panics {A} msg.
Arguments Diverges {A}.

(** ** Errors *)

Inductive error : Type :=
| errClosed
| errNilWriter
| ErrShortWrite
| ErrShortBuffer
| ErrInvalidLevel
| EOF
| ErrUnexpectedEOF
| errorsNew (msg : string)
| errExternal (code : nat).

Definition error_eqb (a b : error) : bool :=
  match a, b with
  | errClosed, errClosed => true
  | errNilWriter, errNilWriter => true
  | ErrShortWrite, ErrShortWrite => true
  | ErrShortBuffer, ErrShortBuffer => true
  | ErrInvalidLevel, ErrInvalidLevel => true
  | EOF, EOF => true
  | ErrUnexpectedEOF, ErrUnexpectedEOF => true
  | errorsNew s, errorsNew t => String.eqb s t
  | errExternal n, errExternal m => Nat.eqb n m
  | _, _ => false
  end.

(** ** What the writer takes from the rest of the package

    [writer.go] uses constants, the block kernels, [MaxEncodedLen] and the
    [Index] type, all declared in other files of the package.  They are
    the fields of [Env]; every definition below is stated over an
    arbitrary [Env]. *)

(** A block kernel [func(dst, src []byte) int]: from the bytes of [dst] up
    to its capacity, [len(dst)] and [src], the count it returns and the
    bytes of [dst] as it leaves them. *)
Definition Encoder : Type := list Z -> Z -> list Z -> Z * list Z.

Definition Index : Type := list (Z * Z).

Class Env : Type := {
  magicChunk : list Z;
  chunkTypeUncompressedData : Z;
  chunkTypeMinLZCompressedData : Z;
  chunkTypeEOF : Z;
  ChunkTypePadding : Z;
  MinUserSkippableChunk : Z;
  MaxUserChunkSize : Z;
  skippableFrameHeader : Z;
  obufHeaderLen : Z;
  minBlockSize : Z;
  maxBlockSize : Z;
  defaultBlockSize : Z;
  LevelFastest : Z;
  LevelBalanced : Z;
  LevelSmallest : Z;
  GOMAXPROCS : Z;
  MaxEncodedLen : Z -> Z;
  encodeBlock : Encoder;
  encodeBlockBetter : Encoder;
  encodeBlockBest : Encoder;
  index_reset : Index -> Z -> Index;
  index_add : Index -> Z -> Z -> Index * option error;
  index_appendTo : Index -> list Z -> Z -> Z -> list Z
}.

(** ** Go standard library: [math/bits], [encoding/binary], [hash/crc32] *)

(** [bits.Len]: the number of bits needed to represent [x], 0 for 0. *)
Definition bits_Len (x : Z) : Z :=
  match x with
  | Zpos p => Zpos (Pos.size p)
  | _ => 0
  end.

(** [binary.PutUvarint]: the bytes it stores.  Ten rounds serve every
    [uint64]. *)
Fixpoint uvarint_bytes (fuel : nat) (x : Z) : list Z :=
  match fuel with
  | O => []
  | S f =>
      if 128 <=? x
      then Z.lor (uint8 x) 128 :: uvarint_bytes f (Z.shiftr x 7)
      else [uint8 x]
  end.

Definition MaxVarintLen64 : Z := 10.

Definition uvarint (x : Z) : list Z := uvarint_bytes 10 x.

(** [binary.PutUvarint buf x]: the new contents of [buf] and the count; an
    index out of range panics. *)
Definition PutUvarint (buf : list Z) (x : Z) : res (list Z * Z) :=
  let bs := uvarint x in
  if len bs <=? len buf
  then Val (copy_at buf 0 bs, len bs)
  else Panics "index out of range".

(** CRC-32 with the Castagnoli polynomial, bit by bit (reflected form),
    as [crc32.Update(0, crc32.MakeTable(crc32.Castagnoli), b)] computes. *)
Definition crc_bit (c : Z) : Z :=
  if Z.testbit c 0
  then Z.lxor (Z.shiftr c 1) 2197175160
  else Z.shiftr c 1.

Definition crc_byte (c b : Z) : Z :=
  crc_bit (crc_bit (crc_bit (crc_bit (crc_bit (crc_bit (crc_bit (crc_bit
    (Z.lxor c b)))))))).

Definition crc32c (bs : list Z) : Z :=
  Z.lxor (fold_left crc_byte bs 4294967295) 4294967295.

(** Modelled from the spec: [crc], the masked checksum, is declared in
    another file of the package.  Spec section 6: over 32-bit unsigned
    wrap, [mask(c) = ((c >> 15) | (c << 17)) + 0xA282EAD8] with [c] the
    CRC32-Castagnoli of the bytes. *)
Definition crc (bs : list Z) : Z :=
  let c := crc32c bs in
  uint32 (Z.lor (Z.shiftr c 15) (uint32 (Z.shiftl c 17)) + 2726488792).

(** ** [makeHeader] *)

Section Pure.
Context {E : Env}.

Definition makeHeader (blockSize : Z) : list Z :=
  let hdr := magicChunk in
  hdr ++ [uint8 (uint8 (bits_Len (uint64 (blockSize - 1))) - 10)].

(** ** [calcSkippableFrame] and [skippableFrame] *)

(** The loop [for toAdd < skippableFrameHeader { toAdd += wantMultiple }]
    on [int64].  The sum wraps around when [wantMultiple] is close to
    [2^63]; the loop is then over within twice [skippableFrameHeader]
    rounds, and sooner without wrap-around (lemmas
    [calcSkippableFrame_loop_spec] and [calcSkippableFrame_loop_wraps]).
    This is the fuel [calcSkippableFrame] hands to it. *)
Fixpoint calcSkippableFrame_loop (fuel : nat) (toAdd wantMultiple : Z) : res Z :=
  if toAdd <? skippableFrameHeader
  then match fuel with
       | O => Diverges
       | S f => calcSkippableFrame_loop f (int64 (toAdd + wantMultiple)) wantMultiple
       end
  else Val toAdd.

Definition calcSkippableFrame (written wantMultiple : Z) : res Z :=
  if wantMultiple <=? 0 then Panics "wantMultiple <= 0"
  else if written <? 0 then Panics "written < 0"
  else
    let leftOver := Z.rem written wantMultiple in
    if leftOver =? 0 then Val 0
    else
      let toAdd := int64 (wantMultiple - leftOver) in
      calcSkippableFrame_loop (Z.to_nat (2 * skippableFrameHeader)) toAdd wantMultiple.

(** A reader: the bytes it still has, the error it reports once they are
    used up, and its [Bytes()] when it implements [byter]. *)
Record Reader : Type := {
  rd_data : list Z;
  rd_err : error;
  rd_bytes : option (list Z)
}.

(** [io.ReadFull(r, buf)] for a buffer of [n] bytes: the bytes read, the
    error, the reader afterwards. *)
Definition ReadFull (r : Reader) (n : Z) : list Z * option error * Reader :=
  if n <=? 0 then ([], None, r)
  else if n <=? len (rd_data r)
  then (take n (rd_data r), None,
        {| rd_data := drop n (rd_data r); rd_err := rd_err r; rd_bytes := rd_bytes r |})
  else
    let got := rd_data r in
    let e := if (0 <? len got) && error_eqb (rd_err r) EOF
             then ErrUnexpectedEOF else rd_err r in
    (got, Some e, {| rd_data := []; rd_err := rd_err r; rd_bytes := rd_bytes r |}).

(** [skippableFrame(dst, total, r)]: the frame, the error, the reader
    afterwards. *)
Definition skippableFrame (dst : list Z) (total : Z) (r : Reader)
  : list Z * option error * Reader :=
  if total =? 0 then (dst, None, r)
  else if total <? skippableFrameHeader
  then (dst, Some (errorsNew "s2: requested skippable frame < 4"), r)
  else if maxBlockSize + skippableFrameHeader <=? int64 total
  then (dst, Some (errorsNew "s2: requested skippable frame >= max 1<<24"), r)
  else
    let dst1 := dst ++ [ChunkTypePadding] in
    let f := uint32 (total - skippableFrameHeader) in
    let dst2 := dst1 ++ [uint8 f; uint8 (Z.shiftr f 8); uint8 (Z.shiftr f 16)] in
    let '(got, err, r') := ReadFull r f in
    (dst2 ++ got ++ repeat 0 (Z.to_nat (f - len got)), err, r').

End Pure.

(** ** The [Writer] *)

(** The value a worker hands to the dispatcher. *)
Record result : Type := {
  b : list Z;
  startOffset : Z
}.

(** The underlying [io.Writer]: from the calls it has served so far and
    the bytes of this call, the count and the error it returns. *)
Definition Sink : Type := list (list Z) -> list Z -> Z * option error.

(** Fields fixed by [NewWriter] and its options. *)
Record Config : Type := {
  blockSize : Z;
  obufLen : Z;
  concurrency : Z;
  pad : Z;
  customEnc : option Encoder;
  paramsOK : bool;
  flushOnWrite : bool;
  appendIndex : bool;
  genIndex : bool;
  level : Z
}.

(** The mutable fields of the Go struct, followed by what the model keeps
    of the world around it: [output] is the ordering channel (the slots
    queued and not yet served by the dispatcher, each with the value its
    worker sends; [None] is the nil channel); [sinkLog] the calls made on
    the current sink, oldest first; [pool] the buffers [buffers.Get] is
    going to hand out, with whatever bytes they hold; [sched] how many
    slots the dispatcher goroutine serves at each point where the caller's
    goroutine can observe it. *)
Record Writer : Type := {
  cfg : Config;
  errState : option error;
  ibuf : list Z;
  ibufCap : Z;
  written : Z;
  uncompWritten : Z;
  output : option (list result);
  writer : option Sink;
  randSrc : Reader;
  index : option Index;
  wroteStreamHeader : bool;
  sinkLog : list (list Z);
  pool : list (list Z);
  sched : list nat
}.

Definition set_errState (v : option error) (w : Writer) : Writer :=
  {| cfg := cfg w; errState := v; ibuf := ibuf w; ibufCap := ibufCap w;
     written := written w; uncompWritten := uncompWritten w; output := output w;
     writer := writer w; randSrc := randSrc w; index := index w;
     wroteStreamHeader := wroteStreamHeader w; sinkLog := sinkLog w;
     pool := pool w; sched := sched w |}.

Definition set_ibuf (v : list Z) (w : Writer) : Writer :=
  {| cfg := cfg w; errState := errState w; ibuf := v; ibufCap := ibufCap w;
     written := written w; uncompWritten := uncompWritten w; output := output w;
     writer := writer w; randSrc := randSrc w; index := index w;
     wroteStreamHeader := wroteStreamHeader w; sinkLog := sinkLog w;
     pool := pool w; sched := sched w |}.

Definition set_written (v : Z) (w : Writer) : Writer :=
  {| cfg := cfg w; errState := errState w; ibuf := ibuf w; ibufCap := ibufCap w;
     written := v; uncompWritten := uncompWritten w; output := output w;
     writer := writer w; randSrc := randSrc w; index := index w;
     wroteStreamHeader := wroteStreamHeader w; sinkLog := sinkLog w;
     pool := pool w; sched := sched w |}.

Definition set_uncompWritten (v : Z) (w : Writer) : Writer :=
  {| cfg := cfg w; errState := errState w; ibuf := ibuf w; ibufCap := ibufCap w;
     written := written w; uncompWritten := v; output := output w;
     writer := writer w; randSrc := randSrc w; index := index w;
     wroteStreamHeader := wroteStreamHeader w; sinkLog := sinkLog w;
     pool := pool w; sched := sched w |}.

Definition set_output (v : option (list result)) (w : Writer) : Writer :=
  {| cfg := cfg w; errState := errState w; ibuf := ibuf w; ibufCap := ibufCap w;
     written := written w; uncompWritten := uncompWritten w; output := v;
     writer := writer w; randSrc := randSrc w; index := index w;
     wroteStreamHeader := wroteStreamHeader w; sinkLog := sinkLog w;
     pool := pool w; sched := sched w |}.

Definition set_randSrc (v : Reader) (w : Writer) : Writer :=
  {| cfg := cfg w; errState := errState w; ibuf := ibuf w; ibufCap := ibufCap w;
     written := written w; uncompWritten := uncompWritten w; output := output w;
     writer := writer w; randSrc := v; index := index w;
     wroteStreamHeader := wroteStreamHeader w; sinkLog := sinkLog w;
     pool := pool w; sched := sched w |}.

Definition set_index (v : option Index) (w : Writer) : Writer :=
  {| cfg := cfg w; errState := errState w; ibuf := ibuf w; ibufCap := ibufCap w;
     written := written w; uncompWritten := uncompWritten w; output := output w;
     writer := writer w; randSrc := randSrc w; index := v;
     wroteStreamHeader := wroteStreamHeader w; sinkLog := sinkLog w;
     pool := pool w; sched := sched w |}.

Definition set_wroteStreamHeader (v : bool) (w : Writer) : Writer :=
  {| cfg := cfg w; errState := errState w; ibuf := ibuf w; ibufCap := ibufCap w;
     written := written w; uncompWritten := uncompWritten w; output := output w;
     writer := writer w; randSrc := randSrc w; index := index w;
     wroteStreamHeader := v; sinkLog := sinkLog w;
     pool := pool w; sched := sched w |}.

Definition set_sinkLog (v : list (list Z)) (w : Writer) : Writer :=
  {| cfg := cfg w; errState := errState w; ibuf := ibuf w; ibufCap := ibufCap w;
     written := written w; uncompWritten := uncompWritten w; output := output w;
     writer := writer w; randSrc := randSrc w; index := index w;
     wroteStreamHeader := wroteStreamHeader w; sinkLog := v;
     pool := pool w; sched := sched w |}.

Definition set_pool (v : list (list Z)) (w : Writer) : Writer :=
  {| cfg := cfg w; errState := errState w; ibuf := ibuf w; ibufCap := ibufCap w;
     written := written w; uncompWritten := uncompWritten w; output := output w;
     writer := writer w; randSrc := randSrc w; index := index w;
     wroteStreamHeader := wroteStreamHeader w; sinkLog := sinkLog w;
     pool := v; sched := sched w |}.

Definition set_sched (v : list nat) (w : Writer) : Writer :=
  {| cfg := cfg w; errState := errState w; ibuf := ibuf w; ibufCap := ibufCap w;
     written := written w; uncompWritten := uncompWritten w; output := output w;
     writer := writer w; randSrc := randSrc w; index := index w;
     wroteStreamHeader := wroteStreamHeader w; sinkLog := sinkLog w;
     pool := pool w; sched := v |}.

(** ** The monad of the methods *)

Definition M (A : Type) : Type := Writer -> res (A * Writer).

Definition ret {A} (a : A) : M A := fun w => Val (a, w).

Definition bind {A B} (m : M A) (k : A -> M B) : M B :=
  fun w =>
    match m w with
    | Val (a, w') => k a w'
    | Panics msg => Panics msg
    | Diverges => Diverges
    end.

Declare Scope go_scope.
Delimit Scope go_scope with go.
Notation "x <- m ;; k" := (bind m (fun x => k))
  (at level 100, m at next level, right associativity) : go_scope.
Notation "m ;;; k" := (bind m (fun _ => k))
  (at level 100, right associativity) : go_scope.
Open Scope go_scope.

Definition get : M Writer := fun w => Val (w, w).
Definition modify (f : Writer -> Writer) : M unit := fun w => Val (tt, f w).
Definition panic {A} (msg : string) : M A := fun _ => Panics msg.
Definition hang {A} : M A := fun _ => Diverges.
Definition lift {A} (r : res A) : M A :=
  fun w => match r with
           | Val a => Val (a, w)
           | Panics msg => Panics msg
           | Diverges => Diverges
           end.

(** ** Slices, buffers and the kernels *)

Definition rbind {A B} (r : res A) (k : A -> res B) : res B :=
  match r with
  | Val a => k a
  | Panics msg => Panics msg
  | Diverges => Diverges
  end.

(** [s[:n]], within the capacity. *)
Definition reslice (s : list Z) (n : Z) : res (list Z) :=
  if (n <? 0) || (len s <? n) then Panics "slice bounds out of range"
  else Val (take n s).

(** [s[lo:]]. *)
Definition slice_from (s : list Z) (lo : Z) : res (list Z) :=
  if (lo <? 0) || (len s <? lo) then Panics "slice bounds out of range"
  else Val (drop lo s).

(** A kernel writes inside the buffer it is given and nowhere else. *)
Definition run_kernel (f : Encoder) (dst : list Z) (dlen : Z) (src : list Z)
  : Z * list Z :=
  let '(n, d) := f dst dlen src in (n, copy_at dst 0 d).

Section Methods.
Context {E : Env}.

(** [Writer.encodeBlock].  The branch under [debugValidateBlocks] only
    prints and writes diagnostic files; it leaves [n] alone and is not
    modelled. *)
Definition Writer_encodeBlock (c : Config) (dst : list Z) (dlen : Z) (src : list Z)
  : Z * list Z :=
  let by_level (d : list Z) :=
    if level c =? LevelFastest then run_kernel encodeBlock d dlen src
    else if level c =? LevelBalanced then run_kernel encodeBlockBetter d dlen src
    else if level c =? LevelSmallest then run_kernel encodeBlockBest d dlen src
    else (0, d) in
  match customEnc c with
  | Some f =>
      let '(r, d) := run_kernel f dst dlen src in
      if 0 <=? r then (r, d) else by_level d
  | None => by_level dst
  end.

(** The eight assignments [obuf[0] = chunkType] ... [obuf[7] = ...]. *)
Definition fill_header (obuf : list Z) (chunkType chunkLen checksum : Z)
  : res (list Z) :=
  if len obuf <? 8 then Panics "index out of range"
  else Val ([chunkType;
             uint8 (Z.shiftr chunkLen 0);
             uint8 (Z.shiftr chunkLen 8);
             uint8 (Z.shiftr chunkLen 16);
             uint8 (Z.shiftr checksum 0);
             uint8 (Z.shiftr checksum 8);
             uint8 (Z.shiftr checksum 16);
             uint8 (Z.shiftr checksum 24)] ++ drop 8 obuf).

(** The goroutine started by [write] for one block (the one in
    [writeFull] is the same text): [obuf] and [inbuf] are the two pooled
    buffers, [uncompressed] is [inbuf[obufHeaderLen:]].  The value is
    [res.b]. *)
Definition write_job (c : Config) (obuf inbuf uncompressed : list Z) : res (list Z) :=
  let checksum := crc uncompressed in
  let chunkType := uint8 chunkTypeUncompressedData in
  let chunkLen := 4 + len uncompressed in
  rbind (slice_from obuf obufHeaderLen) (fun tail =>
  rbind (PutUvarint tail (uint64 (len uncompressed))) (fun pv =>
    let '(tail1, n) := pv in
    let '(n2, tail2) :=
      Writer_encodeBlock c (drop n tail1) (len tail1 - n) uncompressed in
    let obuf1 := take obufHeaderLen obuf ++ take n tail1 ++ tail2 in
    if 0 <? n2 then
      rbind (reslice obuf1 (obufHeaderLen + n + n2)) (fun obuf2 =>
        fill_header obuf2 (uint8 chunkTypeMinLZCompressedData) (4 + n + n2) checksum)
    else
      fill_header inbuf chunkType chunkLen checksum)).

(** The goroutine started by [EncodeBuffer]: [arr] is the pooled buffer
    up to its capacity, of which [obuf] is the first
    [len(uncompressed)+obufHeaderLen] bytes. *)
Definition EncodeBuffer_job (c : Config) (arr uncompressed : list Z) : res (list Z) :=
  let l := len uncompressed + obufHeaderLen in
  let checksum := crc uncompressed in
  let chunkType := uint8 chunkTypeUncompressedData in
  let chunkLen := 4 + len uncompressed in
  rbind (reslice arr l) (fun obuf =>
  rbind (slice_from obuf obufHeaderLen) (fun tail =>
  rbind (PutUvarint tail (uint64 (len uncompressed))) (fun pv =>
    let '(tail1, n) := pv in
    let arr1 := copy_at arr obufHeaderLen tail1 in
    let '(n2, tail2) :=
      Writer_encodeBlock c (drop (obufHeaderLen + n) arr1) (len tail1 - n) uncompressed in
    let arr2 := take (obufHeaderLen + n) arr1 ++ tail2 in
    if 0 <? n2 then
      rbind (reslice arr2 (obufHeaderLen + n + n2)) (fun obuf2 =>
        fill_header obuf2 (uint8 chunkTypeMinLZCompressedData) (4 + n + n2) checksum)
    else
      fill_header (copy_at (take l arr2) obufHeaderLen uncompressed)
                  chunkType chunkLen checksum))).

(** ** The error cell, the sink, the pool and the index *)

(** [Writer.err] on the cell: the error already set, else [e], which is
    then set when it is not nil. *)
Definition err_cell (e : option error) : M (option error) :=
  fun w =>
    match errState w with
    | Some s => Val (Some s, w)
    | None =>
        match e with
        | Some _ => Val (e, set_errState e w)
        | None => Val (None, w)
        end
    end.

(** [w.writer.Write(data)]. *)
Definition writer_Write (data : list Z) : M (Z * option error) :=
  fun w =>
    match writer w with
    | None => Panics "nil pointer dereference"
    | Some s => Val (s (sinkLog w) data, set_sinkLog (sinkLog w ++ [data]) w)
    end.

(** [w.buffers.Get().([]byte)]: a buffer of capacity [obufLen] holding
    whatever its last user left.  [buffers.Put] hands a buffer back and
    changes nothing the methods can see but such bytes, which [pool]
    already leaves arbitrary; it has no counterpart here. *)
Definition buffers_Get : M (list Z) :=
  fun w =>
    let n := obufLen (cfg w) in
    if n <? 0 then Panics "makeslice: len out of range"
    else match pool w with
         | [] => Val (repeat 0 (Z.to_nat n), w)
         | x :: rest =>
             Val (take n x ++ repeat 0 (Z.to_nat (n - len x)), set_pool rest w)
         end.

(** Modelled from the spec: the methods of [Index] are declared in another
    file; the writer calls them on a nil [*Index] when no index is
    generated (spec 3: "[index]: optional Index Builder instance"), where
    they do nothing. *)
Definition Index_add (c u : Z) : M (option error) :=
  fun w =>
    match index w with
    | None => Val (None, w)
    | Some ix =>
        let '(ix', e) := index_add ix c u in Val (e, set_index (Some ix') w)
    end.

Definition Index_reset (bs : Z) (ix : option Index) : option Index :=
  match ix with
  | None => None
  | Some i => Some (index_reset i bs)
  end.

Definition Index_appendTo (ix : option Index) (dst : list Z) (uncomp comp : Z)
  : list Z :=
  match ix with
  | None => dst
  | Some i => index_appendTo i dst uncomp comp
  end.

(** ** The dispatcher goroutine started by [Reset] *)

(** The body of [for write := range toWrite] for one slot. *)
Definition dispatch (input : result) : M unit :=
  let in_ := b input in
  if 0 <? len in_ then
    e <- err_cell None ;;
    match e with
    | None =>
        r <- writer_Write in_ ;;
        let '(n, err) := r in
        let err := match err with
                   | None => if n =? len in_ then None else Some ErrShortBuffer
                   | Some _ => err
                   end in
        err_cell err ;;;
        w <- get ;;
        ie <- Index_add (written w) (startOffset input) ;;
        err_cell ie ;;;
        modify (fun w => set_written (int64 (written w + n)) w)
    | Some _ => ret tt
    end
  else ret tt.

Definition dispatch_next : M unit :=
  fun w =>
    match output w with
    | Some (r :: q) => dispatch r (set_output (Some q) w)
    | _ => Val (tt, w)
    end.

Fixpoint dispatcher_run (k : nat) : M unit :=
  match k with
  | O => ret tt
  | S k' => dispatch_next ;;; dispatcher_run k'
  end.

(** The dispatcher serves every slot queued: what [close(w.output)]
    followed by [w.writerWg.Wait()] waits for. *)
Definition dispatcher_drain : M unit :=
  fun w =>
    match output w with
    | Some q => dispatcher_run (List.length q) w
    | None => Val (tt, w)
    end.

(** A point where the dispatcher may have made progress unseen. *)
Definition yield : M unit :=
  fun w =>
    match sched w with
    | [] => Val (tt, w)
    | k :: s => dispatcher_run k (set_sched s w)
    end.

(** [Writer.err] called from the caller's goroutine. *)
Definition Writer_err (e : option error) : M (option error) :=
  yield ;;; err_cell e.

(** [w.output <- slot], the slot's value [r] coming from a worker: the
    send waits for room in the channel, whose capacity is [concurrency]
    (the dispatcher holds one more slot); on a nil channel it never
    returns. *)
Definition send (r : result) : M unit :=
  yield ;;;
  w <- get ;;
  match output w with
  | None => hang
  | Some q =>
      dispatcher_run (Z.to_nat (len q - concurrency (cfg w))) ;;;
      modify (fun w =>
                match output w with
                | Some q' => set_output (Some (q' ++ [r])) w
                | None => w
                end)
  end.

(** [w.output <- slot; slot <- r] with an unbuffered slot filled by the
    caller: the second send returns once the dispatcher has taken the
    value, hence served every earlier slot. *)
Definition send_wait (r : result) : M unit :=
  yield ;;;
  w <- get ;;
  match output w with
  | None => hang
  | Some q =>
      dispatcher_drain ;;;
      modify (fun w =>
                match output w with
                | Some q' => set_output (Some (q' ++ [r])) w
                | None => w
                end)
  end.

(** ** [writeSync], [write], [writeFull] *)

(** [uncompressed, p = p[:blockSize], p[blockSize:]] or
    [uncompressed, p = p, nil]. *)
Definition cut_block (p : list Z) (bs : Z) : res (list Z * list Z) :=
  if bs <? len p then
    if bs <? 0 then Panics "slice bounds out of range"
    else Val (take bs p, drop bs p)
  else Val (p, []).

Definition add_written (n : Z) : M unit :=
  modify (fun w => set_written (int64 (written w + n)) w).

Definition add_uncompWritten (n : Z) : M unit :=
  modify (fun w => set_uncompWritten (int64 (uncompWritten w + n)) w).

(** One round of the loop of [writeSync] up to the first write: from
    [checksum := crc(uncompressed)] to the eight header assignments.  The
    value is [obuf] as it is written, and [chunkType]. *)
Definition writeSync_job (c : Config) (obuf uncompressed : list Z)
  : res (list Z * Z) :=
  let checksum := crc uncompressed in
  rbind (slice_from obuf obufHeaderLen) (fun tail =>
  rbind (PutUvarint tail (uint64 (len uncompressed))) (fun pv =>
    let '(tail1, n) := pv in
    let '(n2, tail2) :=
      Writer_encodeBlock c (drop n tail1) (len tail1 - n) uncompressed in
    let obuf1 := take obufHeaderLen obuf ++ take n tail1 ++ tail2 in
    let chunkType := if 0 <? n2 then uint8 chunkTypeMinLZCompressedData
                     else uint8 chunkTypeUncompressedData in
    let chunkLen := if 0 <? n2 then 4 + n + n2 else 4 + len uncompressed in
    rbind (reslice obuf1 (if 0 <? n2 then obufHeaderLen + n + n2 else 8)) (fun obuf2 =>
    rbind (fill_header obuf2 chunkType chunkLen checksum) (fun obuf3 =>
      Val (obuf3, chunkType))))).

(** The loop [for len(p) > 0] of [writeSync].  Each round takes a block
    off [p]; [fuel] is the length of [p], which is used up only when
    [blockSize] is 0 and the Go loop spins. *)
Fixpoint writeSync_loop (fuel : nat) (p : list Z) (nRet : Z) : M (Z * option error) :=
  if 0 <? len p then
    match fuel with
    | O => hang
    | S f =>
        w <- get ;;
        cut <- lift (cut_block p (blockSize (cfg w))) ;;
        let '(uncompressed, p') := cut in
        obuf0 <- buffers_Get ;;
        obuf <- lift (reslice obuf0 (obufLen (cfg w))) ;;
        job <- lift (writeSync_job (cfg w) obuf uncompressed) ;;
        let '(obuf3, chunkType) := job in
        r <- writer_Write obuf3 ;;
        let '(nw, err) := r in
        match err with
        | Some _ => e <- Writer_err err ;; ret (0, e)
        | None =>
            if negb (nw =? len obuf3)
            then e <- Writer_err (Some ErrShortWrite) ;; ret (0, e)
            else
              w1 <- get ;;
              ie <- Index_add (written w1) (uncompWritten w1) ;;
              Writer_err ie ;;;
              add_written nw ;;;
              add_uncompWritten (len uncompressed) ;;;
              if chunkType =? chunkTypeUncompressedData then
                r2 <- writer_Write uncompressed ;;
                let '(nw2, err2) := r2 in
                match err2 with
                | Some _ => e <- Writer_err err2 ;; ret (0, e)
                | None =>
                    if negb (nw2 =? len uncompressed)
                    then e <- Writer_err (Some ErrShortWrite) ;; ret (0, e)
                    else add_written nw2 ;;;
                         writeSync_loop f p' (nRet + len uncompressed)
                end
              else writeSync_loop f p' (nRet + len uncompressed)
        end
    end
  else ret (nRet, None).

Definition writeSync (p : list Z) : M (Z * option error) :=
  e <- Writer_err None ;;
  match e with
  | Some _ => ret (0, e)
  | None =>
      w <- get ;;
      if negb (wroteStreamHeader w) then
        modify (set_wroteStreamHeader true) ;;;
        r <- writer_Write (makeHeader (blockSize (cfg w))) ;;
        let '(n, err) := r in
        match err with
        | Some _ => e <- Writer_err err ;; ret (0, e)
        | None =>
            if negb (n =? len magicChunk + 1)
            then e <- Writer_err (Some ErrShortWrite) ;; ret (0, e)
            else add_written n ;;; writeSync_loop (List.length p) p 0
        end
      else writeSync_loop (List.length p) p 0
  end.

(** The stream header goes through the ordering channel the first time. *)
Definition queue_header : M unit :=
  w <- get ;;
  if negb (wroteStreamHeader w) then
    modify (set_wroteStreamHeader true) ;;;
    send_wait {| b := makeHeader (blockSize (cfg w)); startOffset := uncompWritten w |}
  else ret tt.

(** The loop [for len(p) > 0] of [write]. *)
Fixpoint write_loop (fuel : nat) (p : list Z) (nRet : Z) : M (Z * option error) :=
  if 0 <? len p then
    match fuel with
    | O => hang
    | S f =>
        queue_header ;;;
        w <- get ;;
        cut <- lift (cut_block p (blockSize (cfg w))) ;;
        let '(uncompressed, p') := cut in
        inbuf0 <- buffers_Get ;;
        inbuf1 <- lift (reslice inbuf0 (len uncompressed + obufHeaderLen)) ;;
        obuf0 <- buffers_Get ;;
        obuf <- lift (reslice obuf0 (obufLen (cfg w))) ;;
        lift (slice_from inbuf1 obufHeaderLen) ;;;
        let inbuf := copy_at inbuf1 obufHeaderLen uncompressed in
        let uncompressed := drop obufHeaderLen inbuf in
        job <- lift (write_job (cfg w) obuf inbuf uncompressed) ;;
        send {| b := job; startOffset := uncompWritten w |} ;;;
        add_uncompWritten (len uncompressed) ;;;
        write_loop f p' (nRet + len uncompressed)
    end
  else ret (nRet, None).

Definition write (p : list Z) : M (Z * option error) :=
  e <- Writer_err None ;;
  match e with
  | Some _ => ret (0, e)
  | None =>
      w <- get ;;
      if concurrency (cfg w) =? 1 then writeSync p
      else write_loop (List.length p) p 0
  end.

Definition writeFull (inbuf : list Z) : M (option error) :=
  e <- Writer_err None ;;
  match e with
  | Some _ => ret e
  | None =>
      w <- get ;;
      if concurrency (cfg w) =? 1 then
        data <- lift (slice_from inbuf obufHeaderLen) ;;
        r <- writeSync data ;;
        ret (snd r)
      else
        queue_header ;;;
        obuf0 <- buffers_Get ;;
        obuf <- lift (reslice obuf0 (obufLen (cfg w))) ;;
        uncompressed <- lift (slice_from inbuf obufHeaderLen) ;;
        job <- lift (write_job (cfg w) obuf inbuf uncompressed) ;;
        send {| b := job; startOffset := uncompWritten w |} ;;;
        add_uncompWritten (len uncompressed) ;;;
        ret None
  end.

(** ** [AsyncFlush], [Flush] *)

Definition AsyncFlush : M (option error) :=
  e <- Writer_err None ;;
  match e with
  | Some _ => ret e
  | None =>
      w <- get ;;
      if negb (len (ibuf w) =? 0) then
        if negb (wroteStreamHeader w) then
          r <- writeSync (ibuf w) ;;
          modify (set_ibuf []) ;;;
          Writer_err (snd r)
        else
          r <- write (ibuf w) ;;
          modify (set_ibuf []) ;;;
          e1 <- Writer_err (snd r) ;;
          match e1 with
          | Some _ => ret e1
          | None => Writer_err None
          end
      else Writer_err None
  end.

Definition Flush : M (option error) :=
  e <- AsyncFlush ;;
  match e with
  | Some _ => ret e
  | None =>
      w <- get ;;
      match output w with
      | None => Writer_err None
      | Some _ =>
          send_wait {| b := []; startOffset := uncompWritten w |} ;;;
          dispatcher_drain ;;;
          Writer_err None
      end
  end.

(** ** [EncodeBuffer], [AddUserChunk] *)

(** The loop [for len(buf) > 0] of [EncodeBuffer]. *)
Fixpoint EncodeBuffer_loop (fuel : nat) (buf : list Z) : M (option error) :=
  if 0 <? len buf then
    match fuel with
    | O => hang
    | S f =>
        w <- get ;;
        cut <- lift (cut_block buf (blockSize (cfg w))) ;;
        let '(uncompressed, buf') := cut in
        arr <- buffers_Get ;;
        job <- lift (EncodeBuffer_job (cfg w) arr uncompressed) ;;
        send {| b := job; startOffset := uncompWritten w |} ;;;
        add_uncompWritten (len uncompressed) ;;;
        EncodeBuffer_loop f buf'
    end
  else ret None.

Definition EncodeBuffer (buf : list Z) : M (option error) :=
  e <- Writer_err None ;;
  match e with
  | Some _ => ret e
  | None =>
      w <- get ;;
      if flushOnWrite (cfg w) then r <- write buf ;; ret (snd r)
      else
        e1 <- (if 0 <? len (ibuf w) then AsyncFlush else ret None) ;;
        match e1 with
        | Some _ => ret e1
        | None =>
            if concurrency (cfg w) =? 1 then r <- writeSync buf ;; ret (snd r)
            else queue_header ;;; EncodeBuffer_loop (List.length buf) buf
        end
  end.

(** The closure [write] of [AddUserChunk]. *)
Definition AddUserChunk_write (data : list Z) : M (option error) :=
  r <- writer_Write data ;;
  let '(n, err) := r in
  e <- Writer_err err ;;
  match e with
  | Some _ => ret e
  | None =>
      if negb (n =? len data) then Writer_err (Some ErrShortWrite)
      else add_written n ;;; Writer_err None
  end.

Definition AddUserChunk (id : Z) (data : list Z) : M (option error) :=
  e <- Writer_err None ;;
  match e with
  | Some _ => ret e
  | None =>
      if (id <? MinUserSkippableChunk) || (ChunkTypePadding <? id)
      then ret (Some (errorsNew "invalid skippable block id"))
      else if MaxUserChunkSize <? len data
      then ret (Some (errorsNew "user chunk exceeds maximum size"))
      else
        let chunkLen := len data in
        let header := [id; uint8 (Z.shiftr chunkLen 0); uint8 (Z.shiftr chunkLen 8);
                       uint8 (Z.shiftr chunkLen 16)] in
        w <- get ;;
        if concurrency (cfg w) =? 1 then
          e1 <- (if negb (wroteStreamHeader w) then
                   modify (set_wroteStreamHeader true) ;;;
                   AddUserChunk_write (makeHeader (blockSize (cfg w)))
                 else ret None) ;;
          match e1 with
          | Some _ => ret e1
          | None =>
              w1 <- get ;;
              e2 <- (if 0 <? uncompWritten w1 then
                       ie <- Index_add (written w1) (uncompWritten w1) ;;
                       Writer_err ie
                     else ret None) ;;
              match e2 with
              | Some _ => ret e2
              | None =>
                  e3 <- AddUserChunk_write header ;;
                  match e3 with
                  | Some _ => ret e3
                  | None => AddUserChunk_write data
                  end
              end
          end
        else
          queue_header ;;;
          inbuf0 <- buffers_Get ;;
          inbuf <- lift (reslice inbuf0 4) ;;
          let inbuf := copy_at inbuf 0 header ++ data in
          w1 <- get ;;
          send {| b := inbuf; startOffset := uncompWritten w1 |} ;;;
          ret None
  end.

(** ** [Close], [CloseIndex], [Written] *)

(** [close(w.output); w.writerWg.Wait(); w.output = nil]. *)
Definition close_output : M unit :=
  w <- get ;;
  match output w with
  | Some _ => dispatcher_drain ;;; modify (set_output None)
  | None => ret tt
  end.

Definition is_nil {A} (o : option A) : bool :=
  match o with
  | None => true
  | Some _ => false
  end.

(** The end of [closeIndex]: [err = w.err(errClosed)] and the two
    returns. *)
Definition closeIndex_return (index : list Z) : M (list Z * option error) :=
  e <- Writer_err (Some errClosed) ;;
  match e with
  | Some errClosed => ret (index, None)
  | Some errNilWriter => ret (index, None)
  | _ => ret ([], e)
  end.

Definition closeIndex (idx : bool) : M (list Z * option error) :=
  err <- Flush ;;
  close_output ;;;
  w <- get ;;
  if idx && is_nil (index w)
  then ret ([], Some (errorsNew "index requested, but was asked to not generate one"))
  else
    (* Write EOF marker. *)
    e1 <- Writer_err err ;;
    (if is_nil e1 && negb (is_nil (writer w)) then
       w1 <- get ;;
       let vb := uvarint (uint64 (uncompWritten w1)) in
       let n := len vb in
       let tmp := [chunkTypeEOF; uint8 n; 0; 0] ++ vb in
       r <- writer_Write tmp ;;
       Writer_err (snd r) ;;;
       add_written (n + 4)
     else ret tt) ;;;
    e2 <- Writer_err err ;;
    if is_nil e2 && negb (is_nil (writer w)) then
      (* Create index. *)
      index <- (if idx then
                  w2 <- get ;;
                  let compSize := if pad (cfg w2) <=? 1 then written w2 else (-1) in
                  let index := Index_appendTo (index w2) [] (uncompWritten w2) compSize in
                  (if appendIndex (cfg w2) then add_written (len index) else ret tt) ;;;
                  ret index
                else ret []) ;;
      (* Add padding.  The frame is built in [w.ibuf[:0]], or in a pooled
         buffer cut to no bytes when there is an index; either way it
         starts from no bytes. *)
      stop <- (if 1 <? pad (cfg w) then
                 w3 <- get ;;
                 add <- lift (calcSkippableFrame (written w3) (int64 (pad (cfg w3)))) ;;
                 let '(frame, ferr, r') := skippableFrame [] add (randSrc w3) in
                 modify (set_randSrc r') ;;;
                 e3 <- Writer_err ferr ;;
                 match e3 with
                 | Some _ => ret e3
                 | None =>
                     r <- writer_Write frame ;;
                     let '(n, err2) := r in
                     let err2 := match err2 with
                                 | None => if n =? len frame then None
                                           else Some ErrShortWrite
                                 | Some _ => err2
                                 end in
                     add_written n ;;;
                     Writer_err err2 ;;;
                     ret None
                 end
               else ret None) ;;
      match stop with
      | Some _ => ret ([], stop)
      | None =>
          (* Add index. *)
          (if (0 <? len index) && appendIndex (cfg w) then
             r <- writer_Write index ;;
             let '(n, err2) := r in
             let err2 := match err2 with
                         | None => if n =? len index then None
                                   else Some ErrShortWrite
                         | Some _ => err2
                         end in
             Writer_err err2 ;;;
             ret tt
           else ret tt) ;;;
          closeIndex_return index
      end
    else closeIndex_return [].

Definition Close : M (option error) :=
  w <- get ;;
  r <- closeIndex (appendIndex (cfg w)) ;;
  ret (snd r).

Definition CloseIndex : M (list Z * option error) := closeIndex true.

Definition Written (w : Writer) : Z * Z := (uncompWritten w, written w).

(** ** [Write], [ReadFrom] *)

(** The loop of [Write]; it returns what is left of [p] and [nRet].  A
    round either forwards all of [p] or empties [ibuf], so the fuel given
    by [Write] is never used up unless [write] itself spins. *)
Fixpoint Write_loop (fuel : nat) (p : list Z) (nRet : Z) : M (list Z * Z) :=
  w <- get ;;
  if ibufCap w - len (ibuf w) <? len p then
    e <- Writer_err None ;;
    match e with
    | Some _ => ret (p, nRet)
    | None =>
        match fuel with
        | O => hang
        | S f =>
            w <- get ;;
            if len (ibuf w) =? 0 then
              r <- write p ;;
              let n := fst r in
              p' <- lift (slice_from p n) ;;
              Write_loop f p' (nRet + n)
            else
              (if ibufCap w <? len (ibuf w)
               then panic "slice bounds out of range" else ret tt) ;;;
              let n := Z.min (ibufCap w - len (ibuf w)) (len p) in
              modify (set_ibuf (ibuf w ++ take n p)) ;;;
              w1 <- get ;;
              write (ibuf w1) ;;;
              modify (set_ibuf []) ;;;
              p' <- lift (slice_from p n) ;;
              Write_loop f p' (nRet + n)
        end
    end
  else ret (p, nRet).

Definition Write (p : list Z) : M (Z * option error) :=
  e <- Writer_err None ;;
  match e with
  | Some _ => ret (0, e)
  | None =>
      w <- get ;;
      if flushOnWrite (cfg w) then write p
      else
        r <- Write_loop (3 + List.length p) p 0 ;;
        let '(p', nRet) := r in
        e1 <- Writer_err None ;;
        match e1 with
        | Some _ => ret (nRet, e1)
        | None =>
            w1 <- get ;;
            (if ibufCap w1 <? len (ibuf w1)
             then panic "slice bounds out of range" else ret tt) ;;;
            let n := Z.min (ibufCap w1 - len (ibuf w1)) (len p') in
            modify (set_ibuf (ibuf w1 ++ take n p')) ;;;
            ret (nRet + n, None)
        end
  end.

(** The loop [for { ... }] of [ReadFrom]: [n] is the running count. *)
Fixpoint ReadFrom_loop (fuel : nat) (r : Reader) (n : Z) : M (Z * option error) :=
  match fuel with
  | O => hang
  | S f =>
      w <- get ;;
      inbuf0 <- buffers_Get ;;
      inbuf <- lift (reslice inbuf0 (blockSize (cfg w) + obufHeaderLen)) ;;
      room <- lift (slice_from inbuf obufHeaderLen) ;;
      let '(got, err, r') := ReadFull r (len room) in
      let n2 := len got in
      let err := match err with
                 | Some ErrUnexpectedEOF => Some EOF
                 | _ => err
                 end in
      match err with
      | Some EOF | None =>
          if n2 =? 0 then e <- Writer_err None ;; ret (n, e)
          else
            let inbuf := copy_at inbuf obufHeaderLen got in
            full <- lift (reslice inbuf (n2 + obufHeaderLen)) ;;
            err2 <- writeFull full ;;
            e2 <- Writer_err err2 ;;
            if negb (is_nil e2) then e <- Writer_err None ;; ret (n + n2, e)
            else if negb (is_nil err) then e <- Writer_err None ;; ret (n + n2, e)
            else ReadFrom_loop f r' (n + n2)
      | Some _ => e <- Writer_err err ;; ret (n, e)
      end
  end.

Definition ReadFrom (r : Reader) : M (Z * option error) :=
  e <- Writer_err None ;;
  match e with
  | Some _ => ret (0, e)
  | None =>
      w <- get ;;
      e1 <- (if 0 <? len (ibuf w) then AsyncFlush else ret None) ;;
      match e1 with
      | Some _ => ret (0, e1)
      | None =>
          match rd_bytes r with
          | Some buf =>
              e2 <- EncodeBuffer buf ;;
              match e2 with
              | Some _ => ret (0, e2)
              | None => e3 <- AsyncFlush ;; ret (len buf, e3)
              end
          | None => ReadFrom_loop (S (List.length (rd_data r))) r 0
          end
      end
  end.

(** ** [Reset], the options, [NewWriter] *)

Definition Reset (wr : option Sink) : M unit :=
  w <- get ;;
  if negb (paramsOK (cfg w)) then ret tt
  else
    close_output ;;;
    modify (fun w => if genIndex (cfg w) && is_nil (index w)
                     then set_index (Some []) w else w) ;;;
    modify (fun w =>
              {| cfg := cfg w; errState := None; ibuf := []; ibufCap := ibufCap w;
                 written := 0; uncompWritten := 0; output := output w;
                 writer := wr; randSrc := randSrc w;
                 index := Index_reset (blockSize (cfg w)) (index w);
                 wroteStreamHeader := false; sinkLog := [];
                 pool := pool w; sched := sched w |}) ;;;
    match wr with
    | None => Writer_err (Some errNilWriter) ;;; ret tt
    | Some _ =>
        w1 <- get ;;
        if concurrency (cfg w1) =? 1 then ret tt
        else if concurrency (cfg w1) <? 0 then panic "makechan: size out of range"
        else modify (set_output (Some []))
    end.

Inductive WriterOption : Type :=
| WriterConcurrency (n : Z)
| WriterAddIndex (v : bool)
| WriterLevel (n : Z)
| WriterUncompressed
| WriterBlockSize (n : Z)
| WriterPadding (n : Z)
| WriterPaddingSrc (reader : Reader)
| WriterFlushOnWrite
| WriterCustomEncoder (fn : option Encoder)
| WriterCreateIndex (v : bool).

Definition set_cfg (c : Config) (w : Writer) : Writer :=
  {| cfg := c; errState := errState w; ibuf := ibuf w; ibufCap := ibufCap w;
     written := written w; uncompWritten := uncompWritten w; output := output w;
     writer := writer w; randSrc := randSrc w; index := index w;
     wroteStreamHeader := wroteStreamHeader w; sinkLog := sinkLog w;
     pool := pool w; sched := sched w |}.

(** An option applied to the writer under construction: the writer as the
    option leaves it, and the error it returns. *)
Definition apply_option (o : WriterOption) (w : Writer) : Writer * option error :=
  let c := cfg w in
  match o with
  | WriterConcurrency n =>
      if n <=? 0 then (w, Some (errorsNew "concurrency must be at least 1"))
      else (set_cfg {| blockSize := blockSize c; obufLen := obufLen c; concurrency := n;
                       pad := pad c; customEnc := customEnc c; paramsOK := paramsOK c;
                       flushOnWrite := flushOnWrite c; appendIndex := appendIndex c;
                       genIndex := genIndex c; level := level c |} w, None)
  | WriterAddIndex v =>
      if v && negb (genIndex c)
      then (w, Some (errorsNew "WriterAddIndex: WriterCreateIndex has been called with false parameter"))
      else (set_cfg {| blockSize := blockSize c; obufLen := obufLen c;
                       concurrency := concurrency c;
                       pad := pad c; customEnc := customEnc c; paramsOK := paramsOK c;
                       flushOnWrite := flushOnWrite c; appendIndex := v;
                       genIndex := genIndex c; level := level c |} w, None)
  | WriterLevel n =>
      if (n <? 0) || (LevelSmallest <? n) then (w, Some ErrInvalidLevel)
      else (set_cfg {| blockSize := blockSize c; obufLen := obufLen c;
                       concurrency := concurrency c;
                       pad := pad c; customEnc := customEnc c; paramsOK := paramsOK c;
                       flushOnWrite := flushOnWrite c; appendIndex := appendIndex c;
                       genIndex := genIndex c; level := uint8 n |} w, None)
  | WriterUncompressed =>
      (set_cfg {| blockSize := blockSize c; obufLen := obufLen c;
                  concurrency := concurrency c;
                  pad := pad c; customEnc := customEnc c; paramsOK := paramsOK c;
                  flushOnWrite := flushOnWrite c; appendIndex := appendIndex c;
                  genIndex := genIndex c; level := 0 |} w, None)
  | WriterBlockSize n =>
      if (maxBlockSize <? n) || (n <? minBlockSize)
      then (w, Some (errorsNew "minlz: block size out of bounds. Must be <= 4MB and >=4KB"))
      else (set_cfg {| blockSize := n; obufLen := obufLen c;
                       concurrency := concurrency c;
                       pad := pad c; customEnc := customEnc c; paramsOK := paramsOK c;
                       flushOnWrite := flushOnWrite c; appendIndex := appendIndex c;
                       genIndex := genIndex c; level := level c |} w, None)
  | WriterPadding n =>
      if n <=? 0 then (w, Some (errorsNew "s2: padding must be at least 1"))
      else
        let with_pad v :=
          set_cfg {| blockSize := blockSize c; obufLen := obufLen c;
                     concurrency := concurrency c;
                     pad := v; customEnc := customEnc c; paramsOK := paramsOK c;
                     flushOnWrite := flushOnWrite c; appendIndex := appendIndex c;
                     genIndex := genIndex c; level := level c |} w in
        if maxBlockSize <? n
        then ((if n =? 1 then with_pad 0 else w),
              Some (errorsNew "s2: padding must less than 4MB"))
        else (with_pad n, None)
  | WriterPaddingSrc reader => (set_randSrc reader w, None)
  | WriterFlushOnWrite =>
      (set_cfg {| blockSize := blockSize c; obufLen := obufLen c;
                  concurrency := concurrency c;
                  pad := pad c; customEnc := customEnc c; paramsOK := paramsOK c;
                  flushOnWrite := true; appendIndex := appendIndex c;
                  genIndex := genIndex c; level := level c |} w, None)
  | WriterCustomEncoder fn =>
      (set_cfg {| blockSize := blockSize c; obufLen := obufLen c;
                  concurrency := concurrency c;
                  pad := pad c; customEnc := fn; paramsOK := paramsOK c;
                  flushOnWrite := flushOnWrite c; appendIndex := appendIndex c;
                  genIndex := genIndex c; level := level c |} w, None)
  | WriterCreateIndex v =>
      let w' := set_cfg {| blockSize := blockSize c; obufLen := obufLen c;
                           concurrency := concurrency c;
                           pad := pad c; customEnc := customEnc c; paramsOK := paramsOK c;
                           flushOnWrite := flushOnWrite c; appendIndex := appendIndex c;
                           genIndex := v; level := level c |} w in
      if negb v && appendIndex c
      then (w', Some (errorsNew "WriterCreateIndex: Cannot disable when WriterAddIndex has been requested"))
      else (w', None)
  end.

Fixpoint apply_options (opts : list WriterOption) (w : Writer) : Writer * option error :=
  match opts with
  | [] => (w, None)
  | o :: rest =>
      let '(w', e) := apply_option o w in
      match e with
      | Some _ => (w', e)
      | None => apply_options rest w'
      end
  end.

(** [NewWriter(w, opts...)].  Besides the sink and the options the model
    is given the world the writer starts in: [rnd] stands for
    [crypto/rand.Reader], [pool0] and [sched0] are the initial [pool] and
    [sched]. *)
Definition NewWriter (wr : option Sink) (opts : list WriterOption)
  (rnd : Reader) (pool0 : list (list Z)) (sched0 : list nat) : res Writer :=
  let w2 :=
    {| cfg := {| blockSize := defaultBlockSize; obufLen := 0;
                 concurrency := GOMAXPROCS; pad := 0; customEnc := None;
                 paramsOK := false; flushOnWrite := false; appendIndex := false;
                 genIndex := true; level := LevelBalanced |};
       errState := None; ibuf := []; ibufCap := 0; written := 0;
       uncompWritten := 0; output := None; writer := None; randSrc := rnd;
       index := None; wroteStreamHeader := false; sinkLog := [];
       pool := pool0; sched := sched0 |} in
  let '(w3, e) := apply_options opts w2 in
  match e with
  | Some _ => Val (set_errState e w3)
  | None =>
      let c := cfg w3 in
      if blockSize c <? 0 then Panics "makeslice: cap out of range"
      else
        let w4 :=
          {| cfg := {| blockSize := blockSize c;
                       obufLen := obufHeaderLen + MaxEncodedLen (blockSize c);
                       concurrency := concurrency c; pad := pad c;
                       customEnc := customEnc c; paramsOK := true;
                       flushOnWrite := flushOnWrite c; appendIndex := appendIndex c;
                       genIndex := genIndex c; level := level c |};
             errState := errState w3; ibuf := []; ibufCap := blockSize c;
             written := written w3; uncompWritten := uncompWritten w3;
             output := output w3; writer := writer w3; randSrc := randSrc w3;
             index := index w3; wroteStreamHeader := wroteStreamHeader w3;
             sinkLog := sinkLog w3; pool := pool w3; sched := sched w3 |} in
        match Reset wr w4 with
        | Val (_, w5) => Val w5
        | Panics msg => Panics msg
        | Diverges => Diverges
        end
  end.

End Methods.

(** ** A concrete environment

    Modelled from the spec: the constants and functions of [Env] are
    declared outside [writer.go].  The spec fixes the block size bounds
    (4 KiB and 4 MiB), the skippable frame header size (5), the user chunk
    ids (0x80 to 0xFE) and the levels (0 to 3); the other values below
    (magic bytes, chunk type bytes, default block size, worst-case encoded
    length, kernels that never compress, an index that keeps every entry
    and serialises to one byte per entry) are placeholders used to run the
    model on examples.  No theorem about the writer depends on them. *)
Definition sample_env : Env := {|
  magicChunk := [255; 6; 0; 0; 77; 105; 110; 76; 122];
  chunkTypeUncompressedData := 1;
  chunkTypeMinLZCompressedData := 2;
  chunkTypeEOF := 32;
  ChunkTypePadding := 254;
  MinUserSkippableChunk := 128;
  MaxUserChunkSize := 16777215;
  skippableFrameHeader := 5;
  obufHeaderLen := 8;
  minBlockSize := 4096;
  maxBlockSize := 4194304;
  defaultBlockSize := 1048576;
  LevelFastest := 1;
  LevelBalanced := 2;
  LevelSmallest := 3;
  GOMAXPROCS := 4;
  MaxEncodedLen := fun n => n + Z.shiftr n 5 + 16;
  encodeBlock := fun dst _ _ => (0, dst);
  encodeBlockBetter := fun dst _ _ => (0, dst);
  encodeBlockBest := fun dst _ _ => (0, dst);
  index_reset := fun _ _ => [];
  index_add := fun ix c u => (ix ++ [(c, u)], None);
  index_appendTo := fun ix dst _ _ => dst ++ map (fun _ => 64) ix
|}.

(** A sink that takes every byte and never fails. *)
Definition good_sink : Sink := fun _ data => (len data, None).

(** A sink that reports one byte less than it was given, without error. *)
Definition short_sink : Sink := fun _ data => (len data - 1, None).

(** A sink that fails with error [code] from call number [k] on (counting
    from 0). *)
Definition failing_sink (k : nat) (code : nat) : Sink :=
  fun log data =>
    if Nat.ltb (List.length log) k then (len data, None)
    else (0, Some (errExternal code)).

(** A source of padding bytes that never runs dry within [n] bytes. *)
Definition zero_reader (n : nat) : Reader :=
  {| rd_data := repeat 7 n; rd_err := EOF; rd_bytes := None |}.

(** A kernel that always answers with the two bytes [170; 187]. *)
Definition toy_kernel : Encoder := fun dst _ _ => (2, [170; 187]).

(** Running a method, then another. *)
Definition exec {A} (m : M A) (r : res Writer) : res Writer :=
  match r with
  | Val w =>
      match m w with
      | Val (_, w') => Val w'
      | Panics msg => Panics msg
      | Diverges => Diverges
      end
  | Panics msg => Panics msg
  | Diverges => Diverges
  end.

(** The bytes the sink has taken in: of each call, as many as its answer
    says (all of them when the count is out of range). *)
Definition on_sink (w : Writer) : list Z := List.concat (sinkLog w).

(** * Specifications, invariants and concrete writers *)

(** ** The wire format in the words of the spec *)

Definition le24 (x : Z) : list Z :=
  [uint8 x; uint8 (Z.shiftr x 8); uint8 (Z.shiftr x 16)].

Definition le32 (x : Z) : list Z :=
  [uint8 x; uint8 (Z.shiftr x 8); uint8 (Z.shiftr x 16); uint8 (Z.shiftr x 24)].

(** The number a little-endian field holds. *)
Fixpoint le_value (bs : list Z) : Z :=
  match bs with
  | [] => 0
  | x :: rest => x + 256 * le_value rest
  end.

(** A chunk: type byte, 24-bit little-endian body length, body. *)
Definition chunk (ty : Z) (body : list Z) : list Z := ty :: le24 (len body) ++ body.

(** What the spec asks of the padding size: positive, at least the frame
    header, making the total a multiple of [pad], and least such. *)
Definition least_padding {E : Env} (written pad add : Z) : Prop :=
  0 < add /\
  skippableFrameHeader <= add /\
  (written + add) mod pad = 0 /\
  forall a, 0 < a -> skippableFrameHeader <= a -> (written + a) mod pad = 0 -> add <= a.

Section BlockSpec.
Context {E : Env}.

(** The part of the output buffer handed to the kernel, and the
    kernel's answer for a block. *)
Definition block_dst (obuf src : list Z) : list Z :=
  drop (obufHeaderLen + len (uvarint (uint64 (len src)))) obuf.

Definition block_encoded (c : Config) (obuf src : list Z) : Z * list Z :=
  Writer_encodeBlock c (block_dst obuf src) (len (block_dst obuf src)) src.

(** The data chunk of a block as the spec describes it: compressed when
    the kernel returns [n > 0], stored otherwise. *)
Definition block_chunk (c : Config) (obuf src : list Z) : list Z :=
  let v := uvarint (uint64 (len src)) in
  let '(n2, out) := block_encoded c obuf src in
  if 0 <? n2
  then chunk (uint8 chunkTypeMinLZCompressedData) (le32 (crc src) ++ v ++ take n2 out)
  else chunk (uint8 chunkTypeUncompressedData) (le32 (crc src) ++ src).

(** The buffer [buffers.Get] hands out next. *)
Definition next_buffer (w : Writer) : list Z :=
  match pool w with
  | [] => repeat 0 (Z.to_nat (obufLen (cfg w)))
  | x :: _ => take (obufLen (cfg w)) x ++ repeat 0 (Z.to_nat (obufLen (cfg w) - len x))
  end.

End BlockSpec.

(** ** Relating two states of the writer *)

(** Everything but the ordering channel and the schedule is the same. *)
Definition same_fields (w w' : Writer) : Prop :=
  cfg w' = cfg w /\ errState w' = errState w /\ ibuf w' = ibuf w /\
  ibufCap w' = ibufCap w /\ written w' = written w /\
  uncompWritten w' = uncompWritten w /\ writer w' = writer w /\
  randSrc w' = randSrc w /\ index w' = index w /\
  wroteStreamHeader w' = wroteStreamHeader w /\ sinkLog w' = sinkLog w /\
  pool w' = pool w.

(** [same_fields], and a closed channel stays closed. *)
Definition quiet (w w' : Writer) : Prop :=
  same_fields w w' /\ (output w = None -> output w' = None).

(** The fields the dispatcher goroutine never touches. *)
Definition front (w : Writer)
  : Config * list Z * Z * Z * option Sink * Reader * bool * list (list Z) :=
  (cfg w, ibuf w, ibufCap w, uncompWritten w, writer w, randSrc w,
   wroteStreamHeader w, pool w).

(** The ordering channel once the dispatcher has served its first [k]
    slots. *)
Definition queue_after (k : nat) (o : option (list result)) : option (list result) :=
  match o with
  | Some q => Some (skipn k q)
  | None => None
  end.

(** Partial correctness of a method: from a state where [P] holds, if it
    returns, [Q] holds of the value and the state. *)
Definition hoare {A} (P : Writer -> Prop) (m : M A) (Q : A -> Writer -> Prop) : Prop :=
  forall w, P w ->
    match m w with
    | Val (a, w') => Q a w'
    | Panics _ => True
    | Diverges => True
    end.

(** What [closeIndex] returns when it finds the cell set. *)
Definition closeIndex_latched_result (idx : bool) (w : Writer) (e : error)
  : list Z * option error :=
  if idx && is_nil (index w)
  then ([], Some (errorsNew "index requested, but was asked to not generate one"))
  else match e with
       | errClosed => ([], None)
       | errNilWriter => ([], None)
       | _ => ([], Some e)
       end.

(** A method keeps [I]: partial correctness with [I] before and after. *)
Definition pres {A} (I : Writer -> Prop) (m : M A) : Prop :=
  hoare I m (fun _ => I).

(** What no method changes once the writer is built: the configuration
    and whether there is an index. *)
Definition stable (w : Writer) : Config * bool := (cfg w, is_nil (index w)).

(** The buffer [buffers.Get] hands out after the next one. *)
Definition second_buffer {E : Env} (w : Writer) : list Z :=
  next_buffer (set_pool (tl (pool w)) w).

(** ** The state [closeIndex] leaves *)

(** No error in the cell means nothing is buffered. *)
Definition flushed (w : Writer) : Prop := errState w = None -> ibuf w = [].

(** The channel is closed and the index is there or not as before. *)
Definition closed_with (n : bool) (w : Writer) : Prop :=
  output w = None /\ is_nil (index w) = n.

(** After [closeIndex] went past its test of the index. *)
Definition closed_tail (n : bool) (r : list Z * option error) (w : Writer) : Prop :=
  closed_with n w /\ errState w <> None /\
  (snd r = None -> errState w = Some errClosed \/ errState w = Some errNilWriter).

(** After [closeIndex], whichever way it returned. *)
Definition closed_post (idx : bool) (r : list Z * option error) (w : Writer) : Prop :=
  output w = None /\
  (snd r = None ->
   (errState w = Some errClosed \/ errState w = Some errNilWriter) /\
   idx && is_nil (index w) = false) /\
  (errState w = None -> idx = true /\ index w = None /\ ibuf w = []).

(** ** The first write to the sink *)

Section FirstWrite.
Context {E : Env}.

(** The slots still queued whose payload the dispatcher will write. *)
Definition pend (w : Writer) : list result :=
  match output w with
  | Some q => filter (fun r => 0 <? len (b r)) q
  | None => []
  end.

(** The EOF chunk of a stream of no bytes. *)
Definition eof0 : list Z := [chunkTypeEOF; 1; 0; 0; 0].

(** Nothing was written yet, or the first write was the stream header,
    or it was the empty-stream EOF and the writer is still as [Close]
    left it with nothing submitted: the header flag off and the cell set.
    When nothing was written although the header has been submitted, the
    header is the next payload the dispatcher writes, unless an error
    stops it. *)
Definition first_ok (c : Config) (w : Writer) : Prop :=
  match sinkLog w with
  | first :: _ =>
      first = makeHeader (blockSize c) \/
      (first = eof0 /\ wroteStreamHeader w = false /\ errState w <> None)
  | [] =>
      wroteStreamHeader w = true ->
      errState w <> None \/
      exists r rest, pend w = r :: rest /\ b r = makeHeader (blockSize c)
  end.

(** The invariant of a run. *)
Definition Inv (c : Config) (w : Writer) : Prop :=
  cfg w = c /\
  (concurrency c = 1 -> output w = None) /\
  (wroteStreamHeader w = false -> uncompWritten w = 0 /\ pend w = []) /\
  first_ok c w.

(** The header is submitted from a state where the flag is on already
    or the cell is empty. *)
Definition due (c : Config) (w : Writer) : Prop :=
  Inv c w /\ (wroteStreamHeader w = true \/ errState w = None).

(** ... once the header has been submitted. *)
Definition InvW (c : Config) (w : Writer) : Prop :=
  Inv c w /\ wroteStreamHeader w = true.

(** ... once something has been written. *)
Definition InvL (c : Config) (w : Writer) : Prop :=
  Inv c w /\ wroteStreamHeader w = true /\ sinkLog w <> [].

(** Between [w.wroteStreamHeader = true] and the header going out. *)
Definition InvT (c : Config) (w : Writer) : Prop :=
  cfg w = c /\
  (concurrency c = 1 -> output w = None) /\
  wroteStreamHeader w = true /\
  pend w = [] /\
  match sinkLog w with
  | first :: _ => first = makeHeader (blockSize c)
  | [] => True
  end.

(** While [closeIndex] writes the footer: the EOF chunk is out and the
    cell may still be empty. *)
Definition InvC (c : Config) (w : Writer) : Prop :=
  cfg w = c /\ output w = None /\
  (wroteStreamHeader w = false -> uncompWritten w = 0) /\
  match sinkLog w with
  | first :: _ =>
      first = makeHeader (blockSize c) \/ (first = eof0 /\ wroteStreamHeader w = false)
  | [] => False
  end.

(** A writer to which nothing has been submitted, over the sink [s]:
    nothing written, nothing buffered, nothing but flush markers waiting
    on the channel, the cell empty. *)
Definition Fresh (s : Sink) (w : Writer) : Prop :=
  errState w = None /\ sinkLog w = [] /\ pend w = [] /\ ibuf w = [] /\
  writer w = Some s /\ wroteStreamHeader w = false /\ uncompWritten w = 0.

(** The calls of a run. *)
Inductive Call : Type :=
| CallWrite (p : list Z)
| CallEncodeBuffer (buf : list Z)
| CallReadFrom (r : Reader)
| CallAddUserChunk (id : Z) (data : list Z)
| CallAsyncFlush
| CallFlush
| CallClose
| CallCloseIndex
| CallReset (wr : option Sink).

Definition call (k : Call) : M unit :=
  match k with
  | CallWrite p => Write p ;;; ret tt
  | CallEncodeBuffer buf => EncodeBuffer buf ;;; ret tt
  | CallReadFrom r => ReadFrom r ;;; ret tt
  | CallAddUserChunk id data => AddUserChunk id data ;;; ret tt
  | CallAsyncFlush => AsyncFlush ;;; ret tt
  | CallFlush => Flush ;;; ret tt
  | CallClose => Close ;;; ret tt
  | CallCloseIndex => CloseIndex ;;; ret tt
  | CallReset wr => Reset wr
  end.

Fixpoint run (ks : list Call) : M unit :=
  match ks with
  | [] => ret tt
  | k :: rest => call k ;;; run rest
  end.

End FirstWrite.

(** ** Concrete writers

    The zero value [Writer{}], and writers built by [NewWriter] in
    [sample_env] over a given sink, options and schedule. *)

Definition zero_Writer : Writer :=
  {| cfg := {| blockSize := 0; obufLen := 0; concurrency := 0; pad := 0;
               customEnc := None; paramsOK := false; flushOnWrite := false;
               appendIndex := false; genIndex := false; level := 0 |};
     errState := None; ibuf := []; ibufCap := 0; written := 0; uncompWritten := 0;
     output := None; writer := None; randSrc := zero_reader 0; index := None;
     wroteStreamHeader := false; sinkLog := []; pool := []; sched := [] |}.

Definition built (r : res Writer) : Writer :=
  match r with
  | Val w => w
  | Panics _ => zero_Writer
  | Diverges => zero_Writer
  end.

Definition sample_writer (sink : Sink) (opts : list WriterOption) (sc : list nat)
  : Writer :=
  built (NewWriter (E := sample_env) (Some sink) opts (zero_reader 64) [] sc).

(** What a call returns, and the writer it leaves. *)
Definition value {A} (r : res (A * Writer)) : option A :=
  match r with
  | Val (a, _) => Some a
  | Panics _ => None
  | Diverges => None
  end.

Definition after {A} (m : M A) (w : Writer) : Writer :=
  match m w with
  | Val (_, w') => w'
  | Panics _ => w
  | Diverges => w
  end.

Definition value_or {A} (d : A) (r : res (A * Writer)) : A :=
  match r with
  | Val (a, _) => a
  | Panics _ => d
  | Diverges => d
  end.

(** A synchronous writer after [Write] of three bytes and [Flush]. *)
Definition sample_flushed : Writer :=
  after (Flush (E := sample_env))
    (after (Write (E := sample_env) [1; 2; 3])
       (sample_writer good_sink [WriterBlockSize 4096; WriterConcurrency 1] [])).

(** A synchronous writer with padding and an appended index that holds
    three bytes in its buffer, over a sink that fails from its call
    number 4 on: when the writer is closed, the calls before that one are
    the stream header, the chunk header, the data and the EOF chunk. *)
Definition sample_padded : Writer :=
  after (Write (E := sample_env) [1; 2; 3])
    (sample_writer (failing_sink 4 7)
       [WriterBlockSize 4096; WriterConcurrency 1; WriterAddIndex true;
        WriterPadding 64] []).

(** [sample_env] with an index that turns every entry down. *)
Definition rejecting_env : Env := {|
  magicChunk := magicChunk (Env := sample_env);
  chunkTypeUncompressedData := chunkTypeUncompressedData (Env := sample_env);
  chunkTypeMinLZCompressedData := chunkTypeMinLZCompressedData (Env := sample_env);
  chunkTypeEOF := chunkTypeEOF (Env := sample_env);
  ChunkTypePadding := ChunkTypePadding (Env := sample_env);
  MinUserSkippableChunk := MinUserSkippableChunk (Env := sample_env);
  MaxUserChunkSize := MaxUserChunkSize (Env := sample_env);
  skippableFrameHeader := skippableFrameHeader (Env := sample_env);
  obufHeaderLen := obufHeaderLen (Env := sample_env);
  minBlockSize := minBlockSize (Env := sample_env);
  maxBlockSize := maxBlockSize (Env := sample_env);
  defaultBlockSize := defaultBlockSize (Env := sample_env);
  LevelFastest := LevelFastest (Env := sample_env);
  LevelBalanced := LevelBalanced (Env := sample_env);
  LevelSmallest := LevelSmallest (Env := sample_env);
  GOMAXPROCS := GOMAXPROCS (Env := sample_env);
  MaxEncodedLen := MaxEncodedLen (Env := sample_env);
  encodeBlock := encodeBlock (Env := sample_env);
  encodeBlockBetter := encodeBlockBetter (Env := sample_env);
  encodeBlockBest := encodeBlockBest (Env := sample_env);
  index_reset := index_reset (Env := sample_env);
  index_add := fun ix _ _ => (ix, Some (errorsNew "index: entry rejected"));
  index_appendTo := index_appendTo (Env := sample_env)
|}.

(** A synchronous writer in [rejecting_env] over a sink that never
    fails. *)
Definition sample_rejecting : Writer :=
  built (NewWriter (E := rejecting_env) (Some good_sink)
           [WriterBlockSize 4096; WriterConcurrency 1; WriterFlushOnWrite]
           (zero_reader 64) [] []).

(** A synchronous and a concurrent writer whose kernel is [toy_kernel],
    which compresses every block to two bytes. *)
Definition sample_sync_toy : Writer :=
  sample_writer good_sink
    [WriterBlockSize 4096; WriterConcurrency 1; WriterCustomEncoder (Some toy_kernel)] [].


(** ** Counting the bytes written *)

(** A sink that takes every byte and reports no error. *)
Definition good (s : Sink) : Prop := forall log d, s log d = (len d, None).

(** On a writer with no ordering channel and a good sink, [written] is an
    [int64] that lags [n] bytes behind what the sink has received. *)
Definition Owed (c : Config) (n : Z) (w : Writer) : Prop :=
  cfg w = c /\ output w = None /\
  (forall s, writer w = Some s -> good s) /\
  written w = int64 (written w) /\
  int64 (written w + n) = int64 (len (on_sink w)).

(** A call that hands the writer no sink but a good one. *)
Definition good_call (k : Call) : Prop :=
  match k with
  | CallReset (Some s) => good s
  | _ => True
  end.

(** ** Every block of a stream *)

Section EveryBlock.
Context {E : Env}.

(** The data chunk of a block [src] whose kernel was handed the
    destination [dst] (its bytes up to the capacity) with length [dlen]:
    compressed when the kernel returns [n > 0], stored otherwise. *)
Definition data_chunk (c : Config) (dst : list Z) (dlen : Z) (src : list Z) : list Z :=
  let v := uvarint (uint64 (len src)) in
  let '(n2, out) := Writer_encodeBlock c dst dlen src in
  if 0 <? n2
  then chunk (uint8 chunkTypeMinLZCompressedData) (le32 (crc src) ++ v ++ take n2 out)
  else chunk (uint8 chunkTypeUncompressedData) (le32 (crc src) ++ src).






(** The blocks a loop cuts from [p]: [bs] bytes at a time, what is left
    at the end being the last block. *)
Fixpoint blocks_of (fuel : nat) (bs : Z) (p : list Z) : list (list Z) :=
  match fuel with
  | O => []
  | S f =>
      if 0 <? len p then
        if bs <? len p then take bs p :: blocks_of f bs (drop bs p) else [p]
      else []
  end.







End EveryBlock.

(** * Integers, slices and the wire encodings *)

Lemma uint8_small x : 0 <= x < 256 -> uint8 x = x.
Proof. intros; unfold uint8; apply Z.mod_small; lia. Qed.
Lemma uint32_small x : 0 <= x < 2 ^ 32 -> uint32 x = x.
Proof. intros; unfold uint32; apply Z.mod_small; lia. Qed.
Lemma uint64_small x : 0 <= x < 2 ^ 64 -> uint64 x = x.
Proof. intros; unfold uint64; apply Z.mod_small; lia. Qed.
Lemma int64_small x : - 2 ^ 63 <= x < 2 ^ 63 -> int64 x = x.
Proof. intros; unfold int64; rewrite Z.mod_small; lia. Qed.

(** * Slices *)

Lemma len_nonneg {A} (l : list A) : 0 <= len l.
Proof. unfold len; lia. Qed.

Lemma len_nil {A} : len (@nil A) = 0.
Proof. reflexivity. Qed.

Lemma len_cons {A} (x : A) l : len (x :: l) = 1 + len l.
Proof. unfold len; cbn [List.length]; lia. Qed.

Lemma len_app {A} (l1 l2 : list A) : len (l1 ++ l2) = len l1 + len l2.
Proof. unfold len; rewrite length_app; lia. Qed.

Lemma len_take {A} n (l : list A) : 0 <= n -> len (take n l) = Z.min n (len l).
Proof. intros; unfold len, take; rewrite length_firstn; lia. Qed.

Lemma len_drop {A} n (l : list A) : 0 <= n -> len (drop n l) = Z.max 0 (len l - n).
Proof. intros; unfold len, drop; rewrite length_skipn; lia. Qed.

Lemma len_repeat {A} (x : A) n : len (repeat x n) = Z.of_nat n.
Proof. unfold len; rewrite repeat_length; reflexivity. Qed.

Lemma take_drop {A} n (l : list A) : take n l ++ drop n l = l.
Proof. apply firstn_skipn. Qed.

Lemma take_all {A} n (l : list A) : len l <= n -> take n l = l.
Proof. intros; unfold take; apply firstn_all2; unfold len in *; lia. Qed.

Lemma drop_all {A} n (l : list A) : len l <= n -> drop n l = [].
Proof. intros; unfold drop; apply skipn_all2; unfold len in *; lia. Qed.

Lemma take_0 {A} (l : list A) : take 0 l = [].
Proof. reflexivity. Qed.

Lemma drop_0 {A} (l : list A) : drop 0 l = l.
Proof. reflexivity. Qed.

Lemma take_app_exact {A} n (l1 l2 : list A) : len l1 = n -> take n (l1 ++ l2) = l1.
Proof.
  intros <-; unfold take, len; rewrite Nat2Z.id.
  rewrite firstn_app, Nat.sub_diag, firstn_all; simpl; apply app_nil_r.
Qed.

Lemma drop_app_exact {A} n (l1 l2 : list A) : len l1 = n -> drop n (l1 ++ l2) = l2.
Proof.
  intros <-; unfold drop, len; rewrite Nat2Z.id.
  rewrite skipn_app, Nat.sub_diag, skipn_all; reflexivity.
Qed.

Lemma take_app_more {A} n (l1 l2 : list A) :
  len l1 <= n -> take n (l1 ++ l2) = l1 ++ take (n - len l1) l2.
Proof.
  intros H; unfold take, len in *. rewrite firstn_app.
  rewrite firstn_all2 by lia. f_equal. f_equal. lia.
Qed.

Lemma drop_drop {A} a c (l : list A) : 0 <= a -> 0 <= c -> drop a (drop c l) = drop (c + a) l.
Proof.
  intros; unfold drop. rewrite skipn_skipn. f_equal. lia.
Qed.

Lemma copy_at_inside dst off src :
  0 <= off -> off + len src <= len dst ->
  copy_at dst off src = take off dst ++ src ++ drop (off + len src) dst.
Proof.
  intros; unfold copy_at. rewrite (take_all (len dst - off) src) by lia. reflexivity.
Qed.

Lemma len_copy_at dst off src :
  0 <= off <= len dst -> len (copy_at dst off src) = len dst.
Proof.
  intros; unfold copy_at.
  pose proof (len_nonneg src).
  rewrite !len_app, !len_take, len_drop by lia. lia.
Qed.

(** * Varints *)

Lemma uvarint_bytes_len fuel x :
  (0 < fuel)%nat -> 1 <= len (uvarint_bytes fuel x) <= Z.of_nat fuel.
Proof.
  revert x; induction fuel as [|f IH]; intros x Hf; [lia|].
  simpl. destruct (128 <=? x).
  - destruct f as [|f'].
    + simpl. rewrite len_cons, len_nil. lia.
    + specialize (IH (Z.shiftr x 7) ltac:(lia)). rewrite len_cons. lia.
  - rewrite len_cons, len_nil. lia.
Qed.

Lemma uvarint_len x : 1 <= len (uvarint x) <= 10.
Proof. unfold uvarint. pose proof (@uvarint_bytes_len 10 x ltac:(lia)). lia. Qed.

Lemma PutUvarint_fits buf x :
  len (uvarint x) <= len buf ->
  PutUvarint buf x = Val (uvarint x ++ drop (len (uvarint x)) buf, len (uvarint x)).
Proof.
  intros H. unfold PutUvarint.
  destruct (Z.leb_spec (len (uvarint x)) (len buf)); [|lia].
  rewrite copy_at_inside by (pose proof (uvarint_len x); lia).
  rewrite take_0. reflexivity.
Qed.

(** * Little-endian fields *)

Lemma le_value_le24 x : 0 <= x < 2 ^ 24 -> le_value (le24 x) = x.
Proof.
  intros H. unfold le24, le_value, uint8.
  rewrite !Z.shiftr_div_pow2 by lia.
  change (2 ^ 8) with 256. change (2 ^ 16) with 65536.
  pose proof (Z.div_mod x 256 ltac:(lia)).
  pose proof (Z.div_mod (x / 256) 256 ltac:(lia)).
  rewrite Z.div_div in * by lia. change (256 * 256) with 65536 in *.
  assert (x / 65536 < 256) by (apply Z.div_lt_upper_bound; lia).
  assert (0 <= x / 65536) by (apply Z.div_pos; lia).
  rewrite (Z.mod_small (x / 65536)) by lia. lia.
Qed.

Lemma le_value_le32 x : 0 <= x < 2 ^ 32 -> le_value (le32 x) = x.
Proof.
  intros H. unfold le32, le_value, uint8.
  rewrite !Z.shiftr_div_pow2 by lia.
  change (2 ^ 8) with 256. change (2 ^ 16) with 65536. change (2 ^ 24) with 16777216.
  pose proof (Z.div_mod x 256 ltac:(lia)).
  pose proof (Z.div_mod (x / 256) 256 ltac:(lia)).
  pose proof (Z.div_mod (x / 65536) 256 ltac:(lia)).
  rewrite !Z.div_div in * by lia.
  change (256 * 256) with 65536 in *. change (65536 * 256) with 16777216 in *.
  assert (x / 16777216 < 256) by (apply Z.div_lt_upper_bound; lia).
  assert (0 <= x / 16777216) by (apply Z.div_pos; lia).
  rewrite (Z.mod_small (x / 16777216)) by lia. lia.
Qed.

Lemma crc_range bs : 0 <= crc bs < 2 ^ 32.
Proof. unfold crc, uint32. apply Z.mod_pos_bound. lia. Qed.

(** * Numbers: conversions that do nothing in range *)

Lemma bits_Len_log2 x : 0 < x -> bits_Len x = Z.log2 x + 1.
Proof.
  destruct x as [|p|p]; try lia; intros _.
  destruct p; simpl; try reflexivity; rewrite Pos.add_1_r; reflexivity.
Qed.

Section HeaderFacts.
Context {E : Env}.

Lemma makeHeader_log2 bs :
  4096 <= bs <= 4194304 ->
  makeHeader bs = magicChunk ++ [Z.log2 (bs - 1) - 9].
Proof.
  intros Hb. unfold makeHeader.
  rewrite uint64_small by lia.
  rewrite bits_Len_log2 by lia.
  assert (H1 : 11 <= Z.log2 (bs - 1)).
  { change 11 with (Z.log2 4095). apply Z.log2_le_mono; lia. }
  assert (H2 : Z.log2 (bs - 1) <= 21).
  { change 21 with (Z.log2 4194303). apply Z.log2_le_mono; lia. }
  rewrite (uint8_small (Z.log2 (bs - 1) + 1)) by lia.
  rewrite uint8_small by lia.
  do 2 f_equal. lia.
Qed.

End HeaderFacts.

(** * The padding size *)

Section Padding.
Context {E : Env}.

Lemma calcSkippableFrame_loop_spec fuel : forall toAdd m,
  0 < m ->
  - 2 ^ 63 <= toAdd ->
  skippableFrameHeader + m < 2 ^ 63 ->
  skippableFrameHeader - toAdd <= Z.of_nat fuel ->
  exists k, 0 <= k /\
    calcSkippableFrame_loop fuel toAdd m = Val (toAdd + k * m) /\
    skippableFrameHeader <= toAdd + k * m /\
    (0 < k -> toAdd + (k - 1) * m < skippableFrameHeader).
Proof.
  induction fuel as [|fuel IH]; intros toAdd m Hm Hlo Hov Hfuel.
  - exists 0. simpl. destruct (Z.ltb_spec toAdd skippableFrameHeader); [lia|].
    repeat split; try lia. f_equal; lia.
  - simpl. destruct (Z.ltb_spec toAdd skippableFrameHeader) as [Hlt|Hge].
    + rewrite int64_small by lia.
      destruct (IH (toAdd + m) m) as (k & Hk & Hrun & Hhi & Hprev); try lia.
      exists (k + 1).
      split; [lia|]. split; [rewrite Hrun; f_equal; lia|]. split; [lia|].
      intros _. destruct (Z.eq_dec k 0) as [->|Hk0]; [lia|].
      specialize (Hprev ltac:(lia)). lia.
    + exists 0. repeat split; try lia. f_equal; lia.
Qed.

Lemma int64_wraps x : 2 ^ 63 <= x < 2 ^ 64 + 2 ^ 63 -> int64 x = x - 2 ^ 64.
Proof.
  intros H. unfold int64.
  replace (x + 2 ^ 63) with (x - 2 ^ 64 + 2 ^ 63 + 1 * 2 ^ 64) by lia.
  rewrite Z.mod_add by lia. rewrite Z.mod_small by lia. lia.
Qed.

(** With [wantMultiple = 2^63 - d] and [d] no more than the frame header
    the sum wraps around: two rounds take [toAdd] to [toAdd - 2 * d], and
    the loop ends on the round that starts below [d]. *)
Lemma calcSkippableFrame_loop_wraps fuel : forall x d,
  1 <= d <= skippableFrameHeader ->
  skippableFrameHeader <= 2 ^ 61 ->
  - skippableFrameHeader < x < skippableFrameHeader ->
  x + skippableFrameHeader + 1 <= Z.of_nat fuel ->
  exists add, calcSkippableFrame_loop fuel x (2 ^ 63 - d) = Val add /\
              skippableFrameHeader <= add.
Proof.
  induction fuel as [fuel IH] using lt_wf_ind. intros x d Hd Hh Hx Hfuel.
  destruct fuel as [|f]; [lia|]. cbn [calcSkippableFrame_loop].
  destruct (Z.ltb_spec x skippableFrameHeader) as [_|?]; [|lia].
  destruct (Z_lt_le_dec x d) as [Hlt|Hge].
  - rewrite int64_small by lia.
    exists (x + (2 ^ 63 - d)). split; [|lia].
    destruct f; cbn [calcSkippableFrame_loop];
      (destruct (Z.ltb_spec (x + (2 ^ 63 - d)) skippableFrameHeader); [lia|reflexivity]).
  - rewrite int64_wraps by lia.
    destruct f as [|f']; [lia|]. cbn [calcSkippableFrame_loop].
    destruct (Z.ltb_spec (x + (2 ^ 63 - d) - 2 ^ 64) skippableFrameHeader) as [_|?]; [|lia].
    replace (x + (2 ^ 63 - d) - 2 ^ 64 + (2 ^ 63 - d)) with (x - 2 * d) by lia.
    rewrite int64_small by lia.
    apply IH; lia.
Qed.

(** Whatever the multiple, the loop ends within the fuel it is given. *)
Lemma calcSkippableFrame_loop_ends x m :
  skippableFrameHeader <= 2 ^ 61 ->
  0 < m < 2 ^ 63 -> 1 <= x < 2 ^ 63 ->
  exists add,
    calcSkippableFrame_loop (Z.to_nat (2 * skippableFrameHeader)) x m = Val add /\
    skippableFrameHeader <= add.
Proof.
  intros Hh Hm Hx.
  destruct (Z_lt_le_dec x skippableFrameHeader) as [Hlt|Hge].
  2:{ exists x. split; [|exact Hge].
      destruct (Z.to_nat (2 * skippableFrameHeader)); cbn [calcSkippableFrame_loop];
        (destruct (Z.ltb_spec x skippableFrameHeader); [lia|reflexivity]). }
  destruct (Z_lt_le_dec (skippableFrameHeader + m) (2 ^ 63)) as [Hno|Hwrap].
  - destruct (calcSkippableFrame_loop_spec (Z.to_nat (2 * skippableFrameHeader)) x m)
      as (k & _ & Hrun & Hhi & _); try lia.
    eexists. split; [exact Hrun|exact Hhi].
  - replace m with (2 ^ 63 - (2 ^ 63 - m)) by lia.
    apply calcSkippableFrame_loop_wraps; lia.
Qed.

Lemma calcSkippableFrame_aligned written pad :
  0 <= written -> 0 < pad -> written mod pad = 0 ->
  calcSkippableFrame written pad = Val 0.
Proof.
  intros Hw Hp Hz. unfold calcSkippableFrame.
  destruct (Z.leb_spec pad 0); [lia|].
  destruct (Z.ltb_spec written 0); [lia|].
  rewrite Z.rem_mod_nonneg by lia. rewrite Hz. reflexivity.
Qed.

Lemma calcSkippableFrame_unaligned written pad :
  0 <= written -> 0 < pad -> pad < 2 ^ 63 ->
  skippableFrameHeader + pad < 2 ^ 63 ->
  written mod pad <> 0 ->
  exists k, 0 <= k /\
    calcSkippableFrame written pad = Val (pad - written mod pad + k * pad) /\
    skippableFrameHeader <= pad - written mod pad + k * pad /\
    (0 < k -> pad - written mod pad + (k - 1) * pad < skippableFrameHeader).
Proof.
  intros Hw Hp Hp63 Hov Hnz. unfold calcSkippableFrame.
  destruct (Z.leb_spec pad 0); [lia|].
  destruct (Z.ltb_spec written 0); [lia|].
  rewrite Z.rem_mod_nonneg by lia.
  destruct (Z.eqb_spec (written mod pad) 0); [contradiction|].
  pose proof (Z.mod_pos_bound written pad Hp) as Hb.
  rewrite int64_small by lia.
  apply calcSkippableFrame_loop_spec; lia.
Qed.

Lemma multiple_after written pad a :
  0 < pad -> (written + a) mod pad = 0 ->
  exists j, a = pad - written mod pad + j * pad.
Proof.
  intros Hp Hz.
  pose proof (Z.div_mod written pad ltac:(lia)) as Hw.
  pose proof (Z.div_mod (written + a) pad ltac:(lia)) as Ha.
  rewrite Hz in Ha.
  exists ((written + a) / pad - written / pad - 1). lia.
Qed.

Lemma calcSkippableFrame_least written pad :
  0 <= written -> 1 < pad -> skippableFrameHeader + pad < 2 ^ 63 -> pad < 2 ^ 63 ->
  written mod pad <> 0 ->
  exists add, calcSkippableFrame written pad = Val add /\ least_padding written pad add.
Proof.
  intros Hw Hp Hov Hp63 Hnz.
  destruct (@calcSkippableFrame_unaligned written pad) as (k & Hk & Hrun & Hhi & Hprev); try lia.
  pose proof (Z.mod_pos_bound written pad ltac:(lia)) as Hb.
  eexists; split; [exact Hrun|].
  unfold least_padding. repeat split.
  - nia.
  - exact Hhi.
  - replace (written + (pad - written mod pad + k * pad))
      with (written mod pad + (written / pad) * pad + (1 - written mod pad / pad + k) * pad - written mod pad + written mod pad / pad * pad).
    2:{ pose proof (Z.div_mod written pad ltac:(lia)). rewrite (Z.div_small (written mod pad) pad) by lia. lia. }
    rewrite (Z.div_small (written mod pad) pad) by lia.
    replace (written mod pad + written / pad * pad + (1 - 0 + k) * pad - written mod pad + 0 * pad)
      with ((written / pad + 1 + k) * pad) by lia.
    apply Z.mod_mul; lia.
  - intros a Ha Hha Hmul.
    destruct (@multiple_after written pad a ltac:(lia) Hmul) as (j & ->).
    assert (0 <= j) by nia.
    destruct (Z.eq_dec k 0) as [->|Hk0]; [nia|].
    specialize (Hprev ltac:(lia)).
    assert (k - 1 < j) by nia.
    nia.
Qed.
End Padding.

(** * The chunk built for a block *)

Section Blocks.
Context {E : Env}.

Lemma run_kernel_len f dst dlen src : len (snd (run_kernel f dst dlen src)) = len dst.
Proof.
  unfold run_kernel. destruct (f dst dlen src) as [n d]. simpl.
  apply len_copy_at. pose proof (len_nonneg dst). lia.
Qed.

Lemma Writer_encodeBlock_len c dst dlen src :
  len (snd (Writer_encodeBlock c dst dlen src)) = len dst.
Proof.
  unfold Writer_encodeBlock.
  assert (Hlvl : forall d, len d = len dst ->
    len (snd (if level c =? LevelFastest then run_kernel encodeBlock d dlen src
              else if level c =? LevelBalanced then run_kernel encodeBlockBetter d dlen src
              else if level c =? LevelSmallest then run_kernel encodeBlockBest d dlen src
              else (0, d))) = len dst).
  { intros d Hd.
    destruct (level c =? LevelFastest); [rewrite run_kernel_len; exact Hd|].
    destruct (level c =? LevelBalanced); [rewrite run_kernel_len; exact Hd|].
    destruct (level c =? LevelSmallest); [rewrite run_kernel_len; exact Hd|].
    exact Hd. }
  destruct (customEnc c) as [f|]; [|apply Hlvl; reflexivity].
  pose proof (run_kernel_len f dst dlen src) as Hk.
  destruct (run_kernel f dst dlen src) as [r d]. simpl in Hk.
  destruct (0 <=? r); [exact Hk|]. apply Hlvl; exact Hk.
Qed.

Lemma fill_header_chunk obuf ty body crcv :
  obuf = repeat 0 8 ++ body \/ (8 <= len obuf /\ drop 8 obuf = body) ->
  fill_header obuf ty (4 + len body) crcv = Val (chunk ty (le32 crcv ++ body)).
Proof.
  intros H.
  assert (H8 : 8 <= len obuf /\ drop 8 obuf = body).
  { destruct H as [->|H]; [|exact H]. split.
    - rewrite len_app. pose proof (len_nonneg body). change (len (repeat 0 8)) with 8. lia.
    - apply drop_app_exact. reflexivity. }
  destruct H8 as [Hl Hd].
  unfold fill_header. destruct (Z.ltb_spec (len obuf) 8); [lia|].
  rewrite Hd. unfold chunk, le24, le32.
  rewrite len_app. change (len [uint8 crcv; uint8 (Z.shiftr crcv 8); uint8 (Z.shiftr crcv 16);
     uint8 (Z.shiftr crcv 24)]) with 4.
  rewrite !Z.shiftr_0_r. reflexivity.
Qed.

Lemma write_job_chunk c obuf inbuf src :
  obufHeaderLen = 8 ->
  18 <= len obuf ->
  8 <= len inbuf ->
  drop 8 inbuf = src ->
  fst (block_encoded c obuf src) <= len (block_dst obuf src) ->
  write_job c obuf inbuf src = Val (block_chunk c obuf src).
Proof.
  intros Hh Hobuf Hin Hsrc Hfit.
  unfold write_job, block_chunk, block_encoded, block_dst in *.
  rewrite Hh in *.
  set (v := uvarint (uint64 (len src))) in *.
  pose proof (uvarint_len (uint64 (len src))) as Hv. fold v in Hv.
  unfold slice_from.
  destruct (Z.ltb_spec 8 0); [lia|]. destruct (Z.ltb_spec (len obuf) 8); [lia|].
  cbn [orb rbind].
  assert (Hroom : len v <= len (drop 8 obuf)) by (rewrite len_drop by lia; lia).
  rewrite (PutUvarint_fits (drop 8 obuf) (uint64 (len src)) Hroom). fold v. cbn [rbind].
  rewrite (drop_app_exact (len v) v) by reflexivity.
  rewrite drop_drop by lia.
  rewrite (take_app_exact (len v) v) by reflexivity.
  replace (len (v ++ drop (8 + len v) obuf) - len v) with (len (drop (8 + len v) obuf)).
  2:{ rewrite len_app. lia. }
  pose proof (Writer_encodeBlock_len c (drop (8 + len v) obuf) (len (drop (8 + len v) obuf)) src) as Hlen.
  destruct (Writer_encodeBlock c (drop (8 + len v) obuf) (len (drop (8 + len v) obuf)) src) as [n2 out].
  cbn [fst snd] in Hlen, Hfit.
  destruct (Z.ltb_spec 0 n2) as [Hpos|Hnon].
  - unfold reslice.
    assert (Hl1 : len (take 8 obuf ++ v ++ out) = 8 + len v + len out).
    { rewrite !len_app, len_take by lia. lia. }
    destruct (Z.ltb_spec (8 + len v + n2) 0); [lia|].
    destruct (Z.ltb_spec (len (take 8 obuf ++ v ++ out)) (8 + len v + n2)); [lia|].
    cbn [orb rbind].
    replace (4 + len v + n2) with (4 + len (v ++ take n2 out)).
    2:{ rewrite len_app, len_take by lia. lia. }
    apply fill_header_chunk. right. split.
    + rewrite len_take by lia. lia.
    + rewrite take_app_more by (rewrite len_take by lia; lia).
      rewrite (drop_app_exact 8) by (rewrite len_take by lia; lia).
      rewrite len_take by lia. replace (8 + len v + n2 - Z.min 8 (len obuf)) with (len v + n2) by lia.
      rewrite take_app_more by lia. do 2 f_equal. lia.
  - subst src. apply fill_header_chunk. right. split; [lia|reflexivity].
Qed.
Lemma writeSync_job_chunk c obuf src :
  obufHeaderLen = 8 ->
  18 <= len obuf ->
  fst (block_encoded c obuf src) <= len (block_dst obuf src) ->
  writeSync_job c obuf src =
  Val (if 0 <? fst (block_encoded c obuf src)
       then (block_chunk c obuf src, uint8 chunkTypeMinLZCompressedData)
       else (take 8 (block_chunk c obuf src), uint8 chunkTypeUncompressedData)).
Proof.
  intros Hh Hobuf Hfit.
  unfold writeSync_job, block_chunk, block_encoded, block_dst in *.
  rewrite Hh in *.
  set (v := uvarint (uint64 (len src))) in *.
  pose proof (uvarint_len (uint64 (len src))) as Hv. fold v in Hv.
  unfold slice_from.
  destruct (Z.ltb_spec 8 0); [lia|]. destruct (Z.ltb_spec (len obuf) 8); [lia|].
  cbn [orb rbind].
  assert (Hroom : len v <= len (drop 8 obuf)) by (rewrite len_drop by lia; lia).
  rewrite (PutUvarint_fits (drop 8 obuf) (uint64 (len src)) Hroom). fold v. cbn [rbind].
  rewrite (drop_app_exact (len v) v) by reflexivity.
  rewrite drop_drop by lia.
  rewrite (take_app_exact (len v) v) by reflexivity.
  replace (len (v ++ drop (8 + len v) obuf) - len v) with (len (drop (8 + len v) obuf)).
  2:{ rewrite len_app. lia. }
  pose proof (Writer_encodeBlock_len c (drop (8 + len v) obuf) (len (drop (8 + len v) obuf)) src) as Hlen.
  destruct (Writer_encodeBlock c (drop (8 + len v) obuf) (len (drop (8 + len v) obuf)) src) as [n2 out].
  cbn [fst snd] in Hlen, Hfit |- *.
  assert (Hl1 : len (take 8 obuf ++ v ++ out) = 8 + len v + len out).
  { rewrite !len_app, len_take by lia. lia. }
  pose proof (len_nonneg out) as Hout.
  unfold reslice.
  destruct (Z.ltb_spec 0 n2) as [Hpos|Hnon].
  - destruct (Z.ltb_spec (8 + len v + n2) 0); [lia|].
    destruct (Z.ltb_spec (len (take 8 obuf ++ v ++ out)) (8 + len v + n2)); [lia|].
    cbn [orb rbind].
    replace (4 + len v + n2) with (4 + len (v ++ take n2 out)).
    2:{ rewrite len_app, len_take by lia. lia. }
    rewrite fill_header_chunk with (body := v ++ take n2 out).
    + reflexivity.
    + right. split.
      * rewrite len_take by lia. lia.
      * rewrite take_app_more by (rewrite len_take by lia; lia).
        rewrite (drop_app_exact 8) by (rewrite len_take by lia; lia).
        rewrite len_take by lia. replace (8 + len v + n2 - Z.min 8 (len obuf)) with (len v + n2) by lia.
        rewrite take_app_more by lia. do 2 f_equal. lia.
  - destruct (Z.ltb_spec 8 0); [lia|].
    destruct (Z.ltb_spec (len (take 8 obuf ++ v ++ out)) 8); [lia|].
    cbn [orb rbind].
    rewrite (take_app_exact 8) by (rewrite len_take by lia; lia).
    unfold fill_header.
    destruct (Z.ltb_spec (len (take 8 obuf)) 8); [rewrite len_take in *; lia|].
    rewrite (drop_all 8 (take 8 obuf)) by (rewrite len_take by lia; lia).
    cbn [rbind]. unfold chunk, le24, le32.
    rewrite len_app. 
    change (len [uint8 (crc src); uint8 (Z.shiftr (crc src) 8); uint8 (Z.shiftr (crc src) 16);
     uint8 (Z.shiftr (crc src) 24)]) with 4.
    rewrite !Z.shiftr_0_r. reflexivity.
Qed.

End Blocks.

(** * A set error cell *)

(** * Reasoning about methods *)

Ltac proj :=
  cbn [cfg errState ibuf ibufCap written uncompWritten output writer randSrc
       index wroteStreamHeader sinkLog pool sched
       set_errState set_ibuf set_written set_uncompWritten set_output
       set_randSrc set_index set_wroteStreamHeader set_sinkLog set_pool
       set_sched set_cfg] in *.

Lemma same_fields_refl w : same_fields w w.
Proof. unfold same_fields; repeat split; reflexivity. Qed.

Lemma same_fields_trans w1 w2 w3 :
  same_fields w1 w2 -> same_fields w2 w3 -> same_fields w1 w3.
Proof.
  unfold same_fields; intros H1 H2.
  repeat match goal with H : _ /\ _ |- _ => destruct H end.
  repeat split; congruence.
Qed.

Lemma quiet_refl w : quiet w w.
Proof. split; [apply same_fields_refl|auto]. Qed.

Lemma quiet_trans w1 w2 w3 : quiet w1 w2 -> quiet w2 w3 -> quiet w1 w3.
Proof.
  intros [S1 O1] [S2 O2]. split; [eapply same_fields_trans; eauto|auto].
Qed.

Lemma quiet_errState w w' : quiet w w' -> errState w' = errState w.
Proof. intros [S _]. apply S. Qed.

Lemma quiet_sinkLog w w' : quiet w w' -> sinkLog w' = sinkLog w.
Proof. intros [S _]. apply S. Qed.

Lemma quiet_written w w' : quiet w w' -> written w' = written w.
Proof. intros [S _]. apply S. Qed.

Lemma quiet_set_sched s w : quiet w (set_sched s w).
Proof. split; [unfold same_fields; repeat split; reflexivity|auto]. Qed.

Lemma quiet_set_output_None w : quiet w (set_output None w).
Proof. split; [unfold same_fields; repeat split; reflexivity|auto]. Qed.

Section Cell.
Context {E : Env}.

(** ** With an error in the cell the dispatcher writes nothing *)

Lemma dispatch_latched r w e : errState w = Some e -> dispatch r w = Val (tt, w).
Proof.
  intros H. unfold dispatch. destruct (0 <? len (b r)); [|reflexivity].
  unfold bind, err_cell. rewrite H. reflexivity.
Qed.

Lemma dispatch_next_latched w e :
  errState w = Some e ->
  exists w', dispatch_next w = Val (tt, w') /\ quiet w w'.
Proof.
  intros H. unfold dispatch_next.
  destruct (output w) as [[|r q]|] eqn:Ho.
  - exists w. split; [reflexivity|apply quiet_refl].
  - rewrite (dispatch_latched r (set_output (Some q) w) e) by exact H.
    eexists. split; [reflexivity|].
    split; [unfold same_fields; repeat split; reflexivity|].
    intros Hn. congruence.
  - exists w. split; [reflexivity|apply quiet_refl].
Qed.

Lemma dispatcher_run_latched k : forall w e,
  errState w = Some e ->
  exists w', dispatcher_run k w = Val (tt, w') /\ quiet w w'.
Proof.
  induction k as [|k IH]; intros w e H.
  - exists w. split; [reflexivity|apply quiet_refl].
  - cbn [dispatcher_run]. unfold bind.
    destruct (dispatch_next_latched w e H) as (w1 & -> & Q1).
    destruct (IH w1 e) as (w2 & -> & Q2).
    + rewrite (quiet_errState _ _ Q1). exact H.
    + exists w2. split; [reflexivity|eapply quiet_trans; eauto].
Qed.

Lemma dispatcher_drain_latched w e :
  errState w = Some e ->
  exists w', dispatcher_drain w = Val (tt, w') /\ quiet w w'.
Proof.
  intros H. unfold dispatcher_drain. destruct (output w) as [q|].
  - eapply dispatcher_run_latched; eauto.
  - exists w. split; [reflexivity|apply quiet_refl].
Qed.

Lemma yield_latched w e :
  errState w = Some e ->
  exists w', yield w = Val (tt, w') /\ quiet w w'.
Proof.
  intros H. unfold yield. destruct (sched w) as [|k s] eqn:Hs.
  - exists w. split; [reflexivity|apply quiet_refl].
  - destruct (dispatcher_run_latched k (set_sched s w) e H) as (w' & -> & Q).
    exists w'. split; [reflexivity|].
    eapply quiet_trans; [apply quiet_set_sched|exact Q].
Qed.

Lemma err_cell_latched x w e : errState w = Some e -> err_cell x w = Val (Some e, w).
Proof. intros H. unfold err_cell. rewrite H. reflexivity. Qed.

Lemma Writer_err_latched x w e :
  errState w = Some e ->
  exists w', Writer_err x w = Val (Some e, w') /\ quiet w w'.
Proof.
  intros H. unfold Writer_err, bind.
  destruct (yield_latched w e H) as (w' & -> & Q).
  rewrite (err_cell_latched x w' e) by (rewrite (quiet_errState _ _ Q); exact H).
  exists w'. split; [reflexivity|exact Q].
Qed.

Lemma Write_latched p w e :
  errState w = Some e ->
  exists w', Write p w = Val ((0, Some e), w') /\ quiet w w'.
Proof.
  intros H. unfold Write. unfold bind at 1.
  destruct (Writer_err_latched None w e H) as (w' & -> & Q).
  exists w'. split; [reflexivity|exact Q].
Qed.




Lemma AsyncFlush_latched w e :
  errState w = Some e ->
  exists w', AsyncFlush w = Val (Some e, w') /\ quiet w w'.
Proof.
  intros H. unfold AsyncFlush. unfold bind at 1.
  destruct (Writer_err_latched None w e H) as (w' & -> & Q).
  exists w'. split; [reflexivity|exact Q].
Qed.

Lemma Flush_latched w e :
  errState w = Some e ->
  exists w', Flush w = Val (Some e, w') /\ quiet w w'.
Proof.
  intros H. unfold Flush. unfold bind at 1.
  destruct (AsyncFlush_latched w e H) as (w' & -> & Q).
  exists w'. split; [reflexivity|exact Q].
Qed.

Lemma close_output_latched w e :
  errState w = Some e ->
  exists w', close_output w = Val (tt, w') /\ same_fields w w' /\ output w' = None.
Proof.
  intros H. unfold close_output. unfold bind at 1. cbn [get].
  destruct (output w) as [q|] eqn:Ho.
  - unfold bind at 1.
    destruct (dispatcher_drain_latched w e H) as (w' & -> & Q).
    cbn [modify]. eexists. split; [reflexivity|]. split.
    + eapply same_fields_trans; [apply Q|]. apply quiet_set_output_None.
    + reflexivity.
  - exists w. split; [reflexivity|]. split; [apply same_fields_refl|exact Ho].
Qed.

Lemma closeIndex_latched idx w e :
  errState w = Some e ->
  exists w', closeIndex idx w = Val (closeIndex_latched_result idx w e, w') /\
             same_fields w w' /\ output w' = None.
Proof.
  intros H. unfold closeIndex, closeIndex_latched_result.
  unfold bind at 1. destruct (Flush_latched w e H) as (w1 & -> & Q1).
  assert (H1 : errState w1 = Some e) by (rewrite (quiet_errState _ _ Q1); exact H).
  unfold bind at 1. destruct (close_output_latched w1 e H1) as (w2 & -> & S2 & O2).
  assert (S02 : same_fields w w2) by (eapply same_fields_trans; [apply Q1|exact S2]).
  assert (H2 : errState w2 = Some e) by (destruct S02 as (_ & -> & _); exact H).
  assert (Hix : index w2 = index w) by apply S02.
  unfold bind at 1. cbn [get]. rewrite Hix.
  destruct (idx && is_nil (index w)) eqn:Hidx.
  - exists w2. cbn [ret]. auto.
  - unfold bind at 1. destruct (Writer_err_latched (Some e) w2 e H2) as (w3 & -> & Q3).
    assert (H3 : errState w3 = Some e) by (rewrite (quiet_errState _ _ Q3); exact H2).
    cbn [is_nil andb]. unfold bind at 1. cbn [ret].
    unfold bind at 1. destruct (Writer_err_latched (Some e) w3 e H3) as (w4 & -> & Q4).
    assert (H4 : errState w4 = Some e) by (rewrite (quiet_errState _ _ Q4); exact H3).
    cbn [is_nil andb]. unfold closeIndex_return. unfold bind at 1.
    destruct (Writer_err_latched (Some errClosed) w4 e H4) as (w5 & -> & Q5).
    exists w5. split.
    + destruct e; reflexivity.
    + split.
      * eapply same_fields_trans; [exact S02|].
        eapply same_fields_trans; [apply Q3|].
        eapply same_fields_trans; [apply Q4|apply Q5].
      * apply Q5. apply Q4. apply Q3. exact O2.
Qed.

End Cell.

(** * Partial correctness rules *)

Lemma hoare_ret {A} (P : Writer -> Prop) (a : A) (Q : A -> Writer -> Prop) :
  (forall w, P w -> Q a w) -> hoare P (ret a) Q.
Proof. intros H w Hw. cbn. auto. Qed.

Lemma hoare_bind {A B} (P : Writer -> Prop) (m : M A) (k : A -> M B)
  (Q : A -> Writer -> Prop) (R : B -> Writer -> Prop) :
  hoare P m Q -> (forall a, hoare (Q a) (k a) R) -> hoare P (bind m k) R.
Proof.
  intros Hm Hk w Hw. unfold bind. specialize (Hm w Hw).
  destruct (m w) as [[a w']| |]; auto. apply Hk. exact Hm.
Qed.

Lemma hoare_get (P : Writer -> Prop) (Q : Writer -> Writer -> Prop) :
  (forall w, P w -> Q w w) -> hoare P get Q.
Proof. intros H w Hw. cbn. auto. Qed.

Lemma hoare_modify (P : Writer -> Prop) f (Q : unit -> Writer -> Prop) :
  (forall w, P w -> Q tt (f w)) -> hoare P (modify f) Q.
Proof. intros H w Hw. cbn. auto. Qed.

Lemma hoare_lift {A} (P : Writer -> Prop) (r : res A) (Q : A -> Writer -> Prop) :
  (forall a w, r = Val a -> P w -> Q a w) -> hoare P (lift r) Q.
Proof. intros H w Hw. unfold lift. destruct r; auto. Qed.

Lemma hoare_panic {A} (P : Writer -> Prop) msg (Q : A -> Writer -> Prop) :
  hoare P (panic msg) Q.
Proof. intros w Hw. exact I. Qed.

Lemma hoare_hang {A} (P : Writer -> Prop) (Q : A -> Writer -> Prop) :
  hoare P hang Q.
Proof. intros w Hw. exact I. Qed.

Lemma hoare_weaken {A} (P P' : Writer -> Prop) (m : M A) (Q Q' : A -> Writer -> Prop) :
  hoare P m Q -> (forall w, P' w -> P w) -> (forall a w, Q a w -> Q' a w) ->
  hoare P' m Q'.
Proof.
  intros H HP HQ w Hw. specialize (H w (HP w Hw)).
  destruct (m w) as [[a w']| |]; auto.
Qed.

Lemma hoare_conj {A} (P : Writer -> Prop) (m : M A) (Q1 Q2 : A -> Writer -> Prop) :
  hoare P m Q1 -> hoare P m Q2 -> hoare P m (fun a w => Q1 a w /\ Q2 a w).
Proof.
  intros H1 H2 w Hw. specialize (H1 w Hw). specialize (H2 w Hw).
  destruct (m w) as [[a w']| |]; auto.
Qed.

Lemma hoare_false {A} (m : M A) (Q : A -> Writer -> Prop) :
  hoare (fun _ => False) m Q.
Proof. intros w []. Qed.

(** The rules for an invariant. *)

Lemma pres_ret {A} I (a : A) : pres I (ret a).
Proof. apply hoare_ret; auto. Qed.

Lemma pres_bind {A B} I (m : M A) (k : A -> M B) :
  pres I m -> (forall a, pres I (k a)) -> pres I (bind m k).
Proof. intros Hm Hk. eapply hoare_bind; [exact Hm|exact Hk]. Qed.

Lemma pres_get I : pres I get.
Proof. apply hoare_get; auto. Qed.

Lemma pres_modify I f : (forall w, I w -> I (f w)) -> pres I (modify f).
Proof. intros H. apply hoare_modify; auto. Qed.

Lemma pres_lift {A} I (r : res A) : pres I (lift r).
Proof. apply hoare_lift; auto. Qed.

Lemma pres_panic {A} I msg : pres I (@panic A msg).
Proof. apply hoare_panic. Qed.

Lemma pres_hang {A} I : pres I (@hang A).
Proof. apply hoare_hang. Qed.

(** One step through the text of a method, chosen by its head. *)
Ltac pres_step known :=
  lazymatch goal with
  | |- pres _ ?m =>
      lazymatch m with
      | bind _ _ => apply pres_bind
      | ret _ => apply pres_ret
      | get => apply pres_get
      | lift _ => apply pres_lift
      | panic _ => apply pres_panic
      | hang => apply pres_hang
      | match ?x with _ => _ end => destruct x
      | _ => first [ progress cbv zeta | known ]
      end
  | |- forall _, _ => intro
  end.

Create HintDb stable.

Section Stable.
Context {E : Env}.

(** ** Nothing changes the configuration or makes an index appear *)

Variable X : Config * bool.
Let I (w : Writer) : Prop := stable w = X.

Ltac by_modify := apply pres_modify; intros ? H; exact H.

Lemma stable_err_cell e : pres I (err_cell e).
Proof.
  intros w Hw. unfold err_cell. destruct (errState w); [exact Hw|].
  destruct e; exact Hw.
Qed.

Lemma stable_writer_Write d : pres I (writer_Write d).
Proof. intros w Hw. unfold writer_Write. destruct (writer w); [exact Hw|exact Logic.I]. Qed.

Lemma stable_buffers_Get : pres I buffers_Get.
Proof.
  intros w Hw. unfold buffers_Get. destruct (obufLen (cfg w) <? 0); [exact Logic.I|].
  destruct (pool w); exact Hw.
Qed.

Lemma stable_Index_add c u : pres I (Index_add c u).
Proof.
  intros w Hw. unfold Index_add. destruct (index w) eqn:Hi; [|exact Hw].
  destruct (index_add i c u) as [ix' e]. unfold I, stable in *. proj.
  rewrite Hi in Hw. exact Hw.
Qed.

Lemma stable_add_written n : pres I (add_written n).
Proof. unfold add_written. by_modify. Qed.

Lemma stable_add_uncompWritten n : pres I (add_uncompWritten n).
Proof. unfold add_uncompWritten. by_modify. Qed.

Hint Resolve stable_err_cell stable_writer_Write stable_buffers_Get
  stable_Index_add stable_add_written stable_add_uncompWritten : stable.

Ltac stable_known := first [ by_modify | solve [auto with stable] ].
Ltac stable_auto := repeat (pres_step stable_known).

Lemma stable_dispatch r : pres I (dispatch r).
Proof. unfold dispatch. stable_auto. Qed.
Hint Resolve stable_dispatch : stable.

Lemma stable_dispatch_next : pres I dispatch_next.
Proof.
  intros w Hw. unfold dispatch_next. destruct (output w) as [[|r q]|]; try exact Hw.
  apply (stable_dispatch r). exact Hw.
Qed.
Hint Resolve stable_dispatch_next : stable.

Lemma stable_dispatcher_run k : pres I (dispatcher_run k).
Proof. induction k; cbn [dispatcher_run]; stable_auto. Qed.
Hint Resolve stable_dispatcher_run : stable.

Lemma stable_dispatcher_drain : pres I dispatcher_drain.
Proof.
  intros w Hw. unfold dispatcher_drain. destruct (output w); [|exact Hw].
  apply stable_dispatcher_run. exact Hw.
Qed.
Hint Resolve stable_dispatcher_drain : stable.

Lemma stable_yield : pres I yield.
Proof.
  intros w Hw. unfold yield. destruct (sched w); [exact Hw|].
  apply stable_dispatcher_run. exact Hw.
Qed.
Hint Resolve stable_yield : stable.

Lemma stable_Writer_err e : pres I (Writer_err e).
Proof. unfold Writer_err. stable_auto. Qed.
Hint Resolve stable_Writer_err : stable.

Lemma stable_push r :
  pres I (modify (fun w => match output w with
                           | Some q' => set_output (Some (q' ++ [r])) w
                           | None => w
                           end)).
Proof. apply pres_modify. intros w Hw. destruct (output w); exact Hw. Qed.
Hint Resolve stable_push : stable.

Lemma stable_send r : pres I (send r).
Proof. unfold send. stable_auto. Qed.
Hint Resolve stable_send : stable.

Lemma stable_send_wait r : pres I (send_wait r).
Proof. unfold send_wait. stable_auto. Qed.
Hint Resolve stable_send_wait : stable.

Lemma stable_queue_header : pres I queue_header.
Proof. unfold queue_header. stable_auto. Qed.
Hint Resolve stable_queue_header : stable.

Lemma stable_writeSync_loop f : forall p nRet, pres I (writeSync_loop f p nRet).
Proof.
  induction f as [|f IH]; intros p nRet; cbn [writeSync_loop]; stable_auto.
Qed.
Hint Resolve stable_writeSync_loop : stable.

Lemma stable_writeSync p : pres I (writeSync p).
Proof. unfold writeSync. stable_auto. Qed.
Hint Resolve stable_writeSync : stable.

Lemma stable_write_loop f : forall p nRet, pres I (write_loop f p nRet).
Proof.
  induction f as [|f IH]; intros p nRet; cbn [write_loop]; stable_auto.
Qed.
Hint Resolve stable_write_loop : stable.

Lemma stable_write p : pres I (write p).
Proof. unfold write. stable_auto. Qed.
Hint Resolve stable_write : stable.

Lemma stable_AsyncFlush : pres I AsyncFlush.
Proof. unfold AsyncFlush. stable_auto. Qed.
Hint Resolve stable_AsyncFlush : stable.

Lemma stable_Flush : pres I Flush.
Proof. unfold Flush. stable_auto. Qed.
Hint Resolve stable_Flush : stable.

Lemma stable_close_output : pres I close_output.
Proof. unfold close_output. stable_auto. Qed.
Hint Resolve stable_close_output : stable.

Lemma stable_closeIndex_return ix : pres I (closeIndex_return ix).
Proof. unfold closeIndex_return. stable_auto. Qed.
Hint Resolve stable_closeIndex_return : stable.

Lemma stable_closeIndex idx : pres I (closeIndex idx).
Proof. unfold closeIndex. stable_auto. Qed.

End Stable.

(** * One block through either path *)

Section Sync.
Context {E : Env}.

Lemma dispatcher_run_idle k w : output w = None -> dispatcher_run k w = Val (tt, w).
Proof.
  intros H. induction k as [|k IH]; [reflexivity|].
  cbn [dispatcher_run]. unfold bind. unfold dispatch_next at 1. rewrite H. exact IH.
Qed.

Lemma yield_idle w : output w = None -> yield w = Val (tt, set_sched (tl (sched w)) w).
Proof.
  intros H. unfold yield. destruct w as [c es ib ic wr uw o wri rs ix wsh sl pl sc].
  cbn in *. subst o. destruct sc as [|k sc]; [reflexivity|].
  apply dispatcher_run_idle. reflexivity.
Qed.

Lemma Writer_err_idle e w :
  output w = None -> Writer_err e w = err_cell e (set_sched (tl (sched w)) w).
Proof.
  intros H. unfold Writer_err, bind. rewrite yield_idle by exact H. reflexivity.
Qed.

Lemma len_next_buffer w : 0 <= obufLen (cfg w) -> len (next_buffer w) = obufLen (cfg w).
Proof.
  intros H. unfold next_buffer. destruct (pool w) as [|x rest].
  - rewrite len_repeat. lia.
  - rewrite len_app, len_take, len_repeat by lia. pose proof (len_nonneg x). lia.
Qed.

Lemma buffers_Get_next w :
  0 <= obufLen (cfg w) ->
  buffers_Get w = Val (next_buffer w, set_pool (tl (pool w)) w).
Proof.
  intros H. unfold buffers_Get, next_buffer.
  destruct (Z.ltb_spec (obufLen (cfg w)) 0); [lia|].
  destruct w as [c es ib ic wr uw o wri rs ix wsh sl pl sc]; cbn in *.
  destruct pl; reflexivity.
Qed.

Lemma reslice_all s n : len s = n -> reslice s n = Val s.
Proof.
  intros H. unfold reslice. pose proof (len_nonneg s).
  destruct (Z.ltb_spec n 0); [lia|]. destruct (Z.ltb_spec (len s) n); [lia|].
  cbn [orb]. rewrite take_all by lia. reflexivity.
Qed.

Lemma writeSync_loop_nil f nRet w : writeSync_loop f [] nRet w = Val ((nRet, None), w).
Proof. destruct f; reflexivity. Qed.

Lemma writeSync_loop_block f src nRet w s :
  obufHeaderLen = 8 ->
  0 <= chunkTypeUncompressedData < 256 ->
  uint8 chunkTypeMinLZCompressedData <> chunkTypeUncompressedData ->
  output w = None ->
  writer w = Some s ->
  (forall log d, s log d = (len d, None)) ->
  18 <= obufLen (cfg w) ->
  0 < len src <= blockSize (cfg w) ->
  fst (block_encoded (cfg w) (next_buffer w) src) <= len (block_dst (next_buffer w) src) ->
  exists w',
    writeSync_loop (S f) src nRet w = Val ((nRet + len src, None), w') /\
    sinkLog w' = sinkLog w ++
      (if 0 <? fst (block_encoded (cfg w) (next_buffer w) src)
       then [block_chunk (cfg w) (next_buffer w) src]
       else [take 8 (block_chunk (cfg w) (next_buffer w) src); src]).
Proof.
  intros Hh Hu Hne Hout Hwr Hs Hob Hsrc Hfit.
  cbn [writeSync_loop].
  destruct (Z.ltb_spec 0 (len src)); [|lia].
  unfold bind at 1. cbn [get].
  unfold bind at 1. unfold cut_block.
  destruct (Z.ltb_spec (blockSize (cfg w)) (len src)); [lia|]. cbn [lift].
  unfold bind at 1. rewrite buffers_Get_next by lia.
  set (obuf := next_buffer w) in *.
  assert (Hlo : len obuf = obufLen (cfg w)) by (apply len_next_buffer; lia).
  unfold bind at 1. rewrite reslice_all by exact Hlo. cbn [lift].
  unfold bind at 1. rewrite writeSync_job_chunk by (try exact Hh; try exact Hfit; lia).
  set (ch := block_chunk (cfg w) obuf src) in *.
  set (n2 := fst (block_encoded (cfg w) obuf src)) in *.
  destruct w as [c es ib ic wr uw o wri rs ix wsh sl pl sc].
  proj. subst o wri.
  destruct (0 <? n2) eqn:Hn2; cbn [lift].
  - unfold bind at 1. unfold writer_Write. proj. rewrite Hs.
    rewrite Z.eqb_refl. cbn [negb].
    unfold bind at 1. cbn [get]. proj.
    unfold bind at 1. unfold Index_add. proj.
    destruct ix as [ix|]; [destruct (index_add ix wr uw) as [ix' ie]|];
      (unfold bind at 1; rewrite Writer_err_idle by reflexivity; proj;
       unfold err_cell; proj;
       destruct (Z.eqb_spec (uint8 chunkTypeMinLZCompressedData) chunkTypeUncompressedData);
         [contradiction|];
       destruct es; try destruct ie; cbn [bind add_written add_uncompWritten modify];
       rewrite writeSync_loop_nil;
       eexists; (split; [reflexivity|reflexivity])).
  - unfold bind at 1. unfold writer_Write. proj. rewrite Hs.
    rewrite Z.eqb_refl. cbn [negb].
    unfold bind at 1. cbn [get]. proj.
    unfold bind at 1. unfold Index_add. proj.
    rewrite (uint8_small chunkTypeUncompressedData) by lia.
    destruct ix as [ix|]; [destruct (index_add ix wr uw) as [ix' ie]|];
      (unfold bind at 1; rewrite Writer_err_idle by reflexivity; proj;
       unfold err_cell; proj;
       destruct es; try destruct ie;
       cbn [bind add_written add_uncompWritten modify];
       rewrite Z.eqb_refl; unfold bind at 1; proj; rewrite Hs;
       rewrite Z.eqb_refl; cbn [negb bind add_written modify];
       rewrite writeSync_loop_nil;
       eexists; (split; [reflexivity|]); proj; rewrite <- app_assoc; reflexivity).
Qed.

(** ** The dispatcher always returns when there is a sink *)

Lemma dispatch_total r w s :
  writer w = Some s ->
  exists w', dispatch r w = Val (tt, w') /\ front w' = front w /\
             sched w' = sched w /\ output w' = output w.
Proof.
  intros Hw. unfold dispatch.
  destruct (0 <? len (b r)); [|exists w; auto].
  destruct w as [c es ib ic wr uw o wri rs ix wsh sl pl sc]. proj. subst wri.
  unfold bind at 1. unfold err_cell at 1. proj.
  destruct es as [e|]; [eexists; split; [reflexivity|auto]|].
  unfold bind at 1. unfold writer_Write. proj.
  destruct (s sl (b r)) as [n err].
  unfold bind at 1. unfold err_cell at 1. proj.
  set (err' := match err with
               | Some _ => err
               | None => if n =? len (b r) then None else Some ErrShortBuffer
               end).
  unfold bind at 1. cbn [get].
  unfold bind at 1. unfold Index_add.
  destruct err' as [e'|]; proj;
    (destruct ix as [ix|]; [destruct (index_add ix wr (startOffset r)) as [ix' ie]|]);
    unfold bind at 1; unfold err_cell; proj; try destruct ie;
    cbn [modify]; eexists; (split; [reflexivity|]); auto.
Qed.

Lemma dispatch_next_total w s :
  writer w = Some s ->
  exists w', dispatch_next w = Val (tt, w') /\ front w' = front w /\
             sched w' = sched w /\ is_nil (output w') = is_nil (output w).
Proof.
  intros Hw. unfold dispatch_next. destruct (output w) as [[|r q]|] eqn:Ho.
  - exists w. rewrite Ho. auto.
  - destruct (dispatch_total r (set_output (Some q) w) s Hw) as (w' & -> & F & S & O).
    exists w'. split; [reflexivity|]. split; [exact F|]. split; [exact S|].
    rewrite O. reflexivity.
  - exists w. rewrite Ho. auto.
Qed.

Lemma front_writer w w' : front w' = front w -> writer w' = writer w.
Proof. unfold front. intros H. injection H. auto. Qed.

Lemma dispatcher_run_total k : forall w s,
  writer w = Some s ->
  exists w', dispatcher_run k w = Val (tt, w') /\ front w' = front w /\
             sched w' = sched w /\ is_nil (output w') = is_nil (output w).
Proof.
  induction k as [|k IH]; intros w s Hw.
  - exists w. auto.
  - cbn [dispatcher_run]. unfold bind.
    destruct (dispatch_next_total w s Hw) as (w1 & -> & F1 & S1 & O1).
    destruct (IH w1 s) as (w2 & -> & F2 & S2 & O2).
    + rewrite (front_writer _ _ F1). exact Hw.
    + exists w2. split; [reflexivity|]. repeat split; congruence.
Qed.

Lemma yield_total w s :
  writer w = Some s ->
  exists w', yield w = Val (tt, w') /\ front w' = front w /\
             is_nil (output w') = is_nil (output w).
Proof.
  intros Hw. unfold yield. destruct (sched w) as [|k sc] eqn:Hs.
  - exists w. auto.
  - destruct (dispatcher_run_total k (set_sched sc w) s Hw) as (w' & -> & F & _ & O).
    exists w'. auto.
Qed.

Lemma send_total r w s :
  writer w = Some s ->
  is_nil (output w) = false ->
  exists w' q', send r w = Val (tt, w') /\ front w' = front w /\
                output w' = Some (q' ++ [r]).
Proof.
  intros Hw Ho. unfold send.
  unfold bind at 1. destruct (yield_total w s Hw) as (w1 & -> & F1 & O1).
  unfold bind at 1. cbn [get].
  destruct (output w1) as [q1|] eqn:Ho1; [|rewrite Ho in O1; discriminate].
  unfold bind at 1.
  destruct (dispatcher_run_total (Z.to_nat (len q1 - concurrency (cfg w1))) w1 s)
    as (w2 & -> & F2 & _ & O2).
  { rewrite (front_writer _ _ F1). exact Hw. }
  cbn [modify]. cbv beta. rewrite Ho1 in O2.
  destruct (output w2) as [q2|] eqn:Ho2; [|discriminate].
  eexists. exists q2. split; [reflexivity|]. split.
  - rewrite Ho2. unfold front in *. proj. congruence.
  - rewrite Ho2. reflexivity.
Qed.

Lemma write_loop_nil f nRet w : write_loop f [] nRet w = Val ((nRet, None), w).
Proof. destruct f; reflexivity. Qed.

Lemma write_loop_block f src nRet w s :
  obufHeaderLen = 8 ->
  wroteStreamHeader w = true ->
  writer w = Some s ->
  is_nil (output w) = false ->
  18 <= obufLen (cfg w) ->
  0 < len src <= blockSize (cfg w) ->
  len src + 8 <= obufLen (cfg w) ->
  fst (block_encoded (cfg w) (second_buffer w) src)
    <= len (block_dst (second_buffer w) src) ->
  exists w' q',
    write_loop (S f) src nRet w = Val ((nRet + len src, None), w') /\
    output w' =
      Some (q' ++ [{| b := block_chunk (cfg w) (second_buffer w) src;
                      startOffset := uncompWritten w |}]).
Proof.
  intros Hh Hwsh Hwr Hout Hob Hsrc Hroom Hfit.
  cbn [write_loop].
  destruct (Z.ltb_spec 0 (len src)); [|lia].
  unfold bind at 1. unfold queue_header. unfold bind at 1. cbn [get]. rewrite Hwsh.
  cbn [negb ret].
  unfold bind at 1. cbn [get].
  unfold bind at 1. unfold cut_block.
  destruct (Z.ltb_spec (blockSize (cfg w)) (len src)); [lia|]. cbn [lift].
  unfold bind at 1. rewrite buffers_Get_next by lia.
  set (inbuf0 := next_buffer w).
  assert (Hl0 : len inbuf0 = obufLen (cfg w)) by (apply len_next_buffer; lia).
  unfold bind at 1. unfold reslice at 1. rewrite Hh.
  destruct (Z.ltb_spec (len src + 8) 0); [lia|].
  destruct (Z.ltb_spec (len inbuf0) (len src + 8)); [lia|].
  cbn [orb lift].
  unfold bind at 1. rewrite buffers_Get_next by (proj; lia).
  fold (second_buffer w). set (obuf := second_buffer w) in *.
  assert (Hlo : len obuf = obufLen (cfg w)).
  { unfold obuf, second_buffer. rewrite len_next_buffer; proj; [reflexivity|lia]. }
  unfold bind at 1. rewrite reslice_all by exact Hlo. cbn [lift].
  assert (Hl1 : len (take (len src + 8) inbuf0) = len src + 8)
    by (rewrite len_take by lia; lia).
  unfold bind at 1. unfold slice_from.
  destruct (Z.ltb_spec 8 0); [lia|].
  destruct (Z.ltb_spec (len (take (len src + 8) inbuf0)) 8); [lia|].
  cbn [orb lift].
  assert (Hin : copy_at (take (len src + 8) inbuf0) 8 src
                = take 8 (take (len src + 8) inbuf0) ++ src).
  { rewrite copy_at_inside by lia. rewrite (drop_all (8 + len src)) by lia.
    rewrite app_nil_r. reflexivity. }
  rewrite Hin.
  assert (Hl8 : len (take 8 (take (len src + 8) inbuf0)) = 8)
    by (rewrite len_take by lia; lia).
  rewrite (drop_app_exact 8) by exact Hl8.
  unfold bind at 1.
  rewrite write_job_chunk; try assumption; try lia.
  2:{ rewrite len_app. lia. }
  2:{ apply drop_app_exact. exact Hl8. }
  cbn [lift].
  unfold bind at 1.
  destruct (send_total {| b := block_chunk (cfg w) obuf src; startOffset := uncompWritten w |}
              (set_pool (tl (pool (set_pool (tl (pool w)) w))) (set_pool (tl (pool w)) w)) s)
    as (w3 & q3 & Hsend & F3 & O3); [exact Hwr|exact Hout|].
  rewrite Hsend.
  unfold bind at 1. cbn [add_uncompWritten modify].
  rewrite write_loop_nil.
  eexists. exists q3. split; [reflexivity|]. proj. exact O3.
Qed.

(** ** What the dispatcher does with one slot *)

Lemma dispatch_writes r w s :
  errState w = None ->
  writer w = Some s ->
  0 < len (b r) ->
  exists w', dispatch r w = Val (tt, w') /\
             sinkLog w' = sinkLog w ++ [b r] /\
             written w' = int64 (written w + fst (s (sinkLog w) (b r))) /\
             (errState w' = None ->
              s (sinkLog w) (b r) = (len (b r), None)) /\
             (snd (s (sinkLog w) (b r)) = None ->
              fst (s (sinkLog w) (b r)) <> len (b r) ->
              errState w' = Some ErrShortBuffer).
Proof.
  intros He Hw Hl. unfold dispatch.
  destruct (Z.ltb_spec 0 (len (b r))); [|lia].
  destruct w as [c es ib ic wr uw o wri rs ix wsh sl pl sc]. proj. subst wri es.
  unfold bind at 1. unfold err_cell at 1. proj.
  unfold bind at 1. unfold writer_Write. proj.
  destruct (s sl (b r)) as [n err]. cbn [fst snd].
  unfold bind at 1. unfold err_cell at 1. proj.
  unfold bind at 1. cbn [get].
  unfold bind at 1. unfold Index_add.
  destruct err as [e'|]; [|destruct (Z.eqb_spec n (len (b r)))]; proj;
    (destruct ix as [ix|]; [destruct (index_add ix wr (startOffset r)) as [ix' ie]|]);
    unfold bind at 1; unfold err_cell; proj; try destruct ie;
    cbn [modify]; eexists; (split; [reflexivity|]); proj;
    repeat split; try reflexivity; try congruence; intros; try discriminate; try congruence.
Qed.

End Sync.

(** * Frame lemmas *)

Create HintDb frame.

Section DispatcherFrame.
Context {E : Env}.

(** ** What survives the dispatcher goroutine

    [I] is kept by one round of the dispatcher, by a step of the
    schedule and by setting the error cell. *)

Variable I : Writer -> Prop.
Hypothesis I_next : pres I dispatch_next.
Hypothesis I_sched : forall v w, I w -> I (set_sched v w).
Hypothesis I_errState :
  forall e w, I w -> errState w = None -> I (set_errState (Some e) w).

Lemma keeps_err_cell e : pres I (err_cell e).
Proof.
  intros w Hw. unfold err_cell. destruct (errState w) eqn:He; [exact Hw|].
  destruct e; [|exact Hw]. apply I_errState; assumption.
Qed.

Lemma keeps_dispatcher_run k : pres I (dispatcher_run k).
Proof.
  induction k as [|k IH]; cbn [dispatcher_run].
  - apply pres_ret.
  - apply pres_bind; [exact I_next|]. intros _u. exact IH.
Qed.

Lemma keeps_dispatcher_drain : pres I dispatcher_drain.
Proof.
  intros w Hw. unfold dispatcher_drain. destruct (output w); [|exact Hw].
  apply keeps_dispatcher_run. exact Hw.
Qed.

Lemma keeps_yield : pres I yield.
Proof.
  intros w Hw. unfold yield. destruct (sched w); [exact Hw|].
  apply keeps_dispatcher_run. apply I_sched. exact Hw.
Qed.

Lemma keeps_Writer_err e : pres I (Writer_err e).
Proof.
  unfold Writer_err. apply pres_bind; [exact keeps_yield|].
  intros _u. apply keeps_err_cell.
Qed.

Lemma keeps_closeIndex_return ix : pres I (closeIndex_return ix).
Proof.
  unfold closeIndex_return. apply pres_bind; [apply keeps_Writer_err|].
  intros e. destruct e as [e|]; [destruct e|]; apply pres_ret.
Qed.

End DispatcherFrame.

Section Frame.
Context {E : Env}.

(** ** What survives the dispatcher and the error cell

    [I] is any property that the updates made by the dispatcher, by
    [Writer.err] and by a write to the sink leave alone. *)

Variable I : Writer -> Prop.
Hypothesis I_sinkLog : forall d w, I w -> I (set_sinkLog (sinkLog w ++ [d]) w).
Hypothesis I_written : forall v w, I w -> I (set_written v w).
Hypothesis I_sched : forall v w, I w -> I (set_sched v w).
Hypothesis I_index :
  forall v w, I w -> is_nil (index w) = false -> I (set_index (Some v) w).
Hypothesis I_output :
  forall q w, I w -> is_nil (output w) = false -> I (set_output (Some q) w).
Hypothesis I_errState :
  forall e w, I w -> errState w = None -> I (set_errState (Some e) w).

Lemma frame_err_cell e : pres I (err_cell e).
Proof.
  intros w Hw. unfold err_cell. destruct (errState w) eqn:He; [exact Hw|].
  destruct e; [|exact Hw]. apply I_errState; assumption.
Qed.

Lemma frame_writer_Write d : pres I (writer_Write d).
Proof.
  intros w Hw. unfold writer_Write. destruct (writer w); [|exact Logic.I].
  apply I_sinkLog. exact Hw.
Qed.

Lemma frame_Index_add c u : pres I (Index_add c u).
Proof.
  intros w Hw. unfold Index_add. destruct (index w) eqn:Hi; [|exact Hw].
  destruct (index_add i c u) as [ix' e]. apply I_index; [exact Hw|].
  rewrite Hi. reflexivity.
Qed.

Lemma frame_add_written n : pres I (add_written n).
Proof. unfold add_written. apply pres_modify. intros w Hw. apply I_written. exact Hw. Qed.

Hint Resolve frame_err_cell frame_writer_Write frame_Index_add frame_add_written : frame.

Ltac frame_known :=
  first [ solve [auto with frame]
        | apply pres_modify; intros ? ?; solve [auto] ].
Ltac frame_auto := repeat (pres_step frame_known).

Lemma frame_dispatch r : pres I (dispatch r).
Proof. unfold dispatch. frame_auto. Qed.
Hint Resolve frame_dispatch : frame.

Lemma frame_dispatch_next : pres I dispatch_next.
Proof.
  intros w Hw. unfold dispatch_next. destruct (output w) as [[|r q]|] eqn:Ho; try exact Hw.
  apply (frame_dispatch r). apply I_output; [exact Hw|]. rewrite Ho. reflexivity.
Qed.
Hint Resolve frame_dispatch_next : frame.

Lemma frame_dispatcher_run k : pres I (dispatcher_run k).
Proof. induction k; cbn [dispatcher_run]; frame_auto. Qed.
Hint Resolve frame_dispatcher_run : frame.

Lemma frame_dispatcher_drain : pres I dispatcher_drain.
Proof.
  intros w Hw. unfold dispatcher_drain. destruct (output w); [|exact Hw].
  apply frame_dispatcher_run. exact Hw.
Qed.
Hint Resolve frame_dispatcher_drain : frame.

Lemma frame_yield : pres I yield.
Proof.
  intros w Hw. unfold yield. destruct (sched w); [exact Hw|].
  apply frame_dispatcher_run. apply I_sched. exact Hw.
Qed.
Hint Resolve frame_yield : frame.

Lemma frame_Writer_err e : pres I (Writer_err e).
Proof. unfold Writer_err. frame_auto. Qed.
Hint Resolve frame_Writer_err : frame.

Lemma frame_push r :
  pres I (modify (fun w => match output w with
                           | Some q' => set_output (Some (q' ++ [r])) w
                           | None => w
                           end)).
Proof.
  apply pres_modify. intros w Hw. destruct (output w) eqn:Ho; [|exact Hw].
  apply I_output; [exact Hw|]. rewrite Ho. reflexivity.
Qed.
Hint Resolve frame_push : frame.

Lemma frame_send r : pres I (send r).
Proof. unfold send. frame_auto. Qed.

Lemma frame_send_wait r : pres I (send_wait r).
Proof. unfold send_wait. frame_auto. Qed.

Lemma frame_closeIndex_return ix : pres I (closeIndex_return ix).
Proof. unfold closeIndex_return. frame_auto. Qed.

End Frame.

Section CellValue.
Context {E : Env}.

(** [Writer.err] returns what the cell holds when it returns. *)
Lemma err_cell_value e (P : Writer -> Prop) :
  pres P (err_cell e) ->
  hoare P (err_cell e)
    (fun r w => r = errState w /\ P w /\ (e <> None -> r <> None)).
Proof.
  intros HP w Hw. specialize (HP w Hw). revert HP. unfold err_cell.
  destruct (errState w) as [s|] eqn:He.
  - intros HP. rewrite He. repeat split; auto; discriminate.
  - destruct e as [e|]; intros HP.
    + repeat split; auto; discriminate.
    + rewrite He. repeat split; auto.
Qed.

Lemma Writer_err_value e (P : Writer -> Prop) :
  pres P yield -> pres P (err_cell e) ->
  hoare P (Writer_err e)
    (fun r w => r = errState w /\ P w /\ (e <> None -> r <> None)).
Proof.
  intros Hy Hc. unfold Writer_err. eapply hoare_bind; [exact Hy|].
  intros u. apply (err_cell_value e P). exact Hc.
Qed.

End CellValue.

(** * What [closeIndex] leaves *)

Lemma hoare_seq {A B} (I : Writer -> Prop) (m : M A) (k : A -> M B)
  (R : B -> Writer -> Prop) :
  pres I m -> (forall a, hoare I (k a) R) -> hoare I (bind m k) R.
Proof. intros Hm Hk. eapply hoare_bind; [exact Hm|exact Hk]. Qed.

Lemma hoare_any {A} (P : Writer -> Prop) (m : M A) :
  hoare P m (fun _ _ => True).
Proof. intros w _. destruct (m w) as [[a w']| |]; exact I. Qed.

Lemma len_0_nil {A} (l : list A) : len l = 0 -> l = [].
Proof. destruct l; [reflexivity|]. rewrite len_cons. pose proof (len_nonneg l). lia. Qed.

Create HintDb closing.

Section Closing.
Context {E : Env}.

(** ** [flushed] and [ibuf = []] survive the dispatcher *)

Ltac frame_hyps :=
  unfold flushed, closed_with; intros; proj;
  repeat match goal with H : _ /\ _ |- _ => destruct H end;
  cbn [is_nil] in *;
  try match goal with
      | H : output ?w = None, H' : is_nil (output ?w) = false |- _ =>
          rewrite H in H'; discriminate
      end;
  try solve [ auto | discriminate | congruence
            | split; first [assumption | congruence | reflexivity] ].

Lemma flushed_Writer_err e : pres flushed (Writer_err e).
Proof. apply frame_Writer_err; frame_hyps. Qed.

Lemma flushed_send_wait r : pres flushed (send_wait r).
Proof. apply frame_send_wait; frame_hyps. Qed.

Lemma flushed_dispatcher_drain : pres flushed dispatcher_drain.
Proof. apply frame_dispatcher_drain; frame_hyps. Qed.

Lemma empty_Writer_err e : pres (fun w => ibuf w = []) (Writer_err e).
Proof. apply frame_Writer_err; frame_hyps. Qed.

Lemma empty_flushed {A} (m : M A) :
  pres (fun w => ibuf w = []) m -> hoare (fun w => ibuf w = []) m (fun _ => flushed).
Proof.
  intros H. eapply hoare_weaken; [exact H|auto|]. intros a w Hw _. exact Hw.
Qed.

Lemma AsyncFlush_flushed : hoare (fun _ => True) AsyncFlush (fun _ => flushed).
Proof.
  unfold AsyncFlush.
  eapply hoare_bind.
  { apply (Writer_err_value None (fun _ => True)); intros w _;
      [destruct (yield w) as [[? ?]| |]|destruct (err_cell None w) as [[? ?]| |]]; exact I. }
  intros e. destruct e as [e|].
  - apply hoare_ret. intros w (He & _) Hn. congruence.
  - eapply hoare_bind with (Q := fun a w => a = w).
    { apply hoare_get. auto. }
    intros w0. destruct (negb (len (ibuf w0) =? 0)) eqn:Hl.
    + destruct (negb (wroteStreamHeader w0)).
      * eapply hoare_bind; [apply hoare_any|]. intros r.
        eapply hoare_bind with (Q := fun _ w => ibuf w = []).
        { apply hoare_modify. reflexivity. }
        intros _u. apply empty_flushed. apply empty_Writer_err.
      * eapply hoare_bind; [apply hoare_any|]. intros r.
        eapply hoare_bind with (Q := fun _ w => ibuf w = []).
        { apply hoare_modify. reflexivity. }
        intros _u. eapply hoare_bind; [apply empty_Writer_err|].
        intros e1. destruct e1.
        -- apply hoare_ret. intros w Hw _. exact Hw.
        -- apply empty_flushed. apply empty_Writer_err.
    + eapply hoare_weaken; [apply (empty_flushed (Writer_err None)), empty_Writer_err| |auto].
      intros w ->. apply len_0_nil.
      destruct (Z.eqb_spec (len (ibuf w)) 0); [assumption|discriminate].
Qed.

Lemma Flush_flushed : hoare (fun _ => True) Flush (fun _ => flushed).
Proof.
  unfold Flush. eapply hoare_bind; [apply AsyncFlush_flushed|].
  intros e. destruct e as [e|].
  - apply hoare_ret. auto.
  - eapply hoare_seq; [apply pres_get|]. intros w0.
    destruct (output w0).
    + eapply hoare_seq; [apply flushed_send_wait|]. intros _u.
      eapply hoare_seq; [apply flushed_dispatcher_drain|]. intros _v.
      apply flushed_Writer_err.
    + apply flushed_Writer_err.
Qed.

Lemma close_output_closed :
  hoare flushed close_output (fun _ w => flushed w /\ output w = None).
Proof.
  unfold close_output.
  eapply hoare_bind with (Q := fun a w => a = w /\ flushed w).
  { apply hoare_get. auto. }
  intros w0. destruct (output w0) eqn:Ho.
  - eapply hoare_bind with (Q := fun _ => flushed).
    + eapply hoare_weaken; [apply flushed_dispatcher_drain| |auto]. intros w [_ H]. exact H.
    + intros _u. apply hoare_modify. intros w Hw. split; [exact Hw|reflexivity].
  - apply hoare_ret. intros w [-> Hw]. auto.
Qed.

(** ** The tail of [closeIndex] *)

Variable n : bool.
Let G : Writer -> Prop := closed_with n.

Ltac G_hyps := unfold G; frame_hyps.

Lemma G_Writer_err e : pres G (Writer_err e).
Proof. apply frame_Writer_err; G_hyps. Qed.

Lemma G_writer_Write d : pres G (writer_Write d).
Proof. apply frame_writer_Write; G_hyps. Qed.

Lemma G_add_written k : pres G (add_written k).
Proof. apply frame_add_written; G_hyps. Qed.

Hint Resolve G_Writer_err G_writer_Write G_add_written : closing.

Ltac G_known :=
  first [ solve [auto with closing]
        | apply pres_modify; intros ? H; exact H ].
Ltac G_auto := repeat (pres_step G_known).

Lemma closeIndex_return_tail ix : hoare G (closeIndex_return ix) (closed_tail n).
Proof.
  unfold closeIndex_return.
  eapply hoare_bind.
  { apply (Writer_err_value (Some errClosed) G).
    - apply frame_yield; G_hyps.
    - apply frame_err_cell; G_hyps. }
  intros e. destruct e as [e|].
  - destruct e; apply hoare_ret; intros w (He & HG & _);
      (split; [exact HG|]); (split; [congruence|]); cbn [snd]; intros; try discriminate; auto.
  - apply hoare_ret. intros w (_ & _ & Hne). exfalso. apply Hne; [discriminate|reflexivity].
Qed.

Lemma closeIndex_tail_pad (w0 : Writer) :
  hoare G
    (if 1 <? pad (cfg w0) then
       w3 <- get ;;
       add <- lift (calcSkippableFrame (written w3) (int64 (pad (cfg w3)))) ;;
       let '(frame, ferr, r') := skippableFrame [] add (randSrc w3) in
       modify (set_randSrc r') ;;;
       e3 <- Writer_err ferr ;;
       match e3 with
       | Some _ => ret e3
       | None =>
           r <- writer_Write frame ;;
           let '(n, err2) := r in
           let err2 := match err2 with
                       | None => if n =? len frame then None
                                 else Some ErrShortWrite
                       | Some _ => err2
                       end in
           add_written n ;;;
           Writer_err err2 ;;;
           ret None
       end
     else ret None)
    (fun stop w => G w /\ (stop <> None -> errState w <> None)).
Proof.
  destruct (1 <? pad (cfg w0)).
  2:{ apply hoare_ret. intros w Hw. split; [exact Hw|]. intros H. contradiction H. reflexivity. }
  eapply hoare_seq; [apply pres_get|]. intros w3.
  eapply hoare_seq; [apply pres_lift|]. intros add.
  destruct (skippableFrame [] add (randSrc w3)) as [[frame ferr] r'].
  eapply hoare_seq; [apply pres_modify; intros ? H; exact H|]. intros _u.
  eapply hoare_bind.
  { apply (Writer_err_value ferr G).
    - apply frame_yield; G_hyps.
    - apply frame_err_cell; G_hyps. }
  intros e3. destruct e3 as [e3|].
  - apply hoare_ret. intros w (He & HG & _). split; [exact HG|]. intros _. congruence.
  - eapply hoare_weaken with (P := G) (Q := fun stop w => G w /\ stop = None).
    + eapply hoare_seq; [apply G_writer_Write|]. intros [k err2].
      eapply hoare_seq; [apply G_add_written|]. intros _v.
      eapply hoare_seq; [apply G_Writer_err|]. intros _x.
      apply hoare_ret. auto.
    + intros w (_ & HG & _). exact HG.
    + intros stop w [HG ->]. split; [exact HG|]. intros H. contradiction H. reflexivity.
Qed.

Lemma closeIndex_tail (idx : bool) (err : option error) (w : Writer) :
  hoare G
    (e1 <- Writer_err err ;;
     (if is_nil e1 && negb (is_nil (writer w)) then
        w1 <- get ;;
        let vb := uvarint (uint64 (uncompWritten w1)) in
        let n := len vb in
        let tmp := [chunkTypeEOF; uint8 n; 0; 0] ++ vb in
        r <- writer_Write tmp ;;
        Writer_err (snd r) ;;;
        add_written (n + 4)
      else ret tt) ;;;
     e2 <- Writer_err err ;;
     if is_nil e2 && negb (is_nil (writer w)) then
       index <- (if idx then
                   w2 <- get ;;
                   let compSize := if pad (cfg w2) <=? 1 then written w2 else (-1) in
                   let index := Index_appendTo (index w2) [] (uncompWritten w2) compSize in
                   (if appendIndex (cfg w2) then add_written (len index) else ret tt) ;;;
                   ret index
                 else ret []) ;;
       stop <- (if 1 <? pad (cfg w) then
                  w3 <- get ;;
                  add <- lift (calcSkippableFrame (written w3) (int64 (pad (cfg w3)))) ;;
                  let '(frame, ferr, r') := skippableFrame [] add (randSrc w3) in
                  modify (set_randSrc r') ;;;
                  e3 <- Writer_err ferr ;;
                  match e3 with
                  | Some _ => ret e3
                  | None =>
                      r <- writer_Write frame ;;
                      let '(n, err2) := r in
                      let err2 := match err2 with
                                  | None => if n =? len frame then None
                                            else Some ErrShortWrite
                                  | Some _ => err2
                                  end in
                      add_written n ;;;
                      Writer_err err2 ;;;
                      ret None
                  end
                else ret None) ;;
       match stop with
       | Some _ => ret ([], stop)
       | None =>
           (if (0 <? len index) && appendIndex (cfg w) then
              r <- writer_Write index ;;
              let '(n, err2) := r in
              let err2 := match err2 with
                          | None => if n =? len index then None
                                    else Some ErrShortWrite
                          | Some _ => err2
                          end in
              Writer_err err2 ;;;
              ret tt
            else ret tt) ;;;
           closeIndex_return index
       end
     else closeIndex_return [])
    (closed_tail n).
Proof.
  eapply hoare_seq; [apply G_Writer_err|]. intros e1.
  eapply hoare_seq; [G_auto|]. intros _u.
  eapply hoare_seq; [apply G_Writer_err|]. intros e2.
  destruct (is_nil e2 && negb (is_nil (writer w))); [|apply closeIndex_return_tail].
  eapply hoare_seq; [G_auto|]. intros index.
  eapply hoare_bind; [apply closeIndex_tail_pad|].
  intros stop. destruct stop as [e|].
  - apply hoare_ret. intros w' (HG & Hs). split; [exact HG|]. split.
    + apply Hs. discriminate.
    + cbn [snd]. discriminate.
  - eapply hoare_weaken with (P := G) (Q := closed_tail n).
    + eapply hoare_seq; [G_auto|]. intros _v. apply closeIndex_return_tail.
    + intros w' [HG _]. exact HG.
    + auto.
Qed.

End Closing.

Section Closing2.
Context {E : Env}.

Lemma closeIndex_post idx :
  hoare (fun _ => True) (closeIndex idx) (closed_post idx).
Proof.
  unfold closeIndex.
  eapply hoare_bind; [apply Flush_flushed|]. intros err.
  eapply hoare_bind; [apply close_output_closed|]. intros _u.
  eapply hoare_bind with (Q := fun a w => a = w /\ flushed w /\ output w = None).
  { apply hoare_get. auto. }
  intros w0.
  destruct (idx && is_nil (index w0)) eqn:Hidx.
  - apply hoare_ret. intros w (-> & Hf & Ho). unfold closed_post.
    split; [exact Ho|]. split; [cbn [snd]; discriminate|].
    intros He. apply andb_prop in Hidx. destruct Hidx as [Hi Hn].
    split; [exact Hi|]. split; [|apply Hf; exact He].
    destruct (index w); [discriminate|reflexivity].
  - eapply hoare_weaken; [apply (closeIndex_tail (is_nil (index w0)) idx err w0)| |].
    + intros w (-> & Hf & Ho). split; [exact Ho|reflexivity].
    + intros r w ((Ho & Hi) & Hne & Hs).
      split; [exact Ho|]. split.
      * intros Hr. split; [apply Hs; exact Hr|]. rewrite Hi. exact Hidx.
      * intros He. contradiction.
Qed.

End Closing2.

(** * Closing twice *)

Section CloseTwice.
Context {E : Env}.

Lemma Writer_err_idle_clean x w :
  errState w = None -> output w = None ->
  Writer_err x w = Val (x, set_errState x (set_sched (tl (sched w)) w)).
Proof.
  intros He Ho. rewrite Writer_err_idle by exact Ho. unfold err_cell. proj.
  rewrite He. destruct x; [reflexivity|].
  destruct w; proj; subst; reflexivity.
Qed.

Lemma AsyncFlush_idle_empty w :
  errState w = None -> output w = None -> ibuf w = [] ->
  exists w', AsyncFlush w = Val (None, w') /\ quiet w w' /\ output w' = None.
Proof.
  intros He Ho Hb. unfold AsyncFlush.
  unfold bind at 1. rewrite Writer_err_idle_clean by assumption.
  unfold bind at 1. cbn [get]. proj. rewrite Hb.
  change (negb (len (@nil Z) =? 0)) with false. cbv iota.
  rewrite Writer_err_idle_clean by (proj; first [reflexivity|assumption]).
  eexists. split; [reflexivity|]. split; [|proj; exact Ho].
  split; [unfold same_fields; proj; repeat split; try reflexivity; congruence|].
  intros _. proj. exact Ho.
Qed.

Lemma Flush_idle_empty w :
  errState w = None -> output w = None -> ibuf w = [] ->
  exists w', Flush w = Val (None, w') /\ quiet w w' /\ output w' = None.
Proof.
  intros He Ho Hb. unfold Flush.
  destruct (AsyncFlush_idle_empty w He Ho Hb) as (w1 & Hrun & Q1 & O1).
  unfold bind at 1. rewrite Hrun.
  unfold bind at 1. cbn [get]. rewrite O1.
  rewrite Writer_err_idle_clean by (try exact O1; rewrite (quiet_errState _ _ Q1); exact He).
  eexists. split; [reflexivity|]. split; [|proj; exact O1].
  eapply quiet_trans; [exact Q1|].
  split; [unfold same_fields; proj; repeat split; try reflexivity|].
  - rewrite (quiet_errState _ _ Q1). congruence.
  - intros _. proj. exact O1.
Qed.

Lemma closeIndex_idle_no_index w :
  errState w = None -> output w = None -> index w = None -> ibuf w = [] ->
  exists e w', closeIndex true w = Val (([], Some e), w') /\ same_fields w w'.
Proof.
  intros He Ho Hi Hb. unfold closeIndex.
  destruct (Flush_idle_empty w He Ho Hb) as (w1 & Hrun & Q1 & O1).
  unfold bind at 1. rewrite Hrun.
  unfold bind at 1. unfold close_output. unfold bind at 1. cbn [get]. rewrite O1. cbn [ret].
  unfold bind at 1. cbn [get].
  assert (Hi1 : index w1 = None) by (destruct Q1 as [S _]; unfold same_fields in S; intuition congruence).
  rewrite Hi1. cbn [is_nil andb ret].
  eexists. eexists. split; [reflexivity|]. apply Q1.
Qed.

Lemma closeIndex_result idx w r w1 :
  closeIndex idx w = Val (r, w1) -> closed_post idx r w1 /\ stable w1 = stable w.
Proof.
  intros H. split.
  - pose proof (closeIndex_post idx w I) as P. rewrite H in P. exact P.
  - pose proof (stable_closeIndex (stable w) idx w eq_refl) as P. rewrite H in P. exact P.
Qed.

Lemma Close_closeIndex w e w1 :
  Close w = Val (e, w1) ->
  exists ix, closeIndex (appendIndex (cfg w)) w = Val ((ix, e), w1).
Proof.
  unfold Close. unfold bind at 1. cbn [get]. unfold bind at 1.
  destruct (closeIndex (appendIndex (cfg w)) w) as [[[ix e'] w']| |]; try discriminate.
  cbn [ret snd]. intros H. injection H as -> ->. exists ix. reflexivity.
Qed.

Lemma Close_again w w1 :
  Close w = Val (None, w1) ->
  exists w2, Close w1 = Val (None, w2) /\ same_fields w1 w2.
Proof.
  intros H. destruct (Close_closeIndex w None w1 H) as (ix & Hc).
  destruct (closeIndex_result _ _ _ _ Hc) as ((Ho & Hs & _) & Hst).
  specialize (Hs eq_refl). destruct Hs as (He & Hidx).
  assert (Hcfg : cfg w1 = cfg w) by (unfold stable in Hst; congruence).
  assert (exists e, errState w1 = Some e /\ (e = errClosed \/ e = errNilWriter)) as (e & Hee & Hcase).
  { destruct He as [He|He]; eauto. }
  destruct (closeIndex_latched (appendIndex (cfg w1)) w1 e Hee) as (w2 & Hrun & Hsf & _).
  exists w2. split; [|exact Hsf].
  unfold Close. unfold bind at 1. cbn [get]. unfold bind at 1. rewrite Hrun.
  unfold closeIndex_latched_result. rewrite Hcfg, Hidx.
  destruct Hcase as [-> | ->]; reflexivity.
Qed.

Lemma CloseIndex_again w r w1 :
  CloseIndex w = Val (r, w1) ->
  exists e2 w2, CloseIndex w1 = Val (([], e2), w2) /\ same_fields w1 w2.
Proof.
  unfold CloseIndex. intros H.
  destruct (closeIndex_result _ _ _ _ H) as ((Ho & _ & Hn) & _).
  destruct (errState w1) as [e|] eqn:He.
  - destruct (closeIndex_latched true w1 e He) as (w2 & Hrun & Hsf & _).
    rewrite Hrun. unfold closeIndex_latched_result.
    destruct (true && is_nil (index w1)); [eauto|].
    destruct e; eauto.
  - destruct (Hn eq_refl) as (_ & Hi & Hb).
    destruct (closeIndex_idle_no_index w1 He Ho Hi Hb) as (e & w2 & Hrun & Hsf).
    eauto.
Qed.

End CloseTwice.

(** * The first write to the sink *)

Section DispatchEffect.
Context {E : Env}.

(** What one round of the dispatcher does to the state: nothing but to
    the cell, the index and the counter, and one write when the payload is
    not empty and the cell is. *)
Lemma dispatch_effect r w :
  match dispatch r w with
  | Val (_, w') =>
      front w' = front w /\ output w' = output w /\
      ((sinkLog w' = sinkLog w /\ errState w' = errState w /\
        (0 < len (b r) -> errState w <> None))
       \/ (0 < len (b r) /\ errState w = None /\ sinkLog w' = sinkLog w ++ [b r]))
  | Panics _ => True
  | Diverges => True
  end.
Proof.
  unfold dispatch.
  destruct (Z.ltb_spec 0 (len (b r))) as [Hl|Hl].
  2:{ cbn [ret]. split; [reflexivity|]. split; [reflexivity|]. left.
      split; [reflexivity|]. split; [reflexivity|]. intros; lia. }
  destruct w as [c es ib ic wr uw o wri rs ix wsh sl pl sc].
  unfold bind at 1. unfold err_cell at 1. proj.
  destruct es as [e|].
  { cbn [ret]. split; [reflexivity|]. split; [reflexivity|]. left.
    split; [reflexivity|]. split; [reflexivity|]. intros _; discriminate. }
  unfold bind at 1. unfold writer_Write. proj.
  destruct wri as [s|]; [|exact I].
  destruct (s sl (b r)) as [k err].
  unfold bind at 1. unfold err_cell at 1. proj.
  set (err' := match err with
               | Some _ => err
               | None => if k =? len (b r) then None else Some ErrShortBuffer
               end).
  unfold bind at 1. cbn [get].
  unfold bind at 1. unfold Index_add.
  destruct err' as [e'|]; proj;
    (destruct ix as [ix|]; [destruct (index_add ix wr (startOffset r)) as [ix' ie]|]);
    unfold bind at 1; unfold err_cell; proj; try destruct ie;
    cbn [modify]; (split; [reflexivity|]); (split; [reflexivity|]);
    right; auto.
Qed.

Lemma front_fields w w' :
  front w' = front w ->
  cfg w' = cfg w /\ uncompWritten w' = uncompWritten w /\
  wroteStreamHeader w' = wroteStreamHeader w.
Proof. unfold front. intros H. injection H. auto. Qed.

Lemma pend_output w w' : output w' = output w -> pend w' = pend w.
Proof. unfold pend. intros ->. reflexivity. Qed.

Lemma makeHeader_nonempty bs : (0 <? len (makeHeader bs)) = true.
Proof.
  unfold makeHeader. cbv zeta. rewrite len_app.
  pose proof (len_nonneg magicChunk).
  pose proof (len_cons (uint8 (uint8 (bits_Len (uint64 (bs - 1))) - 10)) []).
  pose proof (len_nil (A:=Z)). apply Z.ltb_lt. lia.
Qed.

Variable c : Config.

(** ** One round of the dispatcher keeps the invariant *)

Lemma Inv_dispatch_next : pres (Inv c) dispatch_next.
Proof.
  intros w HI. pose proof HI as (Hc & H2 & H3 & H4). unfold dispatch_next.
  destruct (output w) as [[|r q]|] eqn:Ho; [exact HI| |exact HI].
  pose proof (dispatch_effect r (set_output (Some q) w)) as Heff.
  destruct (dispatch r (set_output (Some q) w)) as [[u w']| |]; try exact I.
  destruct Heff as (Hf & Hout & Hcase). proj.
  destruct (front_fields _ _ Hf) as (Hcfg & Hun & Hws). proj.
  assert (Hconc : concurrency c <> 1) by (intros H1; specialize (H2 H1); congruence).
  assert (Hpend : pend w' = filter (fun r => 0 <? len (b r)) q)
    by (unfold pend; rewrite Hout; reflexivity).
  assert (Hpw : pend w = filter (fun r => 0 <? len (b r)) (r :: q))
    by (unfold pend; rewrite Ho; reflexivity).
  cbn [filter] in Hpw.
  split; [congruence|]. split; [intros; contradiction|]. split.
  - intros Hf'. rewrite Hws in Hf'. destruct (H3 Hf') as (Hu0 & Hp0).
    split; [congruence|]. rewrite Hpend. rewrite Hp0 in Hpw.
    destruct (0 <? len (b r)); [discriminate|auto].
  - unfold first_ok in *. destruct Hcase as [(Hsl & Hes & Hne)|(Hl & Hes & Hsl)].
    + rewrite Hsl. destruct (sinkLog w) as [|first rest];
        [|rewrite Hws, Hes; exact H4].
      rewrite Hws. intros Hw'. specialize (H4 Hw').
      rewrite Hes. rewrite Hpend.
      destruct (Z.ltb_spec 0 (len (b r))) as [Hpos|Hnp].
      * left. apply Hne. exact Hpos.
      * rewrite Hpw in H4. exact H4.
    + rewrite Hsl. destruct (sinkLog w) as [|first rest].
      2:{ cbn [app]. destruct H4 as [H4|(_ & _ & H4)]; [left; exact H4|contradiction]. }
      cbn [app]. left.
      destruct (wroteStreamHeader w) eqn:Hw0.
      * destruct (H4 eq_refl) as [Hbad|(r0 & rest & Hp & Hb)]; [congruence|].
        rewrite Hpw in Hp. destruct (Z.ltb_spec 0 (len (b r))); [|lia].
        injection Hp as <- _. exact Hb.
      * destruct (H3 eq_refl) as (_ & Hp0). rewrite Hp0 in Hpw.
        destruct (Z.ltb_spec 0 (len (b r))); [discriminate|lia].
Qed.

Lemma InvT_dispatch_next : pres (InvT c) dispatch_next.
Proof.
  intros w HI. pose proof HI as (Hc & H2 & Hw & Hp & H4). unfold dispatch_next.
  destruct (output w) as [[|r q]|] eqn:Ho; [exact HI| |exact HI].
  assert (Hpw : pend w = filter (fun r => 0 <? len (b r)) (r :: q))
    by (unfold pend; rewrite Ho; reflexivity).
  cbn [filter] in Hpw. rewrite Hp in Hpw.
  unfold dispatch. destruct (0 <? len (b r)); [discriminate|].
  cbn [ret]. unfold InvT. proj.
  split; [exact Hc|]. split; [intros H1; specialize (H2 H1); congruence|].
  split; [exact Hw|]. split; [|exact H4].
  unfold pend. proj. auto.
Qed.

Lemma InvW_dispatch_next : pres (InvW c) dispatch_next.
Proof.
  intros w (HI & Hw). pose proof (Inv_dispatch_next w HI) as H.
  pose proof (stable_dispatch_next (stable w) w eq_refl) as Hs.
  assert (Hfr : match dispatch_next w with
                | Val (_, w') => wroteStreamHeader w' = wroteStreamHeader w
                | _ => True
                end).
  { unfold dispatch_next. destruct (output w) as [[|r q]|]; try reflexivity.
    pose proof (dispatch_effect r (set_output (Some q) w)) as Heff.
    destruct (dispatch r (set_output (Some q) w)) as [[u w']| |]; try exact I.
    destruct Heff as (Hf & _). apply front_fields in Hf. proj. apply Hf. }
  destruct (dispatch_next w) as [[u w']| |]; try exact I.
  split; [exact H|congruence].
Qed.

End DispatchEffect.

Lemma hoare_open {A} (P : Writer -> Prop) (m : M A) (Q : A -> Writer -> Prop) :
  (forall w0, P w0 -> hoare (fun w => w = w0) m Q) -> hoare P m Q.
Proof. intros H w Hw. exact (H w Hw w eq_refl). Qed.

Lemma hoare_get_at {B} w0 (k : Writer -> M B) (R : B -> Writer -> Prop) :
  hoare (fun w => w = w0) (k w0) R -> hoare (fun w => w = w0) (bind get k) R.
Proof. intros H w ->. unfold bind. cbn [get]. apply H. reflexivity. Qed.

Lemma hoare_at {A} (P : Writer -> Prop) w0 (m : M A) (Q : A -> Writer -> Prop) :
  P w0 -> hoare P m Q -> hoare (fun w => w = w0) m Q.
Proof. intros H0 H w ->. apply H. exact H0. Qed.

Lemma hoare_pre {A} (P P' : Writer -> Prop) (m : M A) (Q : A -> Writer -> Prop) :
  hoare P m Q -> (forall w, P' w -> P w) -> hoare P' m Q.
Proof. intros H HP. eapply hoare_weaken; [exact H|exact HP|auto]. Qed.

Lemma hoare_post {A} (P : Writer -> Prop) (m : M A) (Q Q' : A -> Writer -> Prop) :
  hoare P m Q -> (forall a w, Q a w -> Q' a w) -> hoare P m Q'.
Proof. intros H HQ. eapply hoare_weaken; [exact H|auto|exact HQ]. Qed.

Lemma hoare_pres {A} (I : Writer -> Prop) (m : M A) :
  pres I m -> hoare I m (fun _ => I).
Proof. intros H. exact H. Qed.

Create HintDb invl.
Create HintDb inv.
Create HintDb invc.

Section FirstWriteProofs.
Context {E : Env}.
Variable c : Config.

Ltac inv_unf := unfold InvL, InvC, InvW, InvT, Inv, first_ok, pend in *; proj.

Lemma dispatch_next_front w :
  match dispatch_next w with
  | Val (_, w') => front w' = front w /\ is_nil (output w') = is_nil (output w)
  | Panics _ => True
  | Diverges => True
  end.
Proof.
  unfold dispatch_next. destruct (output w) as [[|r q]|] eqn:Ho;
    try (rewrite Ho; split; reflexivity).
  pose proof (dispatch_effect r (set_output (Some q) w)) as Heff.
  destruct (dispatch r (set_output (Some q) w)) as [[u w']| |]; try exact I.
  destruct Heff as (Hf & Hout & _). proj. split; [exact Hf|].
  rewrite Hout. reflexivity.
Qed.

Lemma Inv_set_sched v w : Inv c w -> Inv c (set_sched v w).
Proof. inv_unf. auto. Qed.

Lemma Inv_set_errState e w : Inv c w -> Inv c (set_errState (Some e) w).
Proof.
  inv_unf. intros (H1 & H2 & H3 & H4).
  split; [exact H1|]. split; [exact H2|]. split; [exact H3|].
  destruct (sinkLog w).
  - intros _. left. discriminate.
  - destruct H4 as [H4|(Ha & Hb & _)]; [left; exact H4|].
    right. split; [exact Ha|]. split; [exact Hb|discriminate].
Qed.

Lemma Inv_set_pool v w : Inv c w -> Inv c (set_pool v w).
Proof. inv_unf. auto. Qed.

Lemma Inv_set_ibuf v w : Inv c w -> Inv c (set_ibuf v w).
Proof. inv_unf. auto. Qed.

(** ** The invariant with any property of the caller's fields *)

Section Fronted.
Variable F : Config * list Z * Z * Z * option Sink * Reader * bool * list (list Z) -> Prop.
Let IF (w : Writer) : Prop := Inv c w /\ F (front w).

Lemma IF_dispatch_next : pres IF dispatch_next.
Proof.
  intros w (HI & HF). pose proof (Inv_dispatch_next c w HI) as H1.
  pose proof (dispatch_next_front w) as H2.
  destruct (dispatch_next w) as [[u w']| |]; try exact I.
  split; [exact H1|]. destruct H2 as (-> & _). exact HF.
Qed.

Lemma IF_sched v w : IF w -> IF (set_sched v w).
Proof. intros (HI & HF). split; [apply Inv_set_sched; exact HI|exact HF]. Qed.

Lemma IF_errState e w : IF w -> errState w = None -> IF (set_errState (Some e) w).
Proof. intros (HI & HF) _. split; [apply Inv_set_errState; exact HI|exact HF]. Qed.

Lemma IF_err_cell e : pres IF (err_cell e).
Proof. apply keeps_err_cell. exact IF_errState. Qed.

Lemma IF_dispatcher_run k : pres IF (dispatcher_run k).
Proof. apply keeps_dispatcher_run. exact IF_dispatch_next. Qed.

Lemma IF_dispatcher_drain : pres IF dispatcher_drain.
Proof. apply keeps_dispatcher_drain. exact IF_dispatch_next. Qed.

Lemma IF_yield : pres IF yield.
Proof. apply keeps_yield; [exact IF_dispatch_next|exact IF_sched]. Qed.

Lemma IF_Writer_err e : pres IF (Writer_err e).
Proof.
  apply keeps_Writer_err; [exact IF_dispatch_next|exact IF_sched|exact IF_errState].
Qed.

Lemma IF_Writer_err_value e :
  hoare IF (Writer_err e)
    (fun r w => r = errState w /\ IF w /\ (e <> None -> r <> None)).
Proof. apply Writer_err_value; [exact IF_yield|apply IF_err_cell]. Qed.

End Fronted.

Lemma Inv_yield : pres (Inv c) yield.
Proof.
  intros w Hw. pose proof (IF_yield (fun _ => True) w (conj Hw Logic.I)) as H.
  destruct (yield w) as [[u w']| |]; auto. apply H.
Qed.

Lemma Inv_dispatcher_run k : pres (Inv c) (dispatcher_run k).
Proof. apply keeps_dispatcher_run. apply Inv_dispatch_next. Qed.

Lemma Inv_dispatcher_drain : pres (Inv c) dispatcher_drain.
Proof. apply keeps_dispatcher_drain. apply Inv_dispatch_next. Qed.

Lemma Inv_Writer_err e : pres (Inv c) (Writer_err e).
Proof.
  apply keeps_Writer_err;
    [apply Inv_dispatch_next|exact Inv_set_sched|intros; apply Inv_set_errState; assumption].
Qed.

Lemma Inv_Writer_err_value e :
  hoare (Inv c) (Writer_err e) (fun r w => r = errState w /\ Inv c w).
Proof.
  eapply hoare_post.
  - apply Writer_err_value; [exact Inv_yield|].
    apply keeps_err_cell. intros; apply Inv_set_errState; assumption.
  - intros a w (H1 & H2 & _). auto.
Qed.

Lemma Inv_buffers_Get : pres (Inv c) buffers_Get.
Proof.
  intros w Hw. unfold buffers_Get. destruct (obufLen (cfg w) <? 0); [exact I|].
  destruct (pool w); [exact Hw|]. apply Inv_set_pool. exact Hw.
Qed.

(** ** Once the header has been submitted *)

Lemma InvW_yield : pres (InvW c) yield.
Proof. exact (IF_yield (fun fr => snd (fst fr) = true)). Qed.

Lemma InvW_dispatcher_run k : pres (InvW c) (dispatcher_run k).
Proof. exact (IF_dispatcher_run (fun fr => snd (fst fr) = true) k). Qed.

Lemma InvW_Writer_err e : pres (InvW c) (Writer_err e).
Proof. exact (IF_Writer_err (fun fr => snd (fst fr) = true) e). Qed.

Lemma InvW_push r :
  pres (InvW c) (modify (fun w => match output w with
                                  | Some q' => set_output (Some (q' ++ [r])) w
                                  | None => w
                                  end)).
Proof.
  apply pres_modify. intros w HW. destruct (output w) as [q|] eqn:Ho; [|exact HW].
  destruct HW as ((H1 & H2 & H3 & H4) & Hw). split; [|exact Hw].
  inv_unf. rewrite Ho in *.
  split; [exact H1|]. split; [intros Hc; specialize (H2 Hc); discriminate|].
  split; [intros Hf; congruence|].
  destruct (sinkLog w); [|exact H4]. intros Ht.
  destruct (H4 Ht) as [He|(r0 & rest & Hp & Hb)]; [left; exact He|right].
  exists r0, (rest ++ filter (fun r => 0 <? len (b r)) [r]).
  rewrite filter_app, Hp. split; [reflexivity|exact Hb].
Qed.

Lemma InvW_buffers_Get : pres (InvW c) buffers_Get.
Proof.
  intros w (HI & Hw). pose proof (Inv_buffers_Get w HI) as H. revert H.
  unfold buffers_Get. destruct (obufLen (cfg w) <? 0); [auto|].
  destruct (pool w); intros H; (split; [exact H|exact Hw]).
Qed.

Lemma InvW_add_uncompWritten n : pres (InvW c) (add_uncompWritten n).
Proof.
  apply pres_modify. intros w ((H1 & H2 & H3 & H4) & Hw). split; [|exact Hw].
  inv_unf. split; [exact H1|]. split; [exact H2|].
  split; [intros Hf; congruence|exact H4].
Qed.

Lemma InvW_send r : pres (InvW c) (send r).
Proof.
  unfold send. apply pres_bind; [exact InvW_yield|]. intros _u.
  apply pres_bind; [apply pres_get|]. intros w.
  destruct (output w); [|apply pres_hang].
  apply pres_bind; [apply InvW_dispatcher_run|]. intros _v. apply InvW_push.
Qed.

Lemma InvW_Inv {A} (m : M A) : pres (InvW c) m -> hoare (InvW c) m (fun _ => Inv c).
Proof. intros H. eapply hoare_post; [exact H|]. intros a w Hw. exact (proj1 Hw). Qed.

(** ** Between the flag and the header *)

Lemma InvT_set_sched v w : InvT c w -> InvT c (set_sched v w).
Proof. inv_unf. auto. Qed.

Lemma InvT_set_errState e w : InvT c w -> InvT c (set_errState (Some e) w).
Proof. inv_unf. auto. Qed.

Lemma InvT_yield : pres (InvT c) yield.
Proof. apply keeps_yield; [apply InvT_dispatch_next|exact InvT_set_sched]. Qed.

Lemma InvT_Writer_err e : pres (InvT c) (Writer_err e).
Proof.
  apply keeps_Writer_err;
    [apply InvT_dispatch_next|exact InvT_set_sched|intros; apply InvT_set_errState; assumption].
Qed.

Lemma InvT_open_dispatch_next :
  pres (fun w => InvT c w /\ is_nil (output w) = false) dispatch_next.
Proof.
  intros w (HT & Hn). pose proof (InvT_dispatch_next c w HT) as H1.
  pose proof (dispatch_next_front w) as H2.
  destruct (dispatch_next w) as [[u w']| |]; try exact I.
  split; [exact H1|]. destruct H2 as (_ & ->). exact Hn.
Qed.

Lemma InvT_open_dispatcher_drain :
  pres (fun w => InvT c w /\ is_nil (output w) = false) dispatcher_drain.
Proof. apply keeps_dispatcher_drain. exact InvT_open_dispatch_next. Qed.

Lemma Inv_flag w :
  Inv c w -> wroteStreamHeader w = false -> errState w = None ->
  InvT c (set_wroteStreamHeader true w).
Proof.
  intros (H1 & H2 & H3 & H4) Hf He. destruct (H3 Hf) as (_ & Hp). inv_unf.
  split; [exact H1|]. split; [exact H2|]. split; [reflexivity|].
  split; [exact Hp|]. destruct (sinkLog w); [exact Logic.I|].
  destruct H4 as [H4|(_ & _ & H4)]; [exact H4|contradiction].
Qed.

Lemma InvT_header w s :
  InvT c w -> writer w = Some s ->
  InvL c (set_sinkLog (sinkLog w ++ [makeHeader (blockSize c)]) w).
Proof.
  intros (H1 & H2 & H3 & Hp & H4) _. inv_unf.
  split.
  - split; [exact H1|]. split; [exact H2|]. split; [intros Hf; congruence|].
    destruct (sinkLog w); cbn [app]; [left; reflexivity|left; exact H4].
  - split; [exact H3|]. destruct (sinkLog w); discriminate.
Qed.

Lemma queue_header_InvW : hoare (due c) queue_header (fun _ => InvW c).
Proof.
  apply hoare_open. intros w0 (H0 & Hpre). unfold queue_header. apply hoare_get_at.
  destruct (wroteStreamHeader w0) eqn:Hws; cbn [negb].
  - apply hoare_ret. intros w ->. split; assumption.
  - assert (He0 : errState w0 = None) by (destruct Hpre as [Hpre|Hpre]; congruence).
    eapply hoare_bind with (Q := fun _ => InvT c).
    { apply hoare_modify. intros w ->. apply Inv_flag; assumption. }
    intros _u. unfold send_wait.
    eapply hoare_bind; [exact InvT_yield|]. intros _v.
    apply hoare_open. intros w1 H1. apply hoare_get_at.
    destruct (output w1) as [q|] eqn:Ho; [|apply hoare_hang].
    apply (hoare_at (fun w => InvT c w /\ is_nil (output w) = false)).
    { split; [exact H1|]. rewrite Ho. reflexivity. }
    eapply hoare_bind; [exact InvT_open_dispatcher_drain|]. intros _x.
    apply hoare_modify. intros w ((H1' & H2 & H3 & Hp & H4) & Hn).
    destruct (output w) as [q'|] eqn:Ho'; [|discriminate Hn].
    destruct H0 as (Hc & _).
    inv_unf. rewrite Ho' in *. cbn [b]. split; [|exact H3].
    split; [exact H1'|]. split; [intros Hc1; specialize (H2 Hc1); discriminate|].
    split; [intros Hf; congruence|].
    destruct (sinkLog w); [|left; exact H4]. intros _. right.
    exists {| b := makeHeader (blockSize (cfg w0)); startOffset := uncompWritten w0 |}, [].
    rewrite filter_app, Hp. cbn [filter b app].
    rewrite makeHeader_nonempty. rewrite Hc. split; reflexivity.
Qed.

(** ** Once something has been written *)

Lemma InvL_sinkLog d w : InvL c w -> InvL c (set_sinkLog (sinkLog w ++ [d]) w).
Proof.
  intros ((H1 & H2 & H3 & H4) & Hw & Hl). inv_unf.
  destruct (sinkLog w) as [|first rest]; [congruence|]. cbn [app].
  split; [|split; [exact Hw|discriminate]].
  split; [exact H1|]. split; [exact H2|]. split; [exact H3|exact H4].
Qed.

Lemma InvL_written v w : InvL c w -> InvL c (set_written v w).
Proof. inv_unf. auto. Qed.

Lemma InvL_sched v w : InvL c w -> InvL c (set_sched v w).
Proof. inv_unf. auto. Qed.

Lemma InvL_index v w : InvL c w -> InvL c (set_index v w).
Proof. inv_unf. auto. Qed.

Lemma InvL_pool v w : InvL c w -> InvL c (set_pool v w).
Proof. inv_unf. auto. Qed.

Lemma InvL_output q w :
  InvL c w -> is_nil (output w) = false -> InvL c (set_output (Some q) w).
Proof.
  intros ((H1 & H2 & H3 & H4) & Hw & Hl) Hn. inv_unf.
  destruct (sinkLog w) as [|first rest]; [congruence|].
  split; [|split; [exact Hw|discriminate]].
  split; [exact H1|]. split; [|split; [intros Hf; congruence|exact H4]].
  intros Hc. specialize (H2 Hc). rewrite H2 in Hn. discriminate.
Qed.

Lemma InvL_errState e w : InvL c w -> InvL c (set_errState (Some e) w).
Proof.
  intros ((H1 & H2 & H3 & H4) & Hw & Hl). inv_unf.
  destruct (sinkLog w) as [|first rest]; [congruence|].
  split; [|split; [exact Hw|discriminate]].
  split; [exact H1|]. split; [exact H2|]. split; [exact H3|].
  destruct H4 as [H4|(_ & H4 & _)]; [left; exact H4|congruence].
Qed.

Lemma InvL_uncompWritten v w : InvL c w -> InvL c (set_uncompWritten v w).
Proof.
  intros ((H1 & H2 & H3 & H4) & Hw & Hl). inv_unf.
  split; [|split; [exact Hw|exact Hl]].
  split; [exact H1|]. split; [exact H2|]. split; [intros Hf; congruence|exact H4].
Qed.

Ltac InvL_hyps :=
  intros;
  first [ apply InvL_sinkLog | apply InvL_written | apply InvL_sched
        | apply InvL_index | apply InvL_output | apply InvL_errState ];
  assumption.

Lemma InvL_Writer_err e : pres (InvL c) (Writer_err e).
Proof. apply frame_Writer_err; InvL_hyps. Qed.

Lemma InvL_writer_Write d : pres (InvL c) (writer_Write d).
Proof. apply frame_writer_Write; InvL_hyps. Qed.

Lemma InvL_Index_add x u : pres (InvL c) (Index_add x u).
Proof. apply frame_Index_add; InvL_hyps. Qed.

Lemma InvL_add_written n : pres (InvL c) (add_written n).
Proof. apply frame_add_written; InvL_hyps. Qed.

Lemma InvL_add_uncompWritten n : pres (InvL c) (add_uncompWritten n).
Proof. apply pres_modify. intros w Hw. apply InvL_uncompWritten. exact Hw. Qed.

Lemma InvL_buffers_Get : pres (InvL c) buffers_Get.
Proof.
  intros w Hw. unfold buffers_Get. destruct (obufLen (cfg w) <? 0); [exact I|].
  destruct (pool w); [exact Hw|]. apply InvL_pool. exact Hw.
Qed.

Hint Resolve InvL_Writer_err InvL_writer_Write InvL_Index_add InvL_add_written
  InvL_add_uncompWritten InvL_buffers_Get : invl.

Ltac InvL_auto :=
  try apply hoare_pres; repeat (pres_step ltac:(solve [auto with invl])).

Lemma InvL_Inv {A} (m : M A) : pres (InvL c) m -> hoare (InvL c) m (fun _ => Inv c).
Proof. intros H. eapply hoare_post; [exact H|]. intros a w Hw. exact (proj1 Hw). Qed.

Lemma writeSync_loop_InvL f : forall p n, pres (InvL c) (writeSync_loop f p n).
Proof.
  induction f as [|f IH]; intros p n; cbn [writeSync_loop]; InvL_auto.
Qed.
Hint Resolve writeSync_loop_InvL : invl.

Lemma AddUserChunk_write_InvL d : pres (InvL c) (AddUserChunk_write d).
Proof. unfold AddUserChunk_write. InvL_auto. Qed.
Hint Resolve AddUserChunk_write_InvL : invl.

(** With a cell still empty and nothing queued, a header submitted is a
    header written. *)
Lemma Inv_written w :
  Inv c w -> wroteStreamHeader w = true -> errState w = None ->
  output w = None -> InvL c w.
Proof.
  intros HI Hw He Ho. split; [exact HI|]. split; [exact Hw|].
  destruct HI as (H1 & H2 & H3 & H4). inv_unf. rewrite Ho in *.
  destruct (sinkLog w); [|discriminate].
  destruct (H4 Hw) as [Hb|(r & rest & Hp & _)]; [contradiction|discriminate].
Qed.

Lemma writer_Write_header :
  hoare (InvT c) (writer_Write (makeHeader (blockSize c))) (fun _ => InvL c).
Proof.
  intros w HT. unfold writer_Write. destruct (writer w) as [s|] eqn:Hs; [|exact I].
  apply (InvT_header w s); assumption.
Qed.

Lemma writeSync_Inv p :
  hoare (fun w => Inv c w /\ (concurrency c = 1 \/ wroteStreamHeader w = false))
        (writeSync p) (fun _ => Inv c).
Proof.
  unfold writeSync. eapply hoare_bind.
  { exact (IF_Writer_err_value
             (fun fr => concurrency c = 1 \/ snd (fst fr) = false) None). }
  intros e. destruct e as [e|].
  { apply hoare_ret. intros w (_ & (H & _) & _). exact H. }
  apply hoare_open. intros w0 (He & (HI & HF) & _). apply hoare_get_at.
  destruct (wroteStreamHeader w0) eqn:Hws; cbn [negb].
  - apply (hoare_at (InvL c)); [|apply InvL_Inv; apply writeSync_loop_InvL].
    cbn in HF. destruct HF as [Hc|Hf]; [|congruence].
    apply Inv_written; auto. destruct HI as (_ & H2 & _). auto.
  - eapply hoare_bind with (Q := fun _ => InvT c).
    { apply hoare_modify. intros w ->. apply Inv_flag; auto. }
    intros _u. destruct HI as (Hc & _). rewrite Hc.
    eapply hoare_bind; [exact writer_Write_header|].
    intros r. apply InvL_Inv. InvL_auto.
Qed.

Lemma writeSync_sync p : concurrency c = 1 -> pres (Inv c) (writeSync p).
Proof.
  intros Hc. eapply hoare_pre; [apply writeSync_Inv|].
  intros w Hw. split; [exact Hw|left; exact Hc].
Qed.

Lemma InvW_due w : InvW c w -> due c w.
Proof. intros (HI & Hw). split; [exact HI|left; exact Hw]. Qed.

Lemma write_loop_Inv f :
  forall p n, hoare (due c) (write_loop f p n) (fun _ => Inv c).
Proof.
  induction f as [|f IH]; intros p n; cbn [write_loop];
    (destruct (0 <? len p); [|apply hoare_ret; intros w H; apply H]);
    [apply hoare_hang|].
  eapply hoare_bind; [exact queue_header_InvW|]. intros _u.
  eapply hoare_seq; [apply pres_get|]. intros w.
  eapply hoare_seq; [apply pres_lift|]. intros [uncompressed p'].
  eapply hoare_seq; [exact InvW_buffers_Get|]. intros inbuf0.
  eapply hoare_seq; [apply pres_lift|]. intros inbuf1.
  eapply hoare_seq; [exact InvW_buffers_Get|]. intros obuf0.
  eapply hoare_seq; [apply pres_lift|]. intros obuf.
  eapply hoare_seq; [apply pres_lift|]. intros _v. cbv zeta.
  eapply hoare_seq; [apply pres_lift|]. intros job.
  eapply hoare_seq; [apply InvW_send|]. intros _x.
  eapply hoare_seq; [apply InvW_add_uncompWritten|]. intros _y.
  eapply hoare_pre; [apply IH|]. exact InvW_due.
Qed.

Lemma write_Inv p : pres (Inv c) (write p).
Proof.
  unfold write. eapply hoare_bind; [apply Inv_Writer_err_value|].
  intros [e|]; [apply hoare_ret; intros w H; apply H|].
  apply hoare_open. intros w0 (He & H0). apply hoare_get_at.
  destruct (Z.eqb_spec (concurrency (cfg w0)) 1) as [Hc|Hc].
  - apply (hoare_at (Inv c)); [exact H0|].
    apply writeSync_sync. destruct H0 as (<- & _). exact Hc.
  - apply (hoare_at (due c)); [split; [exact H0|right; symmetry; exact He]|].
    apply write_loop_Inv.
Qed.

Lemma writeFull_Inv inbuf : pres (Inv c) (writeFull inbuf).
Proof.
  unfold writeFull. eapply hoare_bind; [apply Inv_Writer_err_value|].
  intros [e|]; [apply hoare_ret; intros w H; apply H|].
  apply hoare_open. intros w0 (He & H0). apply hoare_get_at.
  destruct (Z.eqb_spec (concurrency (cfg w0)) 1) as [Hc|Hc].
  - apply (hoare_at (Inv c)); [exact H0|].
    apply pres_bind; [apply pres_lift|]. intros data.
    apply pres_bind; [|intros r; apply pres_ret].
    apply writeSync_sync. destruct H0 as (<- & _). exact Hc.
  - apply (hoare_at (due c)); [split; [exact H0|right; symmetry; exact He]|].
    eapply hoare_bind; [exact queue_header_InvW|]. intros _u.
    apply InvW_Inv.
    apply pres_bind; [exact InvW_buffers_Get|]. intros obuf0.
    apply pres_bind; [apply pres_lift|]. intros obuf.
    apply pres_bind; [apply pres_lift|]. intros uncompressed.
    apply pres_bind; [apply pres_lift|]. intros job.
    apply pres_bind; [apply InvW_send|]. intros _x.
    apply pres_bind; [apply InvW_add_uncompWritten|]. intros _y.
    apply pres_ret.
Qed.

Lemma pres_set_ibuf v : pres (Inv c) (modify (set_ibuf v)).
Proof. apply pres_modify. intros w Hw. apply Inv_set_ibuf. exact Hw. Qed.

Hint Resolve Inv_Writer_err Inv_buffers_Get write_Inv writeFull_Inv pres_set_ibuf : inv.

Ltac Inv_auto :=
  try apply hoare_pres; repeat (pres_step ltac:(solve [auto with inv])).

Lemma AsyncFlush_Inv : pres (Inv c) AsyncFlush.
Proof.
  unfold AsyncFlush. eapply hoare_bind; [apply Inv_Writer_err|].
  intros [e|]; [apply pres_ret|].
  apply hoare_open. intros w0 H0. apply hoare_get_at.
  destruct (negb (len (ibuf w0) =? 0));
    [|apply (hoare_at (Inv c)); [exact H0|apply Inv_Writer_err]].
  destruct (wroteStreamHeader w0) eqn:Hws; cbn [negb].
  - apply (hoare_at (Inv c)); [exact H0|]. Inv_auto.
  - eapply hoare_bind.
    { apply (hoare_at (fun w => Inv c w /\
                                (concurrency c = 1 \/ wroteStreamHeader w = false)));
        [split; auto|apply writeSync_Inv]. }
    intros r. Inv_auto.
Qed.
Hint Resolve AsyncFlush_Inv : inv.

Lemma Inv_push_marker r :
  b r = [] ->
  pres (Inv c) (modify (fun w => match output w with
                                 | Some q' => set_output (Some (q' ++ [r])) w
                                 | None => w
                                 end)).
Proof.
  intros Hb. apply pres_modify. intros w HI.
  destruct (output w) as [q|] eqn:Ho; [|exact HI].
  destruct HI as (H1 & H2 & H3 & H4). inv_unf. rewrite Ho in *.
  assert (Hf : filter (fun r => 0 <? len (b r)) (q ++ [r])
               = filter (fun r => 0 <? len (b r)) q).
  { rewrite filter_app. cbn [filter]. rewrite Hb. cbn. apply app_nil_r. }
  rewrite Hf.
  split; [exact H1|]. split; [intros Hc; specialize (H2 Hc); discriminate|].
  split; [exact H3|exact H4].
Qed.

Lemma Inv_send_wait_marker r : b r = [] -> pres (Inv c) (send_wait r).
Proof.
  intros Hb. unfold send_wait. apply pres_bind; [exact Inv_yield|]. intros _u.
  apply pres_bind; [apply pres_get|]. intros w.
  destruct (output w); [|apply pres_hang].
  apply pres_bind; [exact Inv_dispatcher_drain|]. intros _v.
  apply Inv_push_marker. exact Hb.
Qed.

Lemma Flush_Inv : pres (Inv c) Flush.
Proof.
  unfold Flush. apply pres_bind; [exact AsyncFlush_Inv|].
  intros [e|]; [apply pres_ret|].
  apply pres_bind; [apply pres_get|]. intros w.
  destruct (output w); [|apply Inv_Writer_err].
  apply pres_bind; [apply Inv_send_wait_marker; reflexivity|]. intros _u.
  apply pres_bind; [exact Inv_dispatcher_drain|]. intros _v.
  apply Inv_Writer_err.
Qed.
Hint Resolve Flush_Inv : inv.

Lemma EncodeBuffer_loop_InvW f : forall buf, pres (InvW c) (EncodeBuffer_loop f buf).
Proof.
  induction f as [|f IH]; intros buf; cbn [EncodeBuffer_loop];
    (destruct (0 <? len buf); [|apply pres_ret]); [apply pres_hang|].
  apply pres_bind; [apply pres_get|]. intros w.
  apply pres_bind; [apply pres_lift|]. intros [uncompressed buf'].
  apply pres_bind; [exact InvW_buffers_Get|]. intros arr.
  apply pres_bind; [apply pres_lift|]. intros job.
  apply pres_bind; [apply InvW_send|]. intros _x.
  apply pres_bind; [apply InvW_add_uncompWritten|]. intros _y.
  apply IH.
Qed.

(** [Writer.err] and [AsyncFlush] return what the cell holds. *)
Lemma Writer_err_returns e :
  hoare (fun _ => True) (Writer_err e) (fun r w => r = errState w).
Proof.
  eapply hoare_post.
  - apply (Writer_err_value e (fun _ => True)); intros w _;
      [destruct (yield w) as [[? ?]| |]|destruct (err_cell e w) as [[? ?]| |]];
      exact Logic.I.
  - intros a w (Ha & _). exact Ha.
Qed.

Lemma AsyncFlush_returns :
  hoare (fun _ => True) AsyncFlush (fun e w => e = errState w).
Proof.
  unfold AsyncFlush. eapply hoare_bind; [apply Writer_err_returns|].
  intros [e|]; [apply hoare_ret; auto|].
  eapply hoare_pre with (P := fun _ => True); [|intros; exact Logic.I].
  eapply hoare_bind; [apply hoare_any|]. intros w0.
  destruct (negb (len (ibuf w0) =? 0)); [|apply Writer_err_returns].
  destruct (negb (wroteStreamHeader w0)).
  - eapply hoare_bind; [apply hoare_any|]. intros r.
    eapply hoare_bind; [apply hoare_any|]. intros _u.
    apply Writer_err_returns.
  - eapply hoare_bind; [apply hoare_any|]. intros r.
    eapply hoare_bind; [apply hoare_any|]. intros _u.
    eapply hoare_bind; [apply Writer_err_returns|].
    intros [e1|]; [apply hoare_ret; auto|].
    eapply hoare_pre; [apply Writer_err_returns|intros; exact Logic.I].
Qed.

Lemma EncodeBuffer_Inv buf : pres (Inv c) (EncodeBuffer buf).
Proof.
  unfold EncodeBuffer. eapply hoare_bind; [apply Inv_Writer_err_value|].
  intros [e|]; [apply hoare_ret; intros w H; apply H|].
  apply hoare_open. intros w0 (He & H0). apply hoare_get_at.
  destruct (flushOnWrite (cfg w0)); [apply (hoare_at (Inv c)); [exact H0|Inv_auto]|].
  eapply hoare_bind with (Q := fun e1 w => Inv c w /\ (e1 = None -> errState w = None)).
  { destruct (0 <? len (ibuf w0)).
    - apply (hoare_at (Inv c)); [exact H0|].
      eapply hoare_post.
      + apply hoare_conj; [exact AsyncFlush_Inv|].
        eapply hoare_pre; [exact AsyncFlush_returns|intros; exact Logic.I].
      + intros a w (HI & Ha). split; [exact HI|]. intros ->. symmetry. exact Ha.
    - apply hoare_ret. intros w ->. split; [exact H0|]. intros _. symmetry. exact He. }
  intros [e1|]; [apply hoare_ret; intros w H; apply H|].
  destruct (Z.eqb_spec (concurrency (cfg w0)) 1) as [Hc|Hc].
  - eapply hoare_pre with (P := Inv c); [|intros w H; apply H].
    apply pres_bind; [|intros r; apply pres_ret].
    apply writeSync_sync. destruct H0 as (<- & _). exact Hc.
  - eapply hoare_pre with (P := due c);
      [|intros w (HI & Hn); split; [exact HI|right; apply Hn; reflexivity]].
    eapply hoare_bind; [exact queue_header_InvW|]. intros _u.
    apply InvW_Inv. apply EncodeBuffer_loop_InvW.
Qed.
Hint Resolve EncodeBuffer_Inv : inv.

Lemma AddUserChunk_write_header :
  hoare (InvT c) (AddUserChunk_write (makeHeader (blockSize c))) (fun _ => InvL c).
Proof.
  unfold AddUserChunk_write. eapply hoare_bind; [exact writer_Write_header|].
  intros r. InvL_auto.
Qed.

Lemma AddUserChunk_Inv id data : pres (Inv c) (AddUserChunk id data).
Proof.
  unfold AddUserChunk. eapply hoare_bind; [apply Inv_Writer_err_value|].
  intros [e|]; [apply hoare_ret; intros w H; apply H|].
  destruct ((id <? MinUserSkippableChunk) || (ChunkTypePadding <? id));
    [apply hoare_ret; intros w H; apply H|].
  destruct (MaxUserChunkSize <? len data); [apply hoare_ret; intros w H; apply H|].
  cbv zeta. apply hoare_open. intros w0 (He & H0). apply hoare_get_at.
  destruct (Z.eqb_spec (concurrency (cfg w0)) 1) as [Hc|Hc].
  - assert (Hc1 : concurrency c = 1) by (destruct H0 as (<- & _); exact Hc).
    eapply hoare_bind with (Q := fun _ => InvL c).
    { destruct (wroteStreamHeader w0) eqn:Hws; cbn [negb].
      - apply hoare_ret. intros w ->. apply Inv_written; auto.
        destruct H0 as (_ & H2 & _). auto.
      - eapply hoare_bind with (Q := fun _ => InvT c).
        { apply hoare_modify. intros w ->. apply Inv_flag; auto. }
        intros _u. destruct H0 as (Hcfg & _). rewrite Hcfg.
        exact AddUserChunk_write_header. }
    intros e1. apply InvL_Inv. InvL_auto.
  - apply (hoare_at (due c)); [split; [exact H0|right; symmetry; exact He]|].
    eapply hoare_bind; [exact queue_header_InvW|]. intros _u.
    apply InvW_Inv.
    apply pres_bind; [exact InvW_buffers_Get|]. intros inbuf0.
    apply pres_bind; [apply pres_lift|]. intros inbuf. cbv zeta.
    apply pres_bind; [apply pres_get|]. intros w1.
    apply pres_bind; [apply InvW_send|]. intros _x.
    apply pres_ret.
Qed.
Hint Resolve AddUserChunk_Inv : inv.

(** ** Closing *)

Lemma dispatcher_run_empties k :
  forall w q, output w = Some q -> (List.length q <= k)%nat ->
  match dispatcher_run k w with
  | Val (_, w') => output w' = Some []
  | Panics _ => True
  | Diverges => True
  end.
Proof.
  induction k as [|k IH]; intros w q Ho Hk; cbn [dispatcher_run].
  - destruct q; [exact Ho|cbn in Hk; lia].
  - unfold bind. unfold dispatch_next. rewrite Ho.
    destruct q as [|r q].
    + apply (IH w []); [exact Ho|cbn; lia].
    + pose proof (dispatch_effect r (set_output (Some q) w)) as Heff.
      destruct (dispatch r (set_output (Some q) w)) as [[u w']| |]; try exact I.
      destruct Heff as (_ & Hout & _). proj.
      apply (IH w' q); [exact Hout|cbn in Hk; lia].
Qed.

Lemma dispatcher_drain_empties :
  hoare (fun _ => True) dispatcher_drain
    (fun _ w => output w = None \/ output w = Some []).
Proof.
  intros w _. unfold dispatcher_drain. destruct (output w) as [q|] eqn:Ho.
  - pose proof (dispatcher_run_empties (List.length q) w q Ho (Nat.le_refl _)) as H.
    destruct (dispatcher_run (List.length q) w) as [[u w']| |]; auto.
  - left. exact Ho.
Qed.

Lemma Inv_close w :
  Inv c w -> output w = None \/ output w = Some [] -> Inv c (set_output None w).
Proof.
  intros (H1 & H2 & H3 & H4) Ho. inv_unf.
  assert (Hp : match output w with
               | Some q => filter (fun r => 0 <? len (b r)) q
               | None => []
               end = []) by (destruct Ho as [-> | ->]; reflexivity).
  rewrite Hp in *.
  split; [exact H1|]. split; [reflexivity|].
  split; [intros Hf; split; [apply H3; exact Hf|reflexivity]|].
  destruct (sinkLog w); [|exact H4]. intros Ht.
  destruct (H4 Ht) as [He|(r & rest & Hr & _)]; [left; exact He|discriminate].
Qed.

Lemma close_output_Inv :
  hoare (Inv c) close_output (fun _ w => Inv c w /\ output w = None).
Proof.
  unfold close_output. apply hoare_open. intros w0 H0. apply hoare_get_at.
  destruct (output w0) as [q|] eqn:Ho.
  - apply (hoare_at (Inv c)); [exact H0|].
    eapply hoare_bind.
    { apply hoare_conj; [exact Inv_dispatcher_drain|].
      eapply hoare_pre; [exact dispatcher_drain_empties|intros; exact Logic.I]. }
    intros _u. apply hoare_modify. intros w (HI & Hq).
    split; [apply Inv_close; assumption|reflexivity].
  - apply hoare_ret. intros w ->. split; assumption.
Qed.

(** With the channel closed the dispatcher is gone. *)
Section ClosedChannel.
Variable G : Writer -> Prop.
Hypothesis G_none : forall w, G w -> output w = None.
Hypothesis G_sched : forall v w, G w -> G (set_sched v w).
Hypothesis G_errState :
  forall e w, G w -> errState w = None -> G (set_errState (Some e) w).

Lemma closed_dispatch_next : pres G dispatch_next.
Proof. intros w Hw. unfold dispatch_next. rewrite (G_none w Hw). exact Hw. Qed.

Lemma closed_Writer_err e : pres G (Writer_err e).
Proof.
  apply keeps_Writer_err; [exact closed_dispatch_next|exact G_sched|exact G_errState].
Qed.

Lemma closed_Writer_err_value e :
  hoare G (Writer_err e) (fun r w => r = errState w /\ G w).
Proof.
  eapply hoare_post.
  - apply Writer_err_value.
    + apply keeps_yield; [exact closed_dispatch_next|exact G_sched].
    + apply keeps_err_cell. exact G_errState.
  - intros a w (H1 & H2 & _). auto.
Qed.

Lemma closed_closeIndex_return ix : pres G (closeIndex_return ix).
Proof.
  apply keeps_closeIndex_return;
    [exact closed_dispatch_next|exact G_sched|exact G_errState].
Qed.

End ClosedChannel.

Lemma InvC_sinkLog d w : InvC c w -> InvC c (set_sinkLog (sinkLog w ++ [d]) w).
Proof.
  intros (H1 & Ho & H3 & H4). unfold InvC in *. proj.
  destruct (sinkLog w) as [|first rest]; [contradiction|]. cbn [app]. auto.
Qed.

Lemma InvC_written v w : InvC c w -> InvC c (set_written v w).
Proof. unfold InvC. proj. auto. Qed.

Lemma InvC_sched v w : InvC c w -> InvC c (set_sched v w).
Proof. unfold InvC. proj. auto. Qed.

Lemma InvC_randSrc v w : InvC c w -> InvC c (set_randSrc v w).
Proof. unfold InvC. proj. auto. Qed.

Lemma InvC_errState e w : InvC c w -> InvC c (set_errState (Some e) w).
Proof. unfold InvC. proj. auto. Qed.

Lemma InvC_none w : InvC c w -> output w = None.
Proof. intros H. apply H. Qed.

Lemma InvC_Writer_err e : pres (InvC c) (Writer_err e).
Proof.
  apply closed_Writer_err;
    [exact InvC_none|exact InvC_sched|intros; apply InvC_errState; assumption].
Qed.

Lemma InvC_Writer_err_value e :
  hoare (InvC c) (Writer_err e)
    (fun r w => r = errState w /\ InvC c w /\ (e <> None -> r <> None)).
Proof.
  apply Writer_err_value.
  - apply keeps_yield; [apply closed_dispatch_next; exact InvC_none|exact InvC_sched].
  - apply keeps_err_cell. intros; apply InvC_errState; assumption.
Qed.

Lemma InvC_writer_Write d : pres (InvC c) (writer_Write d).
Proof.
  intros w Hw. unfold writer_Write. destruct (writer w); [|exact I].
  apply InvC_sinkLog. exact Hw.
Qed.

Lemma InvC_add_written n : pres (InvC c) (add_written n).
Proof. apply pres_modify. intros w Hw. apply InvC_written. exact Hw. Qed.

Lemma InvC_set_randSrc v : pres (InvC c) (modify (set_randSrc v)).
Proof. apply pres_modify. intros w Hw. apply InvC_randSrc. exact Hw. Qed.

Hint Resolve InvC_Writer_err InvC_writer_Write InvC_add_written InvC_set_randSrc : invc.

Ltac InvC_auto :=
  try apply hoare_pres; repeat (pres_step ltac:(solve [auto with invc])).

(** Once the cell is set the footer is over. *)
Lemma InvC_closed w : InvC c w -> errState w <> None -> Inv c w.
Proof.
  intros (H1 & Ho & H3 & H4) He. unfold Inv, first_ok, pend. rewrite Ho.
  split; [exact H1|]. split; [auto|].
  split; [intros Hf; split; [auto|reflexivity]|].
  destruct (sinkLog w); [contradiction|].
  destruct H4 as [H4|(Ha & Hb)]; [left; exact H4|right; auto].
Qed.

Lemma closeIndex_return_closes ix :
  hoare (InvC c) (closeIndex_return ix) (fun _ => Inv c).
Proof.
  unfold closeIndex_return. eapply hoare_bind; [apply InvC_Writer_err_value|].
  intros e.
  assert (Hret : forall r : list Z * option error,
            hoare (fun w => e = errState w /\ InvC c w /\
                            (Some errClosed <> None -> e <> None))
                  (ret r) (fun _ => Inv c)).
  { intros r. apply hoare_ret. intros w (He & HC & Hn).
    apply InvC_closed; [exact HC|]. rewrite <- He. apply Hn. discriminate. }
  destruct e as [e|]; [destruct e|]; apply Hret.
Qed.

Lemma uvarint_zero : uvarint (uint64 0) = [0].
Proof. reflexivity. Qed.

(** The EOF chunk is the first write only on a stream of no bytes. *)
Lemma Inv_eof w s :
  Inv c w -> output w = None -> errState w = None -> writer w = Some s ->
  let vb := uvarint (uint64 (uncompWritten w)) in
  InvC c (set_sinkLog (sinkLog w ++ [[chunkTypeEOF; uint8 (len vb); 0; 0] ++ vb]) w).
Proof.
  intros (H1 & H2 & H3 & H4) Ho He _ vb. subst vb.
  unfold InvC, first_ok, pend in *. proj. rewrite Ho in *.
  split; [exact H1|]. split; [reflexivity|].
  split; [intros Hf; apply H3; exact Hf|].
  destruct (sinkLog w) as [|first rest]; cbn [app].
  - right. destruct (wroteStreamHeader w).
    + destruct (H4 eq_refl) as [Hb|(r & rest & Hr & _)]; [contradiction|discriminate].
    + destruct (H3 eq_refl) as (-> & _). split; reflexivity.
  - destruct H4 as [H4|(Ha & Hb & Hc)]; [left; exact H4|contradiction].
Qed.

Lemma closeIndex_Inv idx : pres (Inv c) (closeIndex idx).
Proof.
  unfold closeIndex. eapply hoare_bind; [exact Flush_Inv|]. intros err.
  eapply hoare_bind; [exact close_output_Inv|]. intros _u.
  apply hoare_open. intros w0 H0. apply hoare_get_at.
  destruct (idx && is_nil (index w0)).
  { apply hoare_ret. intros w ->. apply H0. }
  apply (hoare_at (fun w => Inv c w /\ output w = None)); [exact H0|].
  eapply hoare_bind.
  { apply closed_Writer_err_value.
    - intros w H; apply H.
    - intros v w (HI & Ho). split; [apply Inv_set_sched; exact HI|exact Ho].
    - intros e w (HI & Ho) _. split; [apply Inv_set_errState; exact HI|exact Ho]. }
  intros e1. destruct (is_nil e1 && negb (is_nil (writer w0))) eqn:Hb.
  - apply andb_prop in Hb. destruct Hb as (He1 & Hwr).
    destruct e1 as [e1|]; [discriminate He1|].
    eapply hoare_bind with (Q := fun _ => InvC c).
    { apply hoare_open. intros w1 (He & HI & Ho). apply hoare_get_at. cbv zeta.
      eapply hoare_bind with (Q := fun _ => InvC c).
      - intros w ->. unfold writer_Write. destruct (writer w1) as [s|] eqn:Hs; [|exact I].
        apply (Inv_eof w1 s); auto.
      - intros r. InvC_auto. }
    intros _v.
    eapply hoare_bind; [apply InvC_Writer_err|]. intros e2.
    destruct (is_nil e2 && negb (is_nil (writer w0)));
      [|apply closeIndex_return_closes].
    eapply hoare_bind with (Q := fun _ => InvC c); [InvC_auto|]. intros index.
    eapply hoare_bind
      with (Q := fun stop w => InvC c w /\ (stop <> None -> errState w <> None)).
    { destruct (1 <? pad (cfg w0)).
      2:{ apply hoare_ret. intros w H. split; [exact H|]. intros Hn. contradiction. }
      eapply hoare_bind; [apply pres_get|]. intros w3.
      eapply hoare_bind; [apply pres_lift|]. intros add.
      destruct (skippableFrame [] add (randSrc w3)) as [[frame ferr] r'].
      eapply hoare_bind; [apply InvC_set_randSrc|]. intros _x.
      eapply hoare_bind; [apply InvC_Writer_err_value|]. intros e3.
      destruct e3 as [e3|].
      - apply hoare_ret. intros w (He & HC & _). split; [exact HC|].
        intros _. rewrite <- He. discriminate.
      - eapply hoare_pre with (P := InvC c); [|intros w H; apply H].
        eapply hoare_bind; [apply InvC_writer_Write|]. intros [n err2].
        eapply hoare_bind; [apply InvC_add_written|]. intros _y.
        eapply hoare_bind; [apply InvC_Writer_err|]. intros _z.
        apply hoare_ret. intros w H. split; [exact H|]. intros Hn. contradiction. }
    intros stop. destruct stop as [e|].
    + apply hoare_ret. intros w (HC & Hn).
      apply InvC_closed; [exact HC|apply Hn; discriminate].
    + eapply hoare_pre with (P := InvC c); [|intros w H; apply H].
      eapply hoare_bind with (Q := fun _ => InvC c); [InvC_auto|]. intros _y.
      apply closeIndex_return_closes.
  - eapply hoare_bind
      with (Q := fun _ w => (Inv c w /\ output w = None) /\
                            (errState w <> None \/ is_nil (writer w0) = true)).
    { apply hoare_ret. intros w (He & HN). split; [exact HN|].
      apply andb_false_iff in Hb. destruct Hb as [Hb|Hb].
      - left. destruct e1; [rewrite <- He; discriminate|discriminate Hb].
      - right. destruct (is_nil (writer w0)); [reflexivity|discriminate Hb]. }
    intros _v. eapply hoare_bind.
    { apply closed_Writer_err_value.
      - intros w H; apply H.
      - intros v w ((HI & Ho) & Hq).
        split; [split; [apply Inv_set_sched; exact HI|exact Ho]|exact Hq].
      - intros e w ((HI & Ho) & Hq) _.
        split; [split; [apply Inv_set_errState; exact HI|exact Ho]|].
        left. proj. discriminate. }
    intros e2. destruct (is_nil e2 && negb (is_nil (writer w0))) eqn:Hb2.
    + apply andb_prop in Hb2. destruct Hb2 as (He2 & Hwr).
      eapply hoare_pre; [apply (hoare_false _ (fun _ => Inv c))|].
      intros w (He & _ & [Hq|Hq]).
      * destruct e2; [discriminate He2|]. apply Hq. symmetry. exact He.
      * rewrite Hq in Hwr. discriminate.
    + eapply hoare_weaken.
      * apply (closed_closeIndex_return (fun w => Inv c w /\ output w = None)).
        -- intros w H; apply H.
        -- intros v w (HI & Ho). split; [apply Inv_set_sched; exact HI|exact Ho].
        -- intros e w (HI & Ho) _. split; [apply Inv_set_errState; exact HI|exact Ho].
      * intros w (_ & HN & _). exact HN.
      * intros a w (HI & _). exact HI.
Qed.

Lemma Close_Inv : pres (Inv c) Close.
Proof.
  unfold Close. apply pres_bind; [apply pres_get|]. intros w.
  apply pres_bind; [apply closeIndex_Inv|]. intros r. apply pres_ret.
Qed.

Lemma CloseIndex_Inv : pres (Inv c) CloseIndex.
Proof. apply closeIndex_Inv. Qed.

(** ** [Write] and [ReadFrom] *)

Lemma Write_loop_Inv f : forall p n, pres (Inv c) (Write_loop f p n).
Proof.
  induction f as [|f IH]; intros p n; cbn [Write_loop]; Inv_auto.
Qed.
Hint Resolve Write_loop_Inv : inv.

Lemma Write_Inv p : pres (Inv c) (Write p).
Proof. unfold Write. Inv_auto. Qed.

Lemma ReadFrom_loop_Inv f : forall r n, pres (Inv c) (ReadFrom_loop f r n).
Proof.
  induction f as [|f IH]; intros r n; cbn [ReadFrom_loop]; Inv_auto.
Qed.
Hint Resolve ReadFrom_loop_Inv : inv.

Lemma ReadFrom_Inv r : pres (Inv c) (ReadFrom r).
Proof. unfold ReadFrom. Inv_auto. Qed.

(** ** [Reset] and [NewWriter] *)

Lemma Inv_set_index v w : Inv c w -> Inv c (set_index v w).
Proof. inv_unf. auto. Qed.

Lemma Inv_reset w wr ix :
  Inv c w -> output w = None ->
  Inv c {| cfg := cfg w; errState := None; ibuf := []; ibufCap := ibufCap w;
           written := 0; uncompWritten := 0; output := output w;
           writer := wr; randSrc := randSrc w; index := ix;
           wroteStreamHeader := false; sinkLog := [];
           pool := pool w; sched := sched w |}.
Proof.
  intros (H1 & H2 & H3 & H4) Ho. inv_unf. rewrite Ho.
  split; [exact H1|]. split; [reflexivity|].
  split; [intros _; split; reflexivity|]. intros Hf. discriminate.
Qed.

Lemma Inv_open w :
  Inv c w -> output w = None -> concurrency c <> 1 ->
  Inv c (set_output (Some []) w).
Proof.
  intros (H1 & H2 & H3 & H4) Ho Hc. inv_unf. rewrite Ho in *. cbn [filter].
  split; [exact H1|]. split; [intros; contradiction|].
  split; [exact H3|exact H4].
Qed.

Lemma Reset_Inv wr : pres (Inv c) (Reset wr).
Proof.
  unfold Reset. apply hoare_open. intros w0 H0. apply hoare_get_at.
  apply (hoare_at (Inv c)); [exact H0|].
  destruct (negb (paramsOK (cfg w0))); [apply pres_ret|].
  eapply hoare_bind; [exact close_output_Inv|]. intros _u.
  eapply hoare_bind with (Q := fun _ w => Inv c w /\ output w = None).
  { apply hoare_modify. intros w (HI & Ho).
    destruct (genIndex (cfg w) && is_nil (index w)); [|split; assumption].
    split; [apply Inv_set_index; exact HI|exact Ho]. }
  intros _v.
  eapply hoare_bind with (Q := fun _ w => Inv c w /\ output w = None).
  { apply hoare_modify. intros w (HI & Ho).
    split; [apply Inv_reset; assumption|exact Ho]. }
  intros _x. destruct wr as [s|].
  - apply hoare_open. intros w1 (H1 & Ho1). apply hoare_get_at.
    destruct (Z.eqb_spec (concurrency (cfg w1)) 1) as [Hc|Hc].
    + apply hoare_ret. intros w ->. exact H1.
    + destruct (concurrency (cfg w1) <? 0); [apply hoare_panic|].
      apply hoare_modify. intros w ->. apply Inv_open; auto.
      destruct H1 as (<- & _). exact Hc.
  - eapply hoare_bind.
    + apply (closed_Writer_err (fun w => Inv c w /\ output w = None)).
      * intros w H; apply H.
      * intros v w (HI & Ho). split; [apply Inv_set_sched; exact HI|exact Ho].
      * intros e w (HI & Ho) _. split; [apply Inv_set_errState; exact HI|exact Ho].
    + intros e. apply hoare_ret. intros w H. apply H.
Qed.

Lemma call_Inv k : pres (Inv c) (call k).
Proof.
  destruct k; cbn [call];
    try (apply pres_bind; [|intros ?; apply pres_ret]).
  - apply Write_Inv.
  - apply EncodeBuffer_Inv.
  - apply ReadFrom_Inv.
  - apply AddUserChunk_Inv.
  - apply AsyncFlush_Inv.
  - apply Flush_Inv.
  - apply Close_Inv.
  - apply CloseIndex_Inv.
  - apply Reset_Inv.
Qed.

Lemma run_Inv ks : pres (Inv c) (run ks).
Proof.
  induction ks as [|k ks IH]; cbn [run]; [apply pres_ret|].
  apply pres_bind; [apply call_Inv|]. intros _u. exact IH.
Qed.

End FirstWriteProofs.

Section NewWriterProofs.
Context {E : Env}.

Lemma apply_option_fields o w :
  let w' := fst (apply_option o w) in
  errState w' = errState w /\ output w' = output w /\
  wroteStreamHeader w' = wroteStreamHeader w /\
  uncompWritten w' = uncompWritten w /\ sinkLog w' = sinkLog w.
Proof.
  destruct o; cbn [apply_option]; cbv zeta;
    repeat match goal with
           | |- context [if ?x then _ else _] => destruct x
           end;
    cbn [fst]; proj; repeat split; reflexivity.
Qed.

Lemma apply_options_fields opts :
  forall w,
  let w' := fst (apply_options opts w) in
  errState w' = errState w /\ output w' = output w /\
  wroteStreamHeader w' = wroteStreamHeader w /\
  uncompWritten w' = uncompWritten w /\ sinkLog w' = sinkLog w.
Proof.
  induction opts as [|o opts IH]; intros w; cbn [apply_options].
  - cbn. repeat split; reflexivity.
  - pose proof (apply_option_fields o w) as Ho. cbv zeta in Ho.
    destruct (apply_option o w) as [w1 e1]. cbn [fst] in Ho.
    destruct e1 as [e1|].
    + cbn [fst]. exact Ho.
    + specialize (IH w1). cbv zeta in *.
      destruct IH as (I1 & I2 & I3 & I4 & I5). destruct Ho as (O1 & O2 & O3 & O4 & O5).
      repeat split; congruence.
Qed.

(** A new writer has written nothing and queued nothing. *)
Lemma Inv_fresh w :
  output w = None -> wroteStreamHeader w = false -> uncompWritten w = 0 ->
  sinkLog w = [] -> Inv (cfg w) w.
Proof.
  intros Ho Hw Hu Hl. unfold Inv, first_ok, pend. rewrite Ho, Hw, Hu, Hl.
  split; [reflexivity|]. split; [reflexivity|].
  split; [intros _; split; reflexivity|]. intros Hf. discriminate.
Qed.

Lemma NewWriter_Inv wr opts rnd pool0 sched0 w0 :
  NewWriter wr opts rnd pool0 sched0 = Val w0 -> Inv (cfg w0) w0.
Proof.
  unfold NewWriter. cbv zeta.
  match goal with
  | |- context [apply_options opts ?w] =>
      pose proof (apply_options_fields opts w) as Hf;
      destruct (apply_options opts w) as [w3 e]
  end.
  cbv zeta in Hf. cbn [fst] in Hf. proj.
  destruct Hf as (F1 & F2 & F3 & F4 & F5).
  destruct e as [e|].
  - intros H. injection H as <-. apply Inv_fresh; proj; assumption.
  - destruct (blockSize (cfg w3) <? 0); [discriminate|].
    match goal with
    | |- match Reset wr ?w with _ => _ end = _ -> _ =>
        pose proof (Reset_Inv (cfg w) wr w) as HR; destruct (Reset wr w) as [[u w5]| |]
    end; try discriminate.
    intros H. injection H as <-.
    match type of HR with
    | ?P -> _ => assert (H5 : P) by (apply Inv_fresh; proj; assumption)
    end.
    specialize (HR H5). pose proof HR as (Hc & _). rewrite Hc. exact HR.
Qed.

End NewWriterProofs.

(** * Chunk layout and padding range *)

Section ChunkShape.
Context {E : Env}.

(** ** The layout of a data chunk *)

Lemma block_chunk_cases c obuf src :
  block_chunk c obuf src =
  if 0 <? fst (block_encoded c obuf src)
  then chunk (uint8 chunkTypeMinLZCompressedData)
         (le32 (crc src) ++ uvarint (uint64 (len src))
          ++ take (fst (block_encoded c obuf src)) (snd (block_encoded c obuf src)))
  else chunk (uint8 chunkTypeUncompressedData) (le32 (crc src) ++ src).
Proof.
  unfold block_chunk. cbv zeta. destruct (block_encoded c obuf src) as [n out].
  reflexivity.
Qed.

Lemma chunk_head ty crcv body :
  take 8 (chunk ty (le32 crcv ++ body)) ++ body = chunk ty (le32 crcv ++ body).
Proof. reflexivity. Qed.

Lemma chunk_crc ty crcv body :
  take 4 (drop 4 (chunk ty (le32 crcv ++ body))) = le32 crcv.
Proof. reflexivity. Qed.

Lemma chunk_head_crc ty crcv body :
  take 4 (drop 4 (take 8 (chunk ty (le32 crcv ++ body)))) = le32 crcv.
Proof. reflexivity. Qed.

Lemma block_chunk_crc c obuf src :
  take 4 (drop 4 (block_chunk c obuf src)) = le32 (crc src) /\
  take 4 (drop 4 (take 8 (block_chunk c obuf src))) = le32 (crc src).
Proof.
  rewrite block_chunk_cases. destruct (0 <? fst (block_encoded c obuf src)).
  - split; [apply chunk_crc|apply chunk_head_crc].
  - split; [apply chunk_crc|apply chunk_head_crc].
Qed.

Lemma stored_length src :
  len src < 2 ^ 24 - 4 ->
  le_value (le24 (len (le32 (crc src) ++ src))) = 4 + len src.
Proof.
  intros H. pose proof (len_nonneg src).
  rewrite len_app. change (len (le32 (crc src))) with 4.
  apply le_value_le24. lia.
Qed.

Lemma on_sink_app w w' l :
  sinkLog w' = sinkLog w ++ l -> on_sink w' = on_sink w ++ List.concat l.
Proof. unfold on_sink. intros ->. apply concat_app. Qed.

(** What the synchronous path puts on the sink for one block. *)
Lemma writeSync_loop_bytes f src nRet w s :
  obufHeaderLen = 8 ->
  0 <= chunkTypeUncompressedData < 256 ->
  uint8 chunkTypeMinLZCompressedData <> chunkTypeUncompressedData ->
  output w = None ->
  writer w = Some s ->
  (forall log d, s log d = (len d, None)) ->
  18 <= obufLen (cfg w) ->
  0 < len src <= blockSize (cfg w) ->
  fst (block_encoded (cfg w) (next_buffer w) src) <= len (block_dst (next_buffer w) src) ->
  exists w',
    writeSync_loop (S f) src nRet w = Val ((nRet + len src, None), w') /\
    on_sink w' = on_sink w ++ block_chunk (cfg w) (next_buffer w) src.
Proof.
  intros H8 Hu Hd Ho Hw Hs Hl Hsrc Hfit.
  destruct (writeSync_loop_block f src nRet w s H8 Hu Hd Ho Hw Hs Hl Hsrc Hfit)
    as (w' & Hrun & Hlog).
  exists w'. split; [exact Hrun|]. rewrite (on_sink_app w w' _ Hlog). f_equal.
  rewrite block_chunk_cases in *.
  destruct (0 <? fst (block_encoded (cfg w) (next_buffer w) src)).
  - cbn [List.concat]. apply app_nil_r.
  - cbn [List.concat]. rewrite app_nil_r. apply chunk_head.
Qed.

End ChunkShape.

Section PaddingRange.
Context {E : Env}.

(** ** The padding size is 0 or fits a skippable frame *)

Lemma calcSkippableFrame_range written pad :
  0 <= skippableFrameHeader -> 0 <= written -> 0 < pad -> pad < 2 ^ 63 ->
  skippableFrameHeader + pad < 2 ^ 63 ->
  exists add, calcSkippableFrame written pad = Val add /\
              (add = 0 \/ skippableFrameHeader <= add < pad + skippableFrameHeader).
Proof.
  intros Hh Hw Hp Hp63 Hov.
  destruct (Z.eq_dec (written mod pad) 0) as [Hz|Hnz].
  - exists 0. split; [apply calcSkippableFrame_aligned; assumption|left; reflexivity].
  - destruct (calcSkippableFrame_unaligned written pad Hw Hp Hp63 Hov Hnz)
      as (k & Hk & Hrun & Hlo & Hprev).
    eexists. split; [exact Hrun|]. right.
    pose proof (Z.mod_pos_bound written pad Hp) as Hb.
    split; [exact Hlo|].
    destruct (Z.eq_dec k 0) as [->|Hk0]; [lia|].
    specialize (Hprev ltac:(lia)). lia.
Qed.

Lemma skippableFrame_zero dst r : skippableFrame dst 0 r = (dst, None, r).
Proof. reflexivity. Qed.

Lemma skippableFrame_in_range dst total r :
  total <> 0 ->
  skippableFrameHeader <= total < maxBlockSize + skippableFrameHeader ->
  - 2 ^ 63 <= total < 2 ^ 63 ->
  snd (fst (skippableFrame dst total r)) =
  snd (fst (ReadFull r (uint32 (total - skippableFrameHeader)))).
Proof.
  intros Hnz Hr H63. unfold skippableFrame.
  destruct (Z.eqb_spec total 0) as [?|_]; [contradiction|].
  destruct (Z.ltb_spec total skippableFrameHeader) as [?|_]; [lia|].
  rewrite (int64_small total) by lia.
  destruct (Z.leb_spec (maxBlockSize + skippableFrameHeader) total) as [?|_]; [lia|].
  cbv zeta.
  destruct (ReadFull r (uint32 (total - skippableFrameHeader))) as [[got err] r'].
  reflexivity.
Qed.

End PaddingRange.

(** * Every block, and closing a fresh writer *)

Section Jobs.
Context {E : Env}.

(** ** The chunk of a block, whichever goroutine builds it *)

Lemma uvarint_le_len x : 1 <= x -> len (uvarint x) <= x.
Proof.
  intros Hx. destruct (Z_lt_le_dec x 10) as [Hs|Hb].
  - unfold uvarint. cbn [uvarint_bytes].
    destruct (Z.leb_spec 128 x); [lia|]. rewrite len_cons, len_nil. lia.
  - pose proof (uvarint_len x). lia.
Qed.

Lemma drop_app_le {A} n (l1 l2 : list A) :
  0 <= n <= len l1 -> drop n (l1 ++ l2) = drop n l1 ++ l2.
Proof.
  intros H. unfold drop. rewrite skipn_app.
  replace (Z.to_nat n - List.length l1)%nat with 0%nat by (unfold len in H; lia).
  reflexivity.
Qed.


Lemma data_chunk_cases c dst dlen src :
  data_chunk c dst dlen src =
  if 0 <? fst (Writer_encodeBlock c dst dlen src)
  then chunk (uint8 chunkTypeMinLZCompressedData)
         (le32 (crc src) ++ uvarint (uint64 (len src))
          ++ take (fst (Writer_encodeBlock c dst dlen src))
                  (snd (Writer_encodeBlock c dst dlen src)))
  else chunk (uint8 chunkTypeUncompressedData) (le32 (crc src) ++ src).
Proof.
  unfold data_chunk. cbv zeta. destruct (Writer_encodeBlock c dst dlen src) as [n out].
  reflexivity.
Qed.

Lemma data_chunk_crc c dst dlen src :
  take 4 (drop 4 (data_chunk c dst dlen src)) = le32 (crc src).
Proof.
  rewrite data_chunk_cases. destruct (0 <? fst (Writer_encodeBlock c dst dlen src));
    apply chunk_crc.
Qed.

(** The goroutine of [EncodeBuffer], whether the kernel compresses or
    not. *)
Lemma uvarint_uint64_le_len x : 1 <= x -> len (uvarint (uint64 x)) <= x.
Proof.
  intros Hx. unfold uint64.
  pose proof (Z.mod_pos_bound x (2 ^ 64) ltac:(lia)) as Hb.
  pose proof (Z.mod_le x (2 ^ 64) ltac:(lia) ltac:(lia)) as Hle.
  destruct (Z.eq_dec (x mod 2 ^ 64) 0) as [->|Hnz].
  - change (len (uvarint 0)) with 1. lia.
  - pose proof (uvarint_le_len (x mod 2 ^ 64) ltac:(lia)). lia.
Qed.

Lemma EncodeBuffer_job_chunk c arr src :
  obufHeaderLen = 8 ->
  0 < len src ->
  len src + 8 <= len arr ->
  fst (Writer_encodeBlock c (block_dst arr src)
         (len src - len (uvarint (uint64 (len src)))) src)
    <= len (block_dst arr src) ->
  EncodeBuffer_job c arr src
  = Val (data_chunk c (block_dst arr src)
           (len src - len (uvarint (uint64 (len src)))) src).
Proof.
  intros H8 Hsrc Harr Hfit. unfold EncodeBuffer_job, data_chunk, block_dst in *.
  cbv zeta. rewrite H8 in *.
  set (l := len src + 8).
  unfold reslice at 1.
  destruct (Z.ltb_spec l 0); [lia|]. destruct (Z.ltb_spec (len arr) l); [lia|].
  cbn [orb rbind].
  assert (Hl : len (take l arr) = l) by (rewrite len_take by lia; lia).
  unfold slice_from. rewrite Hl.
  destruct (Z.ltb_spec 8 0); [lia|]. destruct (Z.ltb_spec l 8); [lia|].
  cbn [orb rbind].
  set (v := uvarint (uint64 (len src))) in *.
  assert (Hv : len v <= len src) by (apply uvarint_uint64_le_len; lia).
  pose proof (uvarint_len (uint64 (len src))) as Hv1. fold v in Hv1.
  assert (Htail : len (drop 8 (take l arr)) = len src)
    by (rewrite len_drop by lia; rewrite Hl; lia).
  rewrite (PutUvarint_fits (drop 8 (take l arr)) (uint64 (len src))) by (fold v; lia).
  fold v. cbn [rbind].
  set (tail1 := v ++ drop (len v) (drop 8 (take l arr))).
  assert (Ht1 : len tail1 = len src).
  { unfold tail1. rewrite len_app, len_drop by lia. lia. }
  assert (Harr1 : copy_at arr 8 tail1 = take 8 arr ++ v ++ drop (8 + len v) arr).
  { rewrite copy_at_inside by lia. rewrite Ht1. unfold tail1.
    rewrite <- app_assoc. do 2 f_equal.
    rewrite drop_drop by lia. replace (8 + len src) with l by (unfold l; lia).
    transitivity (drop (8 + len v) (take l arr ++ drop l arr)).
    - rewrite drop_app_le by lia. reflexivity.
    - rewrite take_drop. reflexivity. }
  rewrite Harr1.
  assert (Hl8 : len (take 8 arr) = 8) by (rewrite len_take by lia; lia).
  assert (Hd : drop (8 + len v) (take 8 arr ++ v ++ drop (8 + len v) arr)
               = drop (8 + len v) arr).
  { rewrite app_assoc. apply drop_app_exact. rewrite len_app. lia. }
  assert (Ht : take (8 + len v) (take 8 arr ++ v ++ drop (8 + len v) arr)
               = take 8 arr ++ v).
  { rewrite app_assoc. apply take_app_exact. rewrite len_app. lia. }
  rewrite Hd, Ht. rewrite Ht1.
  pose proof (Writer_encodeBlock_len c (drop (8 + len v) arr) (len src - len v) src)
    as Hlen.
  destruct (Writer_encodeBlock c (drop (8 + len v) arr) (len src - len v) src)
    as [n2 tail2].
  cbn [fst snd] in Hlen, Hfit.
  assert (Hdl : len (drop (8 + len v) arr) = len arr - 8 - len v)
    by (rewrite len_drop by lia; lia).
  destruct (Z.ltb_spec 0 n2) as [Hpos|Hnon].
  - unfold reslice.
    assert (Hl2 : len ((take 8 arr ++ v) ++ tail2) = len arr).
    { rewrite !len_app. lia. }
    destruct (Z.ltb_spec (8 + len v + n2) 0); [lia|].
    destruct (Z.ltb_spec (len ((take 8 arr ++ v) ++ tail2)) (8 + len v + n2)); [lia|].
    cbn [orb rbind].
    replace (4 + len v + n2) with (4 + len (v ++ take n2 tail2)).
    2:{ rewrite len_app, len_take by lia. lia. }
    apply fill_header_chunk. right. split.
    + rewrite len_take by lia. lia.
    + rewrite take_app_more by (rewrite len_app; lia).
      rewrite <- app_assoc. rewrite (drop_app_exact 8) by exact Hl8.
      rewrite len_app. do 2 f_equal. lia.
  - assert (Hl2 : len ((take 8 arr ++ v) ++ tail2) = len arr).
    { rewrite !len_app. lia. }
    set (arr2 := (take 8 arr ++ v) ++ tail2) in *.
    assert (Hl3 : len (take l arr2) = l) by (rewrite len_take by lia; lia).
    apply fill_header_chunk. right.
    rewrite copy_at_inside by lia.
    rewrite (drop_all (8 + len src)) by lia.
    rewrite app_nil_r. split.
    + rewrite len_app, len_take by lia. lia.
    + apply drop_app_exact. rewrite len_take by lia. lia.
Qed.

End Jobs.

Section SyncBlocks.
Context {E : Env}.
Variable s : Sink.
Hypothesis H8 : obufHeaderLen = 8.
Hypothesis Hu : 0 <= chunkTypeUncompressedData < 256.
Hypothesis Hne : uint8 chunkTypeMinLZCompressedData <> chunkTypeUncompressedData.
Hypothesis Hs : good s.

(** ** Every block of the synchronous loop *)


Lemma blocks_of_nil f bs : blocks_of f bs [] = [].
Proof. destruct f; reflexivity. Qed.









End SyncBlocks.

Section ConcBlocks.
Context {E : Env}.
Variable s : Sink.
Hypothesis H8 : obufHeaderLen = 8.
Hypothesis Hs : good s.
Hypothesis Hix : forall ix c u, snd (index_add ix c u) = None.

(** ** Every block of the concurrent loops

    Over a sink that takes every byte and with an index that accepts
    every entry the dispatcher never sets the error cell, and what it
    takes off the channel it puts on the sink. *)
















End ConcBlocks.

Section ConcLoops.
Context {E : Env}.
Variable s : Sink.
Hypothesis H8 : obufHeaderLen = 8.
Hypothesis Hs : good s.
Hypothesis Hix : forall ix c u, snd (index_add ix c u) = None.






End ConcLoops.

Section CloseFresh.
Context {E : Env}.
Variable s : Sink.
Hypothesis Hs : good s.

(** ** Closing a writer to which nothing has been submitted *)

Lemma Fresh_dispatch_next w :
  Fresh s w ->
  exists w', dispatch_next w = Val (tt, w') /\ Fresh s w' /\ cfg w' = cfg w /\
             written w' = written w /\
             is_nil (output w') = is_nil (output w).
Proof.
  intros (He & Hl & Hp & Hb & Hw & Hf & Hu). unfold dispatch_next.
  destruct (output w) as [[|r q]|] eqn:Ho.
  - exists w. rewrite Ho. unfold Fresh. auto 10.
  - unfold pend in Hp. rewrite Ho in Hp. cbn [filter] in Hp.
    unfold dispatch. destruct (0 <? len (b r)); [discriminate|].
    eexists. split; [reflexivity|]. unfold Fresh, pend. proj. auto 10.
  - exists w. rewrite Ho. unfold Fresh. auto 10.
Qed.

Lemma Fresh_dispatcher_run k : forall w,
  Fresh s w ->
  exists w', dispatcher_run k w = Val (tt, w') /\ Fresh s w' /\ cfg w' = cfg w /\
             written w' = written w /\
             is_nil (output w') = is_nil (output w).
Proof.
  induction k as [|k IH]; intros w HF.
  - exists w. auto.
  - cbn [dispatcher_run]. unfold bind.
    destruct (Fresh_dispatch_next w HF) as (w1 & -> & F1 & C1 & W1 & O1).
    destruct (IH w1 F1) as (w2 & -> & F2 & C2 & W2 & O2).
    exists w2. repeat split; try congruence; apply F2.
Qed.

Lemma Fresh_dispatcher_drain w :
  Fresh s w ->
  exists w', dispatcher_drain w = Val (tt, w') /\ Fresh s w' /\ cfg w' = cfg w /\
             written w' = written w /\
             is_nil (output w') = is_nil (output w).
Proof.
  intros HF. unfold dispatcher_drain. destruct (output w) as [q|] eqn:Ho.
  - destruct (Fresh_dispatcher_run (List.length q) w HF) as (w' & -> & F & C & W & O).
    exists w'. rewrite O, Ho. auto.
  - exists w. rewrite Ho. auto.
Qed.

Lemma Fresh_set_sched v w : Fresh s w -> Fresh s (set_sched v w).
Proof. unfold Fresh, pend. proj. auto. Qed.

Lemma Fresh_Writer_err w :
  Fresh s w ->
  exists w', Writer_err None w = Val (None, w') /\ Fresh s w' /\ cfg w' = cfg w /\
             written w' = written w /\
             is_nil (output w') = is_nil (output w).
Proof.
  intros HF. unfold Writer_err, bind.
  assert (Hy : exists w1, yield w = Val (tt, w1) /\ Fresh s w1 /\ cfg w1 = cfg w /\
                          written w1 = written w /\
                          is_nil (output w1) = is_nil (output w)).
  { unfold yield. destruct (sched w) as [|k sc]; [exists w; auto|].
    destruct (Fresh_dispatcher_run k (set_sched sc w) (Fresh_set_sched sc w HF))
      as (w1 & -> & F & C & W & O).
    exists w1. auto. }
  destruct Hy as (w1 & -> & F & C & W & O).
  exists w1. unfold err_cell. pose proof F as (He & _). rewrite He. auto.
Qed.

Lemma Fresh_send_wait r w :
  Fresh s w -> b r = [] -> is_nil (output w) = false ->
  exists w', send_wait r w = Val (tt, w') /\ Fresh s w' /\ cfg w' = cfg w /\
             written w' = written w /\
             is_nil (output w') = false.
Proof.
  intros HF Hb Ho. unfold send_wait. unfold bind at 1.
  assert (Hy : exists w1, yield w = Val (tt, w1) /\ Fresh s w1 /\ cfg w1 = cfg w /\
                          written w1 = written w /\
                          is_nil (output w1) = is_nil (output w)).
  { unfold yield. destruct (sched w) as [|k sc]; [exists w; auto|].
    destruct (Fresh_dispatcher_run k (set_sched sc w) (Fresh_set_sched sc w HF))
      as (w1 & -> & F & C & W & O).
    exists w1. auto. }
  destruct Hy as (w1 & -> & F1 & C1 & W1 & O1).
  unfold bind at 1. cbn [get].
  destruct (output w1) as [q1|] eqn:Ho1; [|rewrite Ho in O1; discriminate].
  unfold bind at 1.
  destruct (Fresh_dispatcher_drain w1 F1) as (w2 & -> & F2 & C2 & W2 & O2).
  cbn [modify]. cbv beta. rewrite Ho1 in O2.
  destruct (output w2) as [q2|] eqn:Ho2; [|discriminate].
  eexists. split; [reflexivity|]. rewrite Ho2.
  destruct F2 as (He & Hl & Hp & Hib & Hw & Hf & Hu).
  unfold Fresh, pend in *. proj. rewrite Ho2 in Hp.
  rewrite filter_app, Hp. cbn [filter]. rewrite Hb. cbn.
  repeat split; try assumption; congruence.
Qed.

(** [Close] on such a writer, without padding and without an index to
    append, returns nil and writes the EOF chunk of an empty stream,
    alone. *)
Lemma Close_fresh w :
  Fresh s w -> written w = 0 -> pad (cfg w) <= 1 -> appendIndex (cfg w) = false ->
  exists w', Close w = Val (None, w') /\ sinkLog w' = [eof0] /\
             errState w' = Some errClosed /\ written w' = 5.
Proof.
  intros HF Hwr0 Hpad Hai.
  assert (Hci : exists w', closeIndex false w = Val (([], None), w') /\
                           sinkLog w' = [eof0] /\
                           errState w' = Some errClosed /\ written w' = 5).
  2:{ destruct Hci as (w' & Hrun & Hrest). exists w'. split; [|exact Hrest].
      unfold Close, bind. cbn [get]. rewrite Hai, Hrun. reflexivity. }
  unfold closeIndex.
  (* Flush *)
  assert (HFl : exists w1, Flush w = Val (None, w1) /\ Fresh s w1 /\ cfg w1 = cfg w /\
                           written w1 = written w).
  { unfold Flush, AsyncFlush. unfold bind at 1. unfold bind at 1.
    destruct (Fresh_Writer_err w HF) as (wa & -> & Fa & Ca & Wa & Oa).
    unfold bind at 1. cbn [get].
    pose proof Fa as (_ & _ & _ & Hib & _). rewrite Hib. cbn [len List.length Z.of_nat Z.eqb negb].
    destruct (Fresh_Writer_err wa Fa) as (wb & -> & Fb & Cb & Wb & Ob).
    unfold bind at 1. cbn [get].
    destruct (output wb) as [qb|] eqn:Hob.
    - unfold bind at 1.
      destruct (Fresh_send_wait {| b := []; startOffset := uncompWritten wb |} wb Fb eq_refl)
        as (wc & -> & Fc & Cc & Wc & Oc); [rewrite Hob; reflexivity|].
      unfold bind at 1.
      destruct (Fresh_dispatcher_drain wc Fc) as (wd & -> & Fd & Cd & Wd & Od).
      destruct (Fresh_Writer_err wd Fd) as (we & -> & Fe & Ce & We & Oe).
      exists we. repeat split; try congruence; apply Fe.
    - destruct (Fresh_Writer_err wb Fb) as (wc & -> & Fc & Cc & Wc & Oc).
      exists wc. repeat split; try congruence; apply Fc. }
  destruct HFl as (w1 & HFlush & F1 & C1 & W1).
  unfold bind at 1. rewrite HFlush. unfold bind at 1.
  (* close(w.output) *)
  assert (HCl : exists w2, close_output w1 = Val (tt, w2) /\ Fresh s w2 /\
                           cfg w2 = cfg w /\ written w2 = written w /\
                           output w2 = None).
  { unfold close_output. unfold bind at 1. cbn [get].
    destruct (output w1) as [q1|] eqn:Ho1.
    - unfold bind at 1.
      destruct (Fresh_dispatcher_drain w1 F1) as (wd & -> & Fd & Cd & Wd & Od).
      cbn [modify]. eexists. split; [reflexivity|].
      destruct Fd as (He & Hl & Hp & Hib & Hw & Hf & Hu).
      unfold Fresh, pend. proj. repeat split; try assumption; congruence.
    - exists w1. cbn [ret]. repeat split; try congruence; apply F1. }
  destruct HCl as (w2 & -> & F2 & C2 & W2 & O2).
  destruct F2 as (He & Hl & Hp & Hib & Hw & Hf & Hu).
  unfold bind at 1. cbn [get]. cbn [andb].
  unfold bind at 1. rewrite (Writer_err_idle_clean None w2 He O2).
  rewrite Hw. cbn [is_nil andb negb].
  unfold bind at 1. unfold bind at 1. cbn [get]. cbv zeta. proj.
  unfold bind at 1. unfold writer_Write. proj. rewrite Hw, Hs. cbn [snd].
  unfold bind at 1.
  rewrite Writer_err_idle_clean by (proj; first [reflexivity|assumption]).
  unfold add_written. cbn [modify]. proj.
  unfold bind at 1.
  rewrite Writer_err_idle_clean by (proj; first [reflexivity|assumption]).
  cbn [is_nil andb negb]. proj.
  unfold bind at 1. cbn [ret].
  unfold bind at 1. rewrite C2.
  destruct (Z.ltb_spec 1 (pad (cfg w))); [lia|]. cbn [ret].
  unfold bind at 1. cbn [len List.length Z.of_nat Z.ltb Z.compare andb ret].
  unfold closeIndex_return. unfold bind at 1.
  rewrite Writer_err_idle_clean by (proj; first [reflexivity|assumption]).
  cbn [ret bind snd]. eexists. split; [reflexivity|]. proj.
  rewrite Hl, Hu, W2, Hwr0. unfold eof0. repeat split; reflexivity.
Qed.

(** [NewWriter] with a sink and no option. *)
Lemma NewWriter_default rnd pool0 sched0 :
  0 <= defaultBlockSize -> 0 <= GOMAXPROCS ->
  exists w, NewWriter (Some s) [] rnd pool0 sched0 = Val w /\ Fresh s w /\
            written w = 0 /\ pad (cfg w) = 0 /\ appendIndex (cfg w) = false.
Proof.
  intros Hb Hg. unfold NewWriter. cbn [apply_options]. cbv zeta. proj.
  cbn [blockSize]. destruct (Z.ltb_spec defaultBlockSize 0); [lia|].
  unfold Reset. unfold bind at 1. cbn [get]. proj. cbn [paramsOK negb].
  unfold bind at 1. unfold close_output. unfold bind at 1. cbn [get]. proj. cbn [ret].
  unfold bind at 1. cbn [modify]. proj. cbn [genIndex is_nil andb]. proj.
  unfold bind at 1. cbn [modify]. proj.
  unfold bind at 1. cbn [get]. proj. cbn [concurrency].
  destruct (Z.eqb_spec GOMAXPROCS 1).
  - cbn [ret]. eexists. split; [reflexivity|]. unfold Fresh, pend. proj.
    cbn [pad appendIndex]. repeat split; reflexivity.
  - destruct (Z.ltb_spec GOMAXPROCS 0); [lia|]. cbn [modify].
    eexists. split; [reflexivity|]. unfold Fresh, pend. proj.
    cbn [pad appendIndex filter]. repeat split; reflexivity.
Qed.

End CloseFresh.

(** * The statements of the specification *)

(** Closed arithmetic and evaluation side conditions. *)
Ltac run_it :=
  first [ lia
        | vm_compute; reflexivity
        | reflexivity
        | apply Z.leb_le; vm_compute; reflexivity
        | apply Z.ltb_lt; vm_compute; reflexivity
        | split; [apply Z.leb_le|apply Z.leb_le]; vm_compute; reflexivity
        | split; [apply Z.ltb_lt|apply Z.leb_le]; vm_compute; reflexivity
        | split; [apply Z.leb_le|apply Z.ltb_lt]; vm_compute; reflexivity
        | split; [apply Z.ltb_lt|apply Z.ltb_lt]; vm_compute; reflexivity
        | intros; reflexivity
        | vm_compute; discriminate
        | vm_compute; intros; discriminate
        | intros; apply Z.leb_le; vm_compute; reflexivity ].



(** C2: bytes 4..7 of every data chunk are the little-endian masked
    checksum of the block's uncompressed bytes: [crc src], that is
    [((c >> 15) | (c << 17)) + 0xA282EAD8] over 32 bits with [c] the
    CRC32-Castagnoli of [src].  This holds of the chunk built by each of
    the three goroutines, of [write] (and [writeFull]), of [writeSync] and
    of [EncodeBuffer], whether the kernel compresses or not, and of
    [data_chunk], which is what every block is emitted as. *)
Theorem C2_masked_checksum {E : Env} (c : Config) (obuf inbuf arr src : list Z) :
  obufHeaderLen = 8 ->
  18 <= len obuf ->
  8 <= len inbuf ->
  drop 8 inbuf = src ->
  fst (block_encoded c obuf src) <= len (block_dst obuf src) ->
  0 < len src ->
  len src + 8 <= len arr ->
  fst (Writer_encodeBlock c (block_dst arr src)
         (len src - len (uvarint (uint64 (len src)))) src)
    <= len (block_dst arr src) ->
  exists ch chs ty che,
    write_job c obuf inbuf src = Val ch /\
    writeSync_job c obuf src = Val (chs, ty) /\
    EncodeBuffer_job c arr src = Val che /\
    take 4 (drop 4 ch) = le32 (crc src) /\
    take 4 (drop 4 chs) = le32 (crc src) /\
    take 4 (drop 4 che) = le32 (crc src) /\
    (forall c' dst dlen, take 4 (drop 4 (data_chunk c' dst dlen src)) = le32 (crc src)) /\
    le_value (le32 (crc src)) = crc src /\
    crc src = uint32 (Z.lor (Z.shiftr (crc32c src) 15)
                            (uint32 (Z.shiftl (crc32c src) 17)) + 2726488792).
Proof.
  intros H8 Ho Hi Hd Hf Hs Ha Hfa.
  pose proof (write_job_chunk c obuf inbuf src H8 Ho Hi Hd Hf) as Hw.
  pose proof (writeSync_job_chunk c obuf src H8 Ho Hf) as Hsy.
  pose proof (EncodeBuffer_job_chunk c arr src H8 Hs Ha Hfa) as He.
  destruct (block_chunk_crc c obuf src) as (Hc1 & Hc2).
  destruct (0 <? fst (block_encoded c obuf src));
    do 4 eexists; (split; [exact Hw|]); (split; [exact Hsy|]); (split; [exact He|]);
    (split; [exact Hc1|]); (split; [first [exact Hc1|exact Hc2]|]);
    (split; [apply data_chunk_crc|]);
    (split; [intros c' dst dlen; apply data_chunk_crc|]);
    (split; [apply le_value_le32; apply crc_range|reflexivity]).
Qed.

Lemma C2_masked_checksum_witness :
  exists ch chs ty che,
    write_job (E := sample_env) (cfg sample_sync_toy)
      (repeat 0 4248) (repeat 0 8 ++ [1; 2; 3]) [1; 2; 3] = Val ch /\
    writeSync_job (E := sample_env) (cfg sample_sync_toy)
      (repeat 0 4248) [1; 2; 3] = Val (chs, ty) /\
    EncodeBuffer_job (E := sample_env) (cfg sample_sync_toy)
      (repeat 0 4248) [1; 2; 3] = Val che /\
    take 4 (drop 4 ch) = le32 (crc [1; 2; 3]) /\
    take 4 (drop 4 chs) = le32 (crc [1; 2; 3]) /\
    take 4 (drop 4 che) = le32 (crc [1; 2; 3]) /\
    (forall c' dst dlen,
       take 4 (drop 4 (data_chunk (E := sample_env) c' dst dlen [1; 2; 3]))
       = le32 (crc [1; 2; 3])) /\
    le_value (le32 (crc [1; 2; 3])) = crc [1; 2; 3] /\
    crc [1; 2; 3] = uint32 (Z.lor (Z.shiftr (crc32c [1; 2; 3]) 15)
                                  (uint32 (Z.shiftl (crc32c [1; 2; 3]) 17)) + 2726488792).
Proof.
  refine (C2_masked_checksum (E := sample_env) (cfg sample_sync_toy)
            (repeat 0 4248) (repeat 0 8 ++ [1; 2; 3]) (repeat 0 4248) [1; 2; 3]
            _ _ _ _ _ _ _ _); run_it.
Defined.

(** C3: the code departs from the claim in [closeIndex] and in
    [writeSync]: both write to the sink after an error has been latched.
    [closeIndex] latches the error of the padding write and goes on to
    write the index: over a sink that fails from its fifth call on, which is
    the write of the padding frame, [Close] returns that error and yet the
    sink has been called once more, with the index.  [writeSync] latches the error of
    [index.add] and goes on to write the data of the block and every later
    block: with an index that turns the first entry down, [Write] of two
    blocks puts both on the sink, returns nil, and leaves the error in the
    cell. *)
Theorem C3_write_after_error :
  errState sample_padded = None /\
  value (Close (E := sample_env) sample_padded) = Some (Some (errExternal 7)) /\
  map len (sinkLog (after (Close (E := sample_env)) sample_padded))
    = [10; 8; 3; 5; 36; 1] /\
  value (Write (E := rejecting_env) (repeat 1 (Z.to_nat 4097)) sample_rejecting)
    = Some (4097, None) /\
  map len (sinkLog (after (Write (E := rejecting_env) (repeat 1 (Z.to_nat 4097)))
                      sample_rejecting))
    = [10; 8; 4096; 8; 1] /\
  errState (after (Write (E := rejecting_env) (repeat 1 (Z.to_nat 4097)))
              sample_rejecting)
    = Some (errorsNew "index: entry rejected").
Proof. vm_compute. repeat split; reflexivity. Qed.

(** C4 (as amended): in every run of a new writer, whatever the calls and
    the schedule of the dispatcher, the first write that reaches the sink
    is the stream header or the EOF chunk of an empty stream; the latter
    only on a writer that was closed with nothing submitted, where the
    header flag is off, no uncompressed byte has been counted and the
    error cell is set.  In particular, a writer built with the defaults
    over a sink that takes every byte and closed at once returns nil and
    has written the EOF chunk alone. *)
Theorem C4_first_write {E : Env} (wr : option Sink) (opts : list WriterOption)
    (rnd : Reader) (pool0 : list (list Z)) (sched0 : list nat)
    (w0 : Writer) (ks : list Call) (u : unit) (w : Writer) :
  NewWriter wr opts rnd pool0 sched0 = Val w0 ->
  run ks w0 = Val (u, w) ->
  match sinkLog w with
  | [] => True
  | first :: _ =>
      first = makeHeader (blockSize (cfg w0)) \/
      (first = eof0 /\ wroteStreamHeader w = false /\ uncompWritten w = 0 /\
       errState w <> None)
  end /\
  (forall s, good s -> 0 <= defaultBlockSize -> 0 <= GOMAXPROCS ->
     exists w1 w2,
       NewWriter (Some s) [] rnd pool0 sched0 = Val w1 /\
       Close w1 = Val (None, w2) /\
       sinkLog w2 = [eof0]).
Proof.
  intros Hnew Hrun. split.
  - pose proof (NewWriter_Inv wr opts rnd pool0 sched0 w0 Hnew) as H0.
    pose proof (run_Inv (cfg w0) ks w0 H0) as H. rewrite Hrun in H.
    destruct H as (_ & _ & H3 & H4). unfold first_ok in H4.
    destruct (sinkLog w); [exact I|].
    destruct H4 as [H4|(Ha & Hb & Hc)]; [left; exact H4|right].
    destruct (H3 Hb) as (Hu & _). auto.
  - intros s Hs Hb Hg.
    destruct (NewWriter_default s rnd pool0 sched0 Hb Hg) as (w1 & Hw1 & HF & Hwr & Hp & Ha).
    destruct (Close_fresh s Hs w1 HF Hwr ltac:(lia) Ha) as (w2 & Hc & Hl & _).
    exists w1, w2. auto.
Qed.

Lemma C4_first_write_witness :
  match sinkLog (after (run (E := sample_env) [CallClose; CallWrite [1; 2; 3]])
                   (sample_writer good_sink [WriterBlockSize 4096; WriterConcurrency 2]
                      [1%nat; 0%nat; 2%nat])) with
  | [] => True
  | first :: _ =>
      first = makeHeader (E := sample_env)
                (blockSize (cfg (sample_writer good_sink
                                   [WriterBlockSize 4096; WriterConcurrency 2]
                                   [1%nat; 0%nat; 2%nat])))
      \/ (first = eof0 (E := sample_env) /\
          wroteStreamHeader
            (after (run (E := sample_env) [CallClose; CallWrite [1; 2; 3]])
               (sample_writer good_sink [WriterBlockSize 4096; WriterConcurrency 2]
                  [1%nat; 0%nat; 2%nat])) = false /\
          uncompWritten
            (after (run (E := sample_env) [CallClose; CallWrite [1; 2; 3]])
               (sample_writer good_sink [WriterBlockSize 4096; WriterConcurrency 2]
                  [1%nat; 0%nat; 2%nat])) = 0 /\
          errState
            (after (run (E := sample_env) [CallClose; CallWrite [1; 2; 3]])
               (sample_writer good_sink [WriterBlockSize 4096; WriterConcurrency 2]
                  [1%nat; 0%nat; 2%nat])) <> None)
  end.
Proof.
  pose proof (C4_first_write (E := sample_env) (Some good_sink)
                [WriterBlockSize 4096; WriterConcurrency 2] (zero_reader 64) []
                [1%nat; 0%nat; 2%nat]
                (sample_writer good_sink [WriterBlockSize 4096; WriterConcurrency 2]
                   [1%nat; 0%nat; 2%nat])
                [CallClose; CallWrite [1; 2; 3]] tt
                (after (run (E := sample_env) [CallClose; CallWrite [1; 2; 3]])
                   (sample_writer good_sink [WriterBlockSize 4096; WriterConcurrency 2]
                      [1%nat; 0%nat; 2%nat]))) as H.
  assert (H1 : NewWriter (E := sample_env) (Some good_sink)
                 [WriterBlockSize 4096; WriterConcurrency 2] (zero_reader 64) []
                 [1%nat; 0%nat; 2%nat]
               = Val (sample_writer good_sink [WriterBlockSize 4096; WriterConcurrency 2]
                        [1%nat; 0%nat; 2%nat])) by (vm_compute; reflexivity).
  assert (H2 : run (E := sample_env) [CallClose; CallWrite [1; 2; 3]]
                 (sample_writer good_sink [WriterBlockSize 4096; WriterConcurrency 2]
                    [1%nat; 0%nat; 2%nat])
               = Val (tt, after (run (E := sample_env) [CallClose; CallWrite [1; 2; 3]])
                            (sample_writer good_sink
                               [WriterBlockSize 4096; WriterConcurrency 2]
                               [1%nat; 0%nat; 2%nat]))) by (vm_compute; reflexivity).
  specialize (H H1 H2). destruct H as (H & _). exact H.
Defined.

(** C4, the claim as stated fails: a writer built with the defaults and
    closed at once puts the EOF chunk on the sink and nothing else; no
    stream header goes out. *)
Lemma C4_counterexample :
  value (Close (E := sample_env) (sample_writer good_sink [] [])) = Some None /\
  sinkLog (after (Close (E := sample_env)) (sample_writer good_sink [] []))
    = [[chunkTypeEOF (Env := sample_env); 1; 0; 0; 0]].
Proof. vm_compute. split; reflexivity. Qed.

(** C5: the code departs from the claim in the dispatcher.  A sink that
    takes one byte less than it is given, without error, makes the
    synchronous path and [AddUserChunk] latch [io.ErrShortWrite], while
    the dispatcher goroutine of the concurrent path latches
    [io.ErrShortBuffer]. *)
Theorem C5_short_write :
  errState (after (Flush (E := sample_env))
              (after (Write (E := sample_env) [1; 2; 3])
                 (sample_writer short_sink [WriterBlockSize 4096; WriterConcurrency 1] [])))
    = Some ErrShortWrite /\
  errState (after (AddUserChunk (E := sample_env) 128 [9])
              (sample_writer short_sink [WriterBlockSize 4096; WriterConcurrency 1] []))
    = Some ErrShortWrite /\
  errState (after (Flush (E := sample_env))
              (after (Write (E := sample_env) [1; 2; 3])
                 (sample_writer short_sink
                    [WriterBlockSize 4096; WriterConcurrency 2; WriterFlushOnWrite] [])))
    = Some ErrShortBuffer /\
  errState (after (Flush (E := sample_env))
              (after (AddUserChunk (E := sample_env) 128 [9])
                 (sample_writer short_sink [WriterBlockSize 4096; WriterConcurrency 2] [])))
    = Some ErrShortBuffer.
Proof. vm_compute. repeat split; reflexivity. Qed.

(** C6: the code departs from the claim, and from the comment of
    [calcSkippableFrame] ("the value will always be >
    skippableFrameHeader"), when the bytes written are already a multiple
    of [pad]: the size is then 0, neither positive nor at least the frame
    header, and [Close] emits no padding chunk.  With 2048 bytes written
    and [pad] 1024 the size is 0; a writer with [pad] 5 closed at once
    writes the 5-byte EOF chunk and then hands the sink an empty slice. *)
Theorem C6_no_padding_chunk :
  calcSkippableFrame (E := sample_env) 2048 1024 = Val 0 /\
  0 < skippableFrameHeader (Env := sample_env) /\
  written (after (Close (E := sample_env))
             (sample_writer good_sink [WriterPadding 5; WriterConcurrency 1] [])) = 5 /\
  sinkLog (after (Close (E := sample_env))
             (sample_writer good_sink [WriterPadding 5; WriterConcurrency 1] []))
    = [eof0 (E := sample_env); []].
Proof. vm_compute. repeat split; reflexivity. Qed.

(** C7: after a [Close] that returned nil, a second [Close] returns nil
    and changes nothing: not the bytes on the sink, not the byte count.
    After a [CloseIndex], a second [CloseIndex] returns no index and
    changes nothing either. *)
Theorem C7_close_again {E : Env} (w w1 w1' : Writer) (r : list Z * option error) :
  Close w = Val (None, w1) ->
  CloseIndex w = Val (r, w1') ->
  (exists w2, Close w1 = Val (None, w2) /\
              sinkLog w2 = sinkLog w1 /\ written w2 = written w1 /\
              same_fields w1 w2) /\
  (exists e2 w2, CloseIndex w1' = Val (([], e2), w2) /\
                 sinkLog w2 = sinkLog w1' /\ written w2 = written w1' /\
                 same_fields w1' w2).
Proof.
  intros Hc Hi. split.
  - destruct (Close_again w w1 Hc) as (w2 & Hrun & Hsame).
    exists w2. split; [exact Hrun|]. split; [apply Hsame|]. split; [apply Hsame|exact Hsame].
  - destruct (CloseIndex_again w r w1' Hi) as (e2 & w2 & Hrun & Hsame).
    exists e2, w2. split; [exact Hrun|]. split; [apply Hsame|]. split; [apply Hsame|exact Hsame].
Qed.

Lemma C7_close_again_witness :
  (exists w2,
     Close (E := sample_env)
       (after (Close (E := sample_env))
          (after (Write (E := sample_env) [1; 2; 3])
             (sample_writer good_sink [WriterBlockSize 4096; WriterAddIndex true] [])))
     = Val (None, w2) /\
     sinkLog w2 =
     sinkLog (after (Close (E := sample_env))
                (after (Write (E := sample_env) [1; 2; 3])
                   (sample_writer good_sink [WriterBlockSize 4096; WriterAddIndex true] []))) /\
     written w2 =
     written (after (Close (E := sample_env))
                (after (Write (E := sample_env) [1; 2; 3])
                   (sample_writer good_sink [WriterBlockSize 4096; WriterAddIndex true] []))) /\
     same_fields
       (after (Close (E := sample_env))
          (after (Write (E := sample_env) [1; 2; 3])
             (sample_writer good_sink [WriterBlockSize 4096; WriterAddIndex true] [])))
       w2) /\
  (exists e2 w2,
     CloseIndex (E := sample_env)
       (after (CloseIndex (E := sample_env))
          (after (Write (E := sample_env) [1; 2; 3])
             (sample_writer good_sink [WriterBlockSize 4096; WriterAddIndex true] [])))
     = Val (([], e2), w2) /\
     sinkLog w2 =
     sinkLog (after (CloseIndex (E := sample_env))
                (after (Write (E := sample_env) [1; 2; 3])
                   (sample_writer good_sink [WriterBlockSize 4096; WriterAddIndex true] []))) /\
     written w2 =
     written (after (CloseIndex (E := sample_env))
                (after (Write (E := sample_env) [1; 2; 3])
                   (sample_writer good_sink [WriterBlockSize 4096; WriterAddIndex true] []))) /\
     same_fields
       (after (CloseIndex (E := sample_env))
          (after (Write (E := sample_env) [1; 2; 3])
             (sample_writer good_sink [WriterBlockSize 4096; WriterAddIndex true] [])))
       w2).
Proof.
  refine (C7_close_again (E := sample_env)
            (after (Write (E := sample_env) [1; 2; 3])
               (sample_writer good_sink [WriterBlockSize 4096; WriterAddIndex true] []))
            (after (Close (E := sample_env))
               (after (Write (E := sample_env) [1; 2; 3])
                  (sample_writer good_sink [WriterBlockSize 4096; WriterAddIndex true] [])))
            (after (CloseIndex (E := sample_env))
               (after (Write (E := sample_env) [1; 2; 3])
                  (sample_writer good_sink [WriterBlockSize 4096; WriterAddIndex true] [])))
            (value_or ([], None)
               (CloseIndex (E := sample_env)
                  (after (Write (E := sample_env) [1; 2; 3])
                     (sample_writer good_sink [WriterBlockSize 4096; WriterAddIndex true] []))))
            _ _); vm_compute; reflexivity.
Defined.

(** C8: the code departs from the claim on an empty write.  With
    [WriterFlushOnWrite], [Write] of no bytes followed by [Close] puts the
    stream header and the EOF chunk on the sink when [concurrency] is 1,
    and the EOF chunk alone when it is 2: [writeSync] sends the header
    before its loop, [write] inside it. *)
Theorem C8_empty_write :
  on_sink (after (Close (E := sample_env))
             (after (Write (E := sample_env) [])
                (sample_writer good_sink [WriterFlushOnWrite; WriterConcurrency 1] [])))
    = makeHeader (E := sample_env) 1048576 ++ eof0 (E := sample_env) /\
  on_sink (after (Close (E := sample_env))
             (after (Write (E := sample_env) [])
                (sample_writer good_sink [WriterFlushOnWrite; WriterConcurrency 2] [])))
    = eof0 (E := sample_env).
Proof. vm_compute. split; reflexivity. Qed.

(** C9 (as amended): for a block size from 4 KiB to 4 MiB the stream
    header is the magic chunk followed by one byte, the number of bits of
    [blockSize - 1] less 10, which is [floor(log2(blockSize - 1)) - 9]. *)
Theorem C9_header_byte {E : Env} (bs : Z) :
  4096 <= bs <= 4194304 ->
  makeHeader bs = magicChunk ++ [bits_Len (bs - 1) - 10] /\
  bits_Len (bs - 1) - 10 = Z.log2 (bs - 1) - 9.
Proof.
  intros Hb. rewrite (bits_Len_log2 (bs - 1)) by lia.
  split; [|lia]. rewrite (makeHeader_log2 bs Hb). f_equal. f_equal. lia.
Qed.

Lemma C9_header_byte_witness :
  makeHeader (E := sample_env) 1048576
    = magicChunk (Env := sample_env) ++ [bits_Len (1048576 - 1) - 10] /\
  bits_Len (1048576 - 1) - 10 = Z.log2 (1048576 - 1) - 9.
Proof.
  refine (C9_header_byte (E := sample_env) 1048576 _); run_it.
Defined.

(** C9, the claim as stated fails: for a block size of 4096 the byte after
    the magic chunk is 2, and [floor(log2(4095)) - 10] is 1. *)
Lemma C9_counterexample :
  makeHeader (E := sample_env) 4096 = magicChunk (Env := sample_env) ++ [2] /\
  Z.log2 (4096 - 1) - 10 = 1.
Proof. split; reflexivity. Qed.

(** C10: for [written >= 0] and [pad] from 2 to 4 MiB, [calcSkippableFrame]
    returns 0 or a size from the frame header up to, not including,
    [pad] plus the frame header; on such a size [skippableFrame] takes
    neither of its two size error branches, so its error is the one
    [io.ReadFull] gives on the random source, and nil for size 0. *)
Theorem C10_padding_frame {E : Env} (written pad : Z) :
  0 <= skippableFrameHeader ->
  0 <= written ->
  2 <= pad <= 4194304 ->
  pad <= maxBlockSize ->
  maxBlockSize + skippableFrameHeader < 2 ^ 63 ->
  exists add,
    calcSkippableFrame written pad = Val add /\
    (add = 0 \/ skippableFrameHeader <= add < pad + skippableFrameHeader) /\
    forall dst r,
      snd (fst (skippableFrame dst add r)) =
      if add =? 0 then None
      else snd (fst (ReadFull r (uint32 (add - skippableFrameHeader)))).
Proof.
  intros Hh Hw Hp Hm Hov.
  destruct (calcSkippableFrame_range written pad Hh Hw) as (add & Hrun & Hr); try lia.
  exists add. split; [exact Hrun|]. split; [exact Hr|].
  intros dst r. destruct (Z.eqb_spec add 0) as [->|Hnz].
  - rewrite skippableFrame_zero. reflexivity.
  - destruct Hr as [?|Hr]; [contradiction|].
    apply skippableFrame_in_range; [exact Hnz|lia|lia].
Qed.

Lemma C10_padding_frame_witness :
  exists add,
    calcSkippableFrame (E := sample_env) 10 8 = Val add /\
    (add = 0 \/ skippableFrameHeader (Env := sample_env) <= add
                < 8 + skippableFrameHeader (Env := sample_env)) /\
    forall dst r,
      snd (fst (skippableFrame (E := sample_env) dst add r)) =
      if add =? 0 then None
      else snd (fst (ReadFull r (uint32 (add - skippableFrameHeader (Env := sample_env))))).
Proof.
  refine (C10_padding_frame (E := sample_env) 10 8 _ _ _ _ _); run_it.
Defined.

(** * Further properties of the code *)

Section Options.
Context {E : Env}.

(** ** The options and [NewWriter] *)

Lemma apply_option_paramsOK o w :
  paramsOK (cfg (fst (apply_option o w))) = paramsOK (cfg w).
Proof.
  destruct o; cbn [apply_option]; cbv zeta;
    repeat match goal with
           | |- context [if ?x then _ else _] => destruct x
           end;
    reflexivity.
Qed.

Lemma apply_options_paramsOK opts :
  forall w, paramsOK (cfg (fst (apply_options opts w))) = paramsOK (cfg w).
Proof.
  induction opts as [|o opts IH]; intros w; cbn [apply_options]; [reflexivity|].
  pose proof (apply_option_paramsOK o w) as Ho.
  destruct (apply_option o w) as [w1 e1]. cbn [fst] in Ho.
  destruct e1 as [e1|]; [exact Ho|]. rewrite IH. exact Ho.
Qed.

End Options.

(** A writer whose options failed holds the error for good: [NewWriter]
    leaves [paramsOK] unset, so [Reset] returns at once, and [Write]
    returns the error without writing. *)
Theorem failed_options_are_final {E : Env} (wr : option Sink) (opts : list WriterOption)
    (rnd : Reader) (pool0 : list (list Z)) (sched0 : list nat) (w0 : Writer) :
  NewWriter wr opts rnd pool0 sched0 = Val w0 ->
  paramsOK (cfg w0) = false ->
  exists e,
    errState w0 = Some e /\
    sinkLog w0 = [] /\
    (forall wr', Reset wr' w0 = Val (tt, w0)) /\
    (forall p, exists w', Write p w0 = Val ((0, Some e), w') /\ sinkLog w' = []).
Proof.
  intros Hnew Hp.
  assert (Hreset : forall wr', Reset wr' w0 = Val (tt, w0)).
  { intros wr'. unfold Reset, bind. cbn [get]. rewrite Hp. reflexivity. }
  revert Hnew. unfold NewWriter. cbv zeta.
  match goal with
  | |- context [apply_options opts ?w] =>
      pose proof (apply_options_fields opts w) as Hf;
      pose proof (apply_options_paramsOK opts w) as Hq;
      destruct (apply_options opts w) as [w3 e]
  end.
  cbv zeta in Hf. cbn [fst] in Hf, Hq. proj.
  destruct Hf as (F1 & F2 & F3 & F4 & F5).
  destruct e as [e|].
  - intros H. injection H as <-. exists e. proj.
    split; [reflexivity|]. split; [exact F5|]. split; [exact Hreset|].
    intros p.
    destruct (Write_latched p (set_errState (Some e) w3) e eq_refl) as (w' & Hrun & Hq').
    exists w'. split; [exact Hrun|]. rewrite (quiet_sinkLog _ _ Hq'). exact F5.
  - destruct (blockSize (cfg w3) <? 0); [discriminate|].
    match goal with
    | |- match Reset wr ?w with _ => _ end = _ -> _ =>
        pose proof (Reset_Inv (cfg w) wr w) as HR; destruct (Reset wr w) as [[u w5]| |]
    end; try discriminate.
    intros H. injection H as <-.
    match type of HR with
    | ?P -> _ => assert (H5 : P) by (apply Inv_fresh; proj; assumption)
    end.
    specialize (HR H5). destruct HR as (Hc & _). rewrite Hc in Hp. proj. discriminate.
Qed.

Lemma failed_options_are_final_witness :
  exists e,
    errState (sample_writer good_sink [WriterBlockSize 100] []) = Some e /\
    sinkLog (sample_writer good_sink [WriterBlockSize 100] []) = [] /\
    (forall wr', Reset (E := sample_env) wr' (sample_writer good_sink [WriterBlockSize 100] [])
                 = Val (tt, sample_writer good_sink [WriterBlockSize 100] [])) /\
    (forall p, exists w',
        Write (E := sample_env) p (sample_writer good_sink [WriterBlockSize 100] [])
        = Val ((0, Some e), w') /\ sinkLog w' = []).
Proof.
  refine (failed_options_are_final (E := sample_env) (Some good_sink)
            [WriterBlockSize 100] (zero_reader 64) [] []
            (sample_writer good_sink [WriterBlockSize 100] []) _ _);
    vm_compute; reflexivity.
Defined.

(** An option that returns an error has changed nothing, with one
    exception: [WriterCreateIndex(false)] clears [genIndex] before it finds
    that an index was asked for. *)
Theorem rejected_option_changes_nothing {E : Env} (w : Writer) :
  1 <= maxBlockSize ->
  (forall o, (forall v, o <> WriterCreateIndex v) ->
             snd (apply_option o w) <> None -> fst (apply_option o w) = w) /\
  (appendIndex (cfg w) = true ->
   snd (apply_option (WriterCreateIndex false) w) <> None /\
   genIndex (cfg (fst (apply_option (WriterCreateIndex false) w))) = false).
Proof.
  intros Hm. split.
  - intros o Hno. destruct o; cbn [apply_option]; cbv zeta;
      try (intros H; exfalso; apply H; reflexivity).
    + destruct (n <=? 0); cbn [fst snd]; [reflexivity|intros H; exfalso; apply H; reflexivity].
    + destruct (v && negb (genIndex (cfg w))); cbn [fst snd];
        [reflexivity|intros H; exfalso; apply H; reflexivity].
    + destruct ((n <? 0) || (LevelSmallest <? n)); cbn [fst snd];
        [reflexivity|intros H; exfalso; apply H; reflexivity].
    + destruct ((maxBlockSize <? n) || (n <? minBlockSize)); cbn [fst snd];
        [reflexivity|intros H; exfalso; apply H; reflexivity].
    + destruct (n <=? 0); cbn [fst snd]; [reflexivity|].
      destruct (Z.ltb_spec maxBlockSize n) as [Hn|Hn]; cbn [fst snd].
      * destruct (Z.eqb_spec n 1); [lia|reflexivity].
      * intros H; exfalso; apply H; reflexivity.
    + exfalso. apply (Hno v). reflexivity.
  - intros Ha. cbn [apply_option]. cbv zeta. rewrite Ha. cbn [negb andb fst snd cfg set_cfg genIndex].
    split; [discriminate|reflexivity].
Qed.

Lemma rejected_option_changes_nothing_witness :
  (forall o, (forall v, o <> WriterCreateIndex v) ->
             snd (apply_option (E := sample_env) o
                    (sample_writer good_sink [WriterAddIndex true] [])) <> None ->
             fst (apply_option (E := sample_env) o
                    (sample_writer good_sink [WriterAddIndex true] []))
             = sample_writer good_sink [WriterAddIndex true] []) /\
  (appendIndex (cfg (sample_writer good_sink [WriterAddIndex true] [])) = true ->
   snd (apply_option (E := sample_env) (WriterCreateIndex false)
          (sample_writer good_sink [WriterAddIndex true] [])) <> None /\
   genIndex (cfg (fst (apply_option (E := sample_env) (WriterCreateIndex false)
                         (sample_writer good_sink [WriterAddIndex true] [])))) = false).
Proof.
  refine (rejected_option_changes_nothing (E := sample_env)
            (sample_writer good_sink [WriterAddIndex true] []) _); run_it.
Defined.

(** What each validating option accepts. *)
Theorem option_accepted_iff {E : Env} (w : Writer) :
  (forall n, snd (apply_option (WriterConcurrency n) w) = None <-> 0 < n) /\
  (forall n, snd (apply_option (WriterLevel n) w) = None <-> 0 <= n <= LevelSmallest) /\
  (forall n, snd (apply_option (WriterBlockSize n) w) = None
             <-> minBlockSize <= n <= maxBlockSize) /\
  (forall n, snd (apply_option (WriterPadding n) w) = None <-> 0 < n <= maxBlockSize) /\
  (forall v, snd (apply_option (WriterAddIndex v) w) = None
             <-> (v = true -> genIndex (cfg w) = true)) /\
  (forall v, snd (apply_option (WriterCreateIndex v) w) = None
             <-> (v = false -> appendIndex (cfg w) = false)).
Proof.
  split; [|split; [|split; [|split; [|split]]]]; intros x; split; intros H;
    cbn [apply_option] in *; cbv zeta in *;
    repeat match goal with
           | H : context [Z.leb ?a ?b] |- _ => destruct (Z.leb_spec a b)
           | H : context [Z.ltb ?a ?b] |- _ => destruct (Z.ltb_spec a b)
           | |- context [Z.leb ?a ?b] => destruct (Z.leb_spec a b)
           | |- context [Z.ltb ?a ?b] => destruct (Z.ltb_spec a b)
           end;
    cbn [orb snd] in *; try discriminate; try reflexivity; try lia.
  - intros ->. destruct (genIndex (cfg w)); [reflexivity|discriminate].
  - destruct x; [rewrite (H eq_refl)|]; reflexivity.
  - intros ->. destruct (appendIndex (cfg w)); [discriminate|reflexivity].
  - destruct x; [reflexivity|]. rewrite (H eq_refl). reflexivity.
Qed.

Section Served.
Context {E : Env}.

(** ** A call on a writer whose dispatcher is at work *)

Lemma queue_after_after k j o : queue_after k (queue_after j o) = queue_after (j + k) o.
Proof.
  destruct o as [q|]; [|reflexivity]. cbn [queue_after].
  rewrite skipn_skipn. do 2 f_equal. lia.
Qed.

Lemma dispatch_next_pops w s :
  writer w = Some s ->
  exists w', dispatch_next w = Val (tt, w') /\ front w' = front w /\
             sched w' = sched w /\ output w' = queue_after 1 (output w).
Proof.
  intros Hw. unfold dispatch_next. destruct (output w) as [[|r q]|] eqn:Ho.
  - exists w. rewrite Ho. auto.
  - destruct (dispatch_total r (set_output (Some q) w) s Hw) as (w' & -> & F & S & O).
    exists w'. proj. auto.
  - exists w. rewrite Ho. auto.
Qed.

Lemma dispatcher_run_pops k : forall w s,
  writer w = Some s ->
  exists w', dispatcher_run k w = Val (tt, w') /\ front w' = front w /\
             sched w' = sched w /\ output w' = queue_after k (output w).
Proof.
  induction k as [|k IH]; intros w s Hw.
  - exists w. destruct (output w); auto.
  - cbn [dispatcher_run]. unfold bind.
    destruct (dispatch_next_pops w s Hw) as (w1 & -> & F1 & S1 & O1).
    destruct (IH w1 s) as (w2 & -> & F2 & S2 & O2).
    { rewrite (front_writer _ _ F1). exact Hw. }
    exists w2. split; [reflexivity|]. split; [congruence|]. split; [congruence|].
    rewrite O2, O1. apply queue_after_after.
Qed.


(** [Writer.err] on a writer with a sink: it returns what the cell holds
    afterwards and touches none of the caller's fields; the dispatcher may
    have served some slots meanwhile, and none when there is no channel. *)
Lemma Writer_err_pops e w s :
  writer w = Some s ->
  exists k w',
    Writer_err e w = Val (errState w', w') /\ front w' = front w /\
    output w' = queue_after k (output w) /\
    (e <> None -> errState w' <> None) /\
    (output w = None ->
     sinkLog w' = sinkLog w /\ written w' = written w /\
     (e = None -> errState w' = errState w)).
Proof.
  intros Hw. unfold Writer_err. unfold bind.
  assert (Hy : exists k w1, yield w = Val (tt, w1) /\ front w1 = front w /\
                            output w1 = queue_after k (output w) /\
                            (output w = None -> w1 = set_sched (tl (sched w)) w)).
  { destruct (output w) as [q|] eqn:Ho.
    - unfold yield. destruct (sched w) as [|k sc] eqn:Hs.
      + exists 0%nat, w. rewrite Ho. repeat split; try reflexivity. discriminate.
      + destruct (dispatcher_run_pops k (set_sched sc w) s Hw) as (w1 & -> & F & _ & O).
        exists k, w1. proj. rewrite Ho in O. repeat split; try assumption. discriminate.
    - exists 0%nat. eexists. rewrite yield_idle by exact Ho.
      split; [reflexivity|]. repeat split; try reflexivity. proj. rewrite Ho. reflexivity. }
  destruct Hy as (k & w1 & -> & F & O & Hidle).
  exists k. unfold err_cell.
  destruct (errState w1) as [e1|] eqn:He1.
  - exists w1. rewrite He1. split; [reflexivity|]. split; [exact F|]. split; [exact O|].
    split; [discriminate|]. intros Ho. specialize (Hidle Ho). subst w1. proj.
    repeat split; try reflexivity. intros _. symmetry. exact He1.
  - destruct e as [e|].
    + exists (set_errState (Some e) w1). proj.
      split; [reflexivity|]. split; [exact F|]. split; [exact O|].
      split; [discriminate|]. intros Ho. specialize (Hidle Ho). subst w1. proj.
      repeat split; try reflexivity. intros H; discriminate H.
    + exists w1. rewrite He1. split; [reflexivity|]. split; [exact F|]. split; [exact O|].
      split; [intros H; contradiction|]. intros Ho. specialize (Hidle Ho). subst w1. proj.
      repeat split; try reflexivity. intros _. symmetry. exact He1.
Qed.

End Served.



(** [AddUserChunk] with an id outside the user range or data above the
    maximum chunk size, on a writer with a sink: the call returns an
    error and leaves the writer as [w.err(nil)] leaves it, with nothing
    queued or written by the call itself.  The error is the one in the
    cell when there is one (set before the call, or by the dispatcher
    meanwhile); otherwise the cell stays empty and the writer usable. *)
Theorem AddUserChunk_rejects {E : Env} (id : Z) (data : list Z) (w : Writer) (s : Sink) :
  writer w = Some s ->
  id < MinUserSkippableChunk \/ ChunkTypePadding < id \/ MaxUserChunkSize < len data ->
  exists e k w',
    AddUserChunk id data w = Val (Some e, w') /\
    Writer_err None w = Val (errState w', w') /\
    (errState w' = None \/ errState w' = Some e) /\
    front w' = front w /\
    output w' = queue_after k (output w) /\
    (output w = None ->
     sinkLog w' = sinkLog w /\ written w' = written w /\ errState w' = errState w).
Proof.
  intros Hw Hbad.
  destruct (Writer_err_pops None w s Hw) as (k & w1 & Hrun & F & O & _ & Hidle).
  assert (Hend : output w = None ->
                 sinkLog w1 = sinkLog w /\ written w1 = written w /\
                 errState w1 = errState w).
  { intros Ho. destruct (Hidle Ho) as (H1 & H2 & H3). auto. }
  clear Hidle.
  assert (Hret : exists e, AddUserChunk id data w = Val (Some e, w1) /\
                           (errState w1 = None \/ errState w1 = Some e)).
  { unfold AddUserChunk. unfold bind at 1. rewrite Hrun.
    destruct (errState w1) as [e1|].
    - exists e1. split; [reflexivity|right; reflexivity].
    - destruct ((id <? MinUserSkippableChunk) || (ChunkTypePadding <? id)) eqn:Hid.
      + eexists. split; [reflexivity|left; reflexivity].
      + destruct (Z.ltb_spec MaxUserChunkSize (len data)) as [Hl|Hl].
        * eexists. split; [reflexivity|left; reflexivity].
        * apply orb_false_iff in Hid. destruct Hid as (H1 & H2).
          apply Z.ltb_ge in H1. apply Z.ltb_ge in H2. lia. }
  destruct Hret as (e & Hret & Hcell).
  exists e, k, w1. repeat (split; [assumption|]). exact Hend.
Qed.

Lemma AddUserChunk_rejects_witness :
  exists e k w',
    AddUserChunk (E := sample_env) 5 [1; 2]
      (after (Write (E := sample_env) [1; 2; 3])
         (sample_writer good_sink [WriterFlushOnWrite] [0%nat; 0%nat; 1%nat]))
    = Val (Some e, w') /\
    Writer_err (E := sample_env) None
      (after (Write (E := sample_env) [1; 2; 3])
         (sample_writer good_sink [WriterFlushOnWrite] [0%nat; 0%nat; 1%nat]))
    = Val (errState w', w') /\
    (errState w' = None \/ errState w' = Some e) /\
    front w' = front (after (Write (E := sample_env) [1; 2; 3])
                        (sample_writer good_sink [WriterFlushOnWrite]
                           [0%nat; 0%nat; 1%nat])) /\
    output w' = queue_after k
                  (output (after (Write (E := sample_env) [1; 2; 3])
                             (sample_writer good_sink [WriterFlushOnWrite]
                                [0%nat; 0%nat; 1%nat]))) /\
    (output (after (Write (E := sample_env) [1; 2; 3])
               (sample_writer good_sink [WriterFlushOnWrite] [0%nat; 0%nat; 1%nat]))
     = None ->
     sinkLog w' = sinkLog (after (Write (E := sample_env) [1; 2; 3])
                             (sample_writer good_sink [WriterFlushOnWrite]
                                [0%nat; 0%nat; 1%nat])) /\
     written w' = written (after (Write (E := sample_env) [1; 2; 3])
                             (sample_writer good_sink [WriterFlushOnWrite]
                                [0%nat; 0%nat; 1%nat])) /\
     errState w' = errState (after (Write (E := sample_env) [1; 2; 3])
                               (sample_writer good_sink [WriterFlushOnWrite]
                                  [0%nat; 0%nat; 1%nat]))).
Proof.
  refine (AddUserChunk_rejects (E := sample_env) 5 [1; 2]
            (after (Write (E := sample_env) [1; 2; 3])
               (sample_writer good_sink [WriterFlushOnWrite] [0%nat; 0%nat; 1%nat]))
            good_sink _ _); [run_it|left; run_it].
Defined.

(** [calcSkippableFrame] on any two [int64] values, for a frame header of
    at most [2^61]: it panics on a multiple that is not positive and on a
    negative count, and returns otherwise, either 0 or a size that is at
    least the frame header.  Its loop always ends, also when the sum wraps
    around. *)
Theorem calcSkippableFrame_returns {E : Env} (written pad : Z) :
  skippableFrameHeader <= 2 ^ 61 ->
  - 2 ^ 63 <= written < 2 ^ 63 ->
  - 2 ^ 63 <= pad < 2 ^ 63 ->
  (pad <= 0 -> calcSkippableFrame written pad = Panics "wantMultiple <= 0") /\
  (0 < pad -> written < 0 -> calcSkippableFrame written pad = Panics "written < 0") /\
  (0 < pad -> 0 <= written ->
   exists add, calcSkippableFrame written pad = Val add /\
               (add = 0 \/ skippableFrameHeader <= add)).
Proof.
  intros Hh Hw63 Hp63. split; [|split].
  - intros H. unfold calcSkippableFrame.
    destruct (Z.leb_spec pad 0); [reflexivity|lia].
  - intros H Hw. unfold calcSkippableFrame.
    destruct (Z.leb_spec pad 0); [lia|].
    destruct (Z.ltb_spec written 0); [reflexivity|lia].
  - intros H Hw. destruct (Z.eq_dec (written mod pad) 0) as [Hz|Hnz].
    + exists 0. split; [apply calcSkippableFrame_aligned; assumption|left; reflexivity].
    + unfold calcSkippableFrame.
      destruct (Z.leb_spec pad 0); [lia|].
      destruct (Z.ltb_spec written 0); [lia|].
      rewrite Z.rem_mod_nonneg by lia.
      destruct (Z.eqb_spec (written mod pad) 0); [contradiction|].
      pose proof (Z.mod_pos_bound written pad H) as Hb.
      rewrite int64_small by lia.
      destruct (calcSkippableFrame_loop_ends (pad - written mod pad) pad)
        as (add & Hrun & Hlo); try lia.
      exists add. split; [exact Hrun|right; exact Hlo].
Qed.

Lemma calcSkippableFrame_returns_witness :
  (9223372036854775807 <= 0 ->
   calcSkippableFrame (E := sample_env) 9223372036854775803 9223372036854775807
   = Panics "wantMultiple <= 0") /\
  (0 < 9223372036854775807 -> 9223372036854775803 < 0 ->
   calcSkippableFrame (E := sample_env) 9223372036854775803 9223372036854775807
   = Panics "written < 0") /\
  (0 < 9223372036854775807 -> 0 <= 9223372036854775803 ->
   exists add,
     calcSkippableFrame (E := sample_env) 9223372036854775803 9223372036854775807
     = Val add /\
     (add = 0 \/ skippableFrameHeader (Env := sample_env) <= add)).
Proof.
  refine (calcSkippableFrame_returns (E := sample_env)
            9223372036854775803 9223372036854775807 _ _ _); run_it.
Defined.

(** A skippable frame of a size in range, from a source that holds enough
    bytes: the padding chunk type, the 24-bit length [total] less the
    frame header, and that many bytes of the source.  The frame is
    [4 + total - skippableFrameHeader] bytes long. *)
Theorem skippableFrame_layout {E : Env} (dst : list Z) (total : Z) (r : Reader) :
  skippableFrameHeader <= total < maxBlockSize + skippableFrameHeader ->
  total <> 0 ->
  - 2 ^ 63 <= total < 2 ^ 63 ->
  total - skippableFrameHeader < 2 ^ 32 ->
  total - skippableFrameHeader <= len (rd_data r) ->
  fst (fst (skippableFrame dst total r)) =
    dst ++ ChunkTypePadding :: le24 (total - skippableFrameHeader)
        ++ take (total - skippableFrameHeader) (rd_data r) /\
  snd (fst (skippableFrame dst total r)) = None /\
  len (fst (fst (skippableFrame dst total r)))
    = len dst + 4 + (total - skippableFrameHeader).
Proof.
  intros Hr Hnz H63 H32 Hdata.
  assert (Hf : uint32 (total - skippableFrameHeader) = total - skippableFrameHeader)
    by (apply uint32_small; lia).
  assert (Hfr : fst (skippableFrame dst total r) =
                (dst ++ ChunkTypePadding :: le24 (total - skippableFrameHeader)
                     ++ take (total - skippableFrameHeader) (rd_data r), None)).
  { unfold skippableFrame.
    destruct (Z.eqb_spec total 0) as [?|_]; [contradiction|].
    destruct (Z.ltb_spec total skippableFrameHeader) as [?|_]; [lia|].
    rewrite (int64_small total) by lia.
    destruct (Z.leb_spec (maxBlockSize + skippableFrameHeader) total) as [?|_]; [lia|].
    cbv zeta. rewrite Hf. unfold ReadFull.
    destruct (Z.leb_spec (total - skippableFrameHeader) 0) as [H0|H0].
    - cbn [fst]. assert (total - skippableFrameHeader = 0) as -> by lia.
      rewrite take_0. cbn [len List.length Z.of_nat Z.sub Z.to_nat repeat].
      rewrite <- !app_assoc. reflexivity.
    - destruct (Z.leb_spec (total - skippableFrameHeader) (len (rd_data r))); [|lia].
      cbn [fst]. rewrite len_take by lia.
      rewrite Z.min_l by lia. rewrite Z.sub_diag. cbn [Z.to_nat repeat].
      rewrite app_nil_r, <- !app_assoc. reflexivity. }
  rewrite Hfr. cbn [fst snd]. split; [reflexivity|]. split; [reflexivity|].
  rewrite len_app, len_cons, len_app. change (len (le24 (total - skippableFrameHeader))) with 3.
  rewrite len_take by lia. lia.
Qed.

Lemma skippableFrame_layout_witness :
  fst (fst (skippableFrame (E := sample_env) [] 8 (zero_reader 64))) =
    [] ++ ChunkTypePadding (Env := sample_env)
       :: le24 (8 - skippableFrameHeader (Env := sample_env))
       ++ take (8 - skippableFrameHeader (Env := sample_env)) (rd_data (zero_reader 64)) /\
  snd (fst (skippableFrame (E := sample_env) [] 8 (zero_reader 64))) = None /\
  len (fst (fst (skippableFrame (E := sample_env) [] 8 (zero_reader 64))))
    = len (@nil Z) + 4 + (8 - skippableFrameHeader (Env := sample_env)).
Proof.
  refine (skippableFrame_layout (E := sample_env) [] 8 (zero_reader 64) _ _ _ _ _); run_it.
Defined.

Section Dispatcher.
Context {E : Env}.

(** ** The dispatcher goroutine *)

Lemma dispatch_good r w s :
  errState w = None -> index w = None -> writer w = Some s ->
  (forall log d, s log d = (len d, None)) ->
  exists w',
    dispatch r w = Val (tt, w') /\
    errState w' = None /\ index w' = None /\ writer w' = Some s /\
    output w' = output w /\
    sinkLog w' = sinkLog w ++ filter (fun d => 0 <? len d) [b r].
Proof.
  intros He Hi Hw Hs. unfold dispatch. cbn [filter].
  destruct (0 <? len (b r)).
  2:{ exists w. rewrite app_nil_r. auto 10. }
  destruct w as [c es ib ic wr uw o wri rs ix wsh sl pl sc]. proj. subst.
  unfold bind at 1. unfold err_cell at 1. proj.
  unfold bind at 1. unfold writer_Write. proj. rewrite Hs.
  rewrite Z.eqb_refl.
  unfold bind at 1. unfold err_cell at 1. proj.
  unfold bind at 1. cbn [get].
  unfold bind at 1. unfold Index_add. proj.
  unfold bind at 1. unfold err_cell at 1. proj.
  cbn [modify]. eexists. split; [reflexivity|]. proj. auto 10.
Qed.

Lemma dispatcher_run_in_order q :
  forall w s,
  errState w = None -> index w = None -> writer w = Some s ->
  (forall log d, s log d = (len d, None)) ->
  output w = Some q ->
  exists w',
    dispatcher_run (List.length q) w = Val (tt, w') /\
    sinkLog w' = sinkLog w ++ filter (fun d => 0 <? len d) (map b q) /\
    output w' = Some [] /\ errState w' = None.
Proof.
  induction q as [|r q IH]; intros w s He Hi Hw Hs Ho; cbn [List.length dispatcher_run map].
  - exists w. cbn [filter]. rewrite app_nil_r. auto.
  - unfold bind at 1. unfold dispatch_next. rewrite Ho.
    destruct (dispatch_good r (set_output (Some q) w) s) as
      (w1 & Hrun & He1 & Hi1 & Hw1 & Ho1 & Hl1); proj; auto.
    rewrite Hrun.
    destruct (IH w1 s He1 Hi1 Hw1 Hs Ho1) as (w' & Hrun' & Hl' & Ho' & He').
    exists w'. split; [exact Hrun'|]. split; [|auto].
    rewrite Hl', Hl1. rewrite <- app_assoc. f_equal.
    cbn [filter]. destruct (0 <? len (b r)); reflexivity.
Qed.

Lemma dispatch_next_appends w :
  match dispatch_next w with
  | Val (_, w') => exists l, sinkLog w' = sinkLog w ++ l
  | Panics _ => True
  | Diverges => True
  end.
Proof.
  unfold dispatch_next. destruct (output w) as [[|r q]|];
    try (exists []; rewrite app_nil_r; reflexivity).
  pose proof (dispatch_effect r (set_output (Some q) w)) as Heff.
  destruct (dispatch r (set_output (Some q) w)) as [[u w']| |]; try exact I.
  destruct Heff as (_ & _ & [(Hl & _)|(_ & _ & Hl)]); proj.
  - exists []. rewrite app_nil_r. exact Hl.
  - eexists. exact Hl.
Qed.

End Dispatcher.

(** The dispatcher writes the queued payloads in the order they were
    queued, one sink call for each that is not empty: with no index, a sink
    that takes every byte and an empty error cell, draining the channel
    appends exactly these to what the sink has seen. *)
Theorem dispatcher_in_order {E : Env} (w : Writer) (s : Sink) (q : list result) :
  errState w = None ->
  index w = None ->
  writer w = Some s ->
  (forall log d, s log d = (len d, None)) ->
  output w = Some q ->
  exists w',
    dispatcher_drain w = Val (tt, w') /\
    sinkLog w' = sinkLog w ++ filter (fun d => 0 <? len d) (map b q) /\
    output w' = Some [] /\ errState w' = None.
Proof.
  intros He Hi Hw Hs Ho. unfold dispatcher_drain. rewrite Ho.
  exact (dispatcher_run_in_order q w s He Hi Hw Hs Ho).
Qed.

Lemma dispatcher_in_order_witness :
  exists w',
    dispatcher_drain (E := sample_env)
      (set_output (Some [ {| b := [1; 2]; startOffset := 0 |};
                          {| b := []; startOffset := 2 |};
                          {| b := [3]; startOffset := 2 |} ])
         (sample_writer good_sink [WriterConcurrency 2; WriterCreateIndex false] []))
    = Val (tt, w') /\
    sinkLog w' =
      sinkLog (set_output (Some [ {| b := [1; 2]; startOffset := 0 |};
                                  {| b := []; startOffset := 2 |};
                                  {| b := [3]; startOffset := 2 |} ])
                 (sample_writer good_sink [WriterConcurrency 2; WriterCreateIndex false] []))
      ++ filter (fun d => 0 <? len d)
           (map b [ {| b := [1; 2]; startOffset := 0 |};
                    {| b := []; startOffset := 2 |};
                    {| b := [3]; startOffset := 2 |} ]) /\
    output w' = Some [] /\ errState w' = None.
Proof.
  refine (dispatcher_in_order (E := sample_env)
            (set_output (Some [ {| b := [1; 2]; startOffset := 0 |};
                                {| b := []; startOffset := 2 |};
                                {| b := [3]; startOffset := 2 |} ])
               (sample_writer good_sink [WriterConcurrency 2; WriterCreateIndex false] []))
            good_sink _ _ _ _ _ _); run_it.
Defined.

(** However many slots the dispatcher serves, it returns when there is a
    sink, changes none of the fields the caller's goroutine works on, and
    only appends to what the sink has seen. *)
Theorem dispatcher_only_appends {E : Env} (k : nat) (w : Writer) (s : Sink) :
  writer w = Some s ->
  exists w' l,
    dispatcher_run k w = Val (tt, w') /\
    front w' = front w /\
    sinkLog w' = sinkLog w ++ l.
Proof.
  revert w. induction k as [|k IH]; intros w Hw; cbn [dispatcher_run].
  - exists w, []. rewrite app_nil_r. auto.
  - unfold bind at 1.
    destruct (dispatch_next_total w s Hw) as (w1 & Hrun & Hf & _).
    pose proof (dispatch_next_appends w) as Ha. rewrite Hrun in *.
    destruct Ha as (l1 & Hl1).
    assert (Hw1 : writer w1 = Some s) by (rewrite (front_writer _ _ Hf); exact Hw).
    destruct (IH w1 Hw1) as (w' & l & Hrun' & Hf' & Hl').
    exists w', (l1 ++ l). split; [exact Hrun'|]. split; [congruence|].
    rewrite Hl', Hl1. apply eq_sym, app_assoc.
Qed.

Lemma dispatcher_only_appends_witness :
  exists w' l,
    dispatcher_run (E := sample_env) 3
      (set_output (Some [ {| b := [1; 2]; startOffset := 0 |} ])
         (sample_writer short_sink [WriterConcurrency 2] []))
    = Val (tt, w') /\
    front w' = front (set_output (Some [ {| b := [1; 2]; startOffset := 0 |} ])
                        (sample_writer short_sink [WriterConcurrency 2] [])) /\
    sinkLog w' = sinkLog (set_output (Some [ {| b := [1; 2]; startOffset := 0 |} ])
                            (sample_writer short_sink [WriterConcurrency 2] [])) ++ l.
Proof.
  refine (dispatcher_only_appends (E := sample_env) 3
            (set_output (Some [ {| b := [1; 2]; startOffset := 0 |} ])
               (sample_writer short_sink [WriterConcurrency 2] []))
            short_sink _); run_it.
Defined.

(** No call changes the configuration [NewWriter] fixed, and a writer
    with [concurrency] 1 never has an ordering channel. *)
Theorem run_keeps_config {E : Env} (wr : option Sink) (opts : list WriterOption)
    (rnd : Reader) (pool0 : list (list Z)) (sched0 : list nat)
    (w0 : Writer) (ks : list Call) (u : unit) (w : Writer) :
  NewWriter wr opts rnd pool0 sched0 = Val w0 ->
  run ks w0 = Val (u, w) ->
  cfg w = cfg w0 /\ (concurrency (cfg w0) = 1 -> output w = None).
Proof.
  intros Hnew Hrun.
  pose proof (NewWriter_Inv wr opts rnd pool0 sched0 w0 Hnew) as H0.
  pose proof (run_Inv (cfg w0) ks w0 H0) as H. rewrite Hrun in H.
  destruct H as (H1 & H2 & _). split; assumption.
Qed.

Lemma run_keeps_config_witness :
  cfg (after (run (E := sample_env)
                [CallWrite [1; 2; 3]; CallFlush; CallReset (Some good_sink); CallClose])
         (sample_writer good_sink [WriterBlockSize 4096; WriterConcurrency 1] []))
  = cfg (sample_writer good_sink [WriterBlockSize 4096; WriterConcurrency 1] []) /\
  (concurrency (cfg (sample_writer good_sink [WriterBlockSize 4096; WriterConcurrency 1] [])) = 1 ->
   output (after (run (E := sample_env)
                    [CallWrite [1; 2; 3]; CallFlush; CallReset (Some good_sink); CallClose])
             (sample_writer good_sink [WriterBlockSize 4096; WriterConcurrency 1] []))
   = None).
Proof.
  refine (run_keeps_config (E := sample_env) (Some good_sink)
            [WriterBlockSize 4096; WriterConcurrency 1] (zero_reader 64) [] []
            (sample_writer good_sink [WriterBlockSize 4096; WriterConcurrency 1] [])
            [CallWrite [1; 2; 3]; CallFlush; CallReset (Some good_sink); CallClose] tt
            (after (run (E := sample_env)
                      [CallWrite [1; 2; 3]; CallFlush; CallReset (Some good_sink); CallClose])
               (sample_writer good_sink [WriterBlockSize 4096; WriterConcurrency 1] []))
            _ _); vm_compute; reflexivity.
Defined.

Section FlushValue.
Context {E : Env}.

(** [Flush] returns nil only with an empty error cell. *)
Lemma Flush_nil_cell :
  hoare (fun _ => True) Flush (fun e w => e = None -> errState w = None).
Proof.
  assert (Hend : hoare (fun _ => True) (Writer_err None)
                   (fun e w => e = None -> errState w = None)).
  { eapply hoare_post.
    - apply (Writer_err_value None (fun _ => True)); intros w _;
        [destruct (yield w) as [[? ?]| |]|destruct (err_cell None w) as [[? ?]| |]];
        exact I.
    - intros a w (Ha & _) Hn. congruence. }
  unfold Flush. eapply hoare_bind; [apply hoare_any|].
  intros [e|]; [apply hoare_ret; intros w _ H; discriminate|].
  eapply hoare_bind; [apply hoare_any|]. intros w0.
  destruct (output w0); [|eapply hoare_pre; [exact Hend|auto]].
  eapply hoare_bind; [apply hoare_any|]. intros _u.
  eapply hoare_bind; [apply hoare_any|]. intros _v.
  eapply hoare_pre; [exact Hend|auto].
Qed.

End FlushValue.

(** When [Flush] returns nil, nothing is left in the input buffer and the
    error cell is empty. *)
Theorem Flush_empties_buffer {E : Env} (w w' : Writer) :
  Flush w = Val (None, w') -> ibuf w' = [] /\ errState w' = None.
Proof.
  intros H.
  pose proof (Flush_flushed w I) as Hf. pose proof (Flush_nil_cell w I) as Hn.
  rewrite H in Hf, Hn. specialize (Hn eq_refl). split; [apply Hf; exact Hn|exact Hn].
Qed.

Lemma Flush_empties_buffer_witness :
  ibuf (after (Flush (E := sample_env))
          (after (Write (E := sample_env) [1; 2; 3])
             (sample_writer good_sink [WriterBlockSize 4096; WriterConcurrency 2]
                [0%nat; 1%nat]))) = [] /\
  errState (after (Flush (E := sample_env))
              (after (Write (E := sample_env) [1; 2; 3])
                 (sample_writer good_sink [WriterBlockSize 4096; WriterConcurrency 2]
                    [0%nat; 1%nat]))) = None.
Proof.
  refine (Flush_empties_buffer (E := sample_env)
            (after (Write (E := sample_env) [1; 2; 3])
               (sample_writer good_sink [WriterBlockSize 4096; WriterConcurrency 2]
                  [0%nat; 1%nat]))
            (after (Flush (E := sample_env))
               (after (Write (E := sample_env) [1; 2; 3])
                  (sample_writer good_sink [WriterBlockSize 4096; WriterConcurrency 2]
                     [0%nat; 1%nat]))) _); vm_compute; reflexivity.
Defined.

(** After a [Close] that returned nil the ordering channel is gone and the
    cell holds the closed error (or the nil-writer one), which every later
    [Write] returns without writing. *)
Theorem write_after_Close {E : Env} (w w1 : Writer) :
  Close w = Val (None, w1) ->
  exists e,
    (e = errClosed \/ e = errNilWriter) /\
    errState w1 = Some e /\
    output w1 = None /\
    forall p, exists w2, Write p w1 = Val ((0, Some e), w2) /\ sinkLog w2 = sinkLog w1.
Proof.
  intros H. destruct (Close_closeIndex w None w1 H) as (ix & Hc).
  destruct (closeIndex_result _ _ _ _ Hc) as ((Ho & Hs & _) & _).
  destruct (Hs eq_refl) as (He & _).
  assert (exists e, (e = errClosed \/ e = errNilWriter) /\ errState w1 = Some e)
    as (e & Hcase & Hee) by (destruct He as [He|He]; eauto).
  exists e. split; [exact Hcase|]. split; [exact Hee|]. split; [exact Ho|].
  intros p. destruct (Write_latched p w1 e Hee) as (w2 & Hrun & Hq).
  exists w2. split; [exact Hrun|]. apply (quiet_sinkLog _ _ Hq).
Qed.

Lemma write_after_Close_witness :
  exists e,
    (e = errClosed \/ e = errNilWriter) /\
    errState (after (Close (E := sample_env)) (sample_writer good_sink [] [])) = Some e /\
    output (after (Close (E := sample_env)) (sample_writer good_sink [] [])) = None /\
    forall p, exists w2,
      Write (E := sample_env) p
        (after (Close (E := sample_env)) (sample_writer good_sink [] []))
      = Val ((0, Some e), w2) /\
      sinkLog w2 = sinkLog (after (Close (E := sample_env)) (sample_writer good_sink [] [])).
Proof.
  refine (write_after_Close (E := sample_env) (sample_writer good_sink [] [])
            (after (Close (E := sample_env)) (sample_writer good_sink [] [])) _);
    vm_compute; reflexivity.
Defined.

(** [CloseIndex] on a writer that keeps no index fails before the EOF
    chunk: it returns an error, writes nothing and leaves the error cell
    empty, so the stream is not ended. *)
Theorem CloseIndex_without_index {E : Env} (w : Writer) :
  errState w = None -> output w = None -> index w = None -> ibuf w = [] ->
  exists e w',
    CloseIndex w = Val (([], Some e), w') /\
    errState w' = None /\ sinkLog w' = sinkLog w /\ written w' = written w.
Proof.
  intros He Ho Hi Hb.
  destruct (closeIndex_idle_no_index w He Ho Hi Hb) as (e & w' & Hrun & Hsame).
  exists e, w'. split; [exact Hrun|].
  destruct Hsame as (_ & He' & _ & _ & Hw' & _ & _ & _ & _ & _ & Hl' & _).
  split; [congruence|]. split; assumption.
Qed.

Lemma CloseIndex_without_index_witness :
  exists e w',
    CloseIndex (E := sample_env)
      (sample_writer good_sink [WriterConcurrency 1; WriterCreateIndex false] [])
    = Val (([], Some e), w') /\
    errState w' = None /\
    sinkLog w' = sinkLog (sample_writer good_sink
                            [WriterConcurrency 1; WriterCreateIndex false] []) /\
    written w' = written (sample_writer good_sink
                            [WriterConcurrency 1; WriterCreateIndex false] []).
Proof.
  refine (CloseIndex_without_index (E := sample_env)
            (sample_writer good_sink [WriterConcurrency 1; WriterCreateIndex false] [])
            _ _ _ _); run_it.
Defined.

(** Without [WriterFlushOnWrite], a [Write] that fits the free space of
    the input buffer, on a writer with a sink, queues nothing.  When no
    error is in the cell (none before, none set by the dispatcher
    meanwhile) the bytes are appended to [ibuf] and all of them are
    counted; otherwise the call returns 0 and that error and leaves
    [ibuf] alone.  The ordering channel only loses slots the dispatcher
    has served; with no channel the sink sees nothing. *)
Theorem Write_buffers {E : Env} (p : list Z) (w : Writer) (s : Sink) :
  writer w = Some s ->
  flushOnWrite (cfg w) = false ->
  len (ibuf w) <= ibufCap w ->
  len p <= ibufCap w - len (ibuf w) ->
  exists n k w',
    Write p w = Val ((n, errState w'), w') /\
    (errState w' = None -> n = len p /\ ibuf w' = ibuf w ++ p) /\
    (errState w' <> None -> n = 0 /\ ibuf w' = ibuf w) /\
    output w' = queue_after k (output w) /\
    wroteStreamHeader w' = wroteStreamHeader w /\
    uncompWritten w' = uncompWritten w /\
    (output w = None ->
     sinkLog w' = sinkLog w /\ written w' = written w /\ errState w' = errState w).
Proof.
  intros Hw Hf Hcap Hfit.
  destruct (Writer_err_pops None w s Hw) as (k1 & w1 & Hrun1 & F1 & O1 & _ & Hidle1).
  assert (Hw1 : writer w1 = Some s) by (rewrite (front_writer _ _ F1); exact Hw).
  destruct (Writer_err_pops None w1 s Hw1) as (k2 & w2 & Hrun2 & F2 & O2 & _ & Hidle2).
  assert (Hfr1 : cfg w1 = cfg w /\ ibuf w1 = ibuf w /\ ibufCap w1 = ibufCap w /\
                 uncompWritten w1 = uncompWritten w /\
                 wroteStreamHeader w1 = wroteStreamHeader w).
  { unfold front in F1. injection F1. intros. auto. }
  assert (Hfr2 : cfg w2 = cfg w1 /\ ibuf w2 = ibuf w1 /\ ibufCap w2 = ibufCap w1 /\
                 uncompWritten w2 = uncompWritten w1 /\
                 wroteStreamHeader w2 = wroteStreamHeader w1).
  { unfold front in F2. injection F2. intros. auto. }
  destruct Hfr1 as (C1 & B1 & K1 & U1 & S1). destruct Hfr2 as (C2 & B2 & K2 & U2 & S2).
  unfold Write. unfold bind at 1. rewrite Hrun1.
  destruct (errState w1) as [e1|] eqn:He1.
  { cbn [ret]. exists 0, k1, w1. rewrite He1.
    split; [reflexivity|]. split; [discriminate|]. split; [auto|].
    split; [exact O1|]. split; [exact S1|]. split; [exact U1|].
    intros Ho. destruct (Hidle1 Ho) as (H1 & H2 & H3). auto. }
  unfold bind at 1. cbn [get]. rewrite C1, Hf.
  unfold bind at 1.
  assert (Hloop : Write_loop (3 + List.length p) p 0 w1 = Val ((p, 0), w1)).
  { cbn [Nat.add Write_loop]. unfold bind at 1. cbn [get]. rewrite K1, B1.
    destruct (Z.ltb_spec (ibufCap w - len (ibuf w)) (len p)); [lia|]. reflexivity. }
  rewrite Hloop.
  unfold bind at 1. rewrite Hrun2.
  assert (Hq : output w2 = queue_after (k1 + k2) (output w))
    by (rewrite O2, O1; apply queue_after_after).
  assert (Hidle : output w = None ->
                  sinkLog w2 = sinkLog w /\ written w2 = written w /\
                  errState w2 = errState w).
  { intros Ho. destruct (Hidle1 Ho) as (H1 & H2 & H3).
    assert (Ho1 : output w1 = None) by (rewrite O1, Ho; reflexivity).
    destruct (Hidle2 Ho1) as (H4 & H5 & H6).
    repeat split; [congruence|congruence|].
    rewrite (H6 eq_refl). apply H3. reflexivity. }
  destruct (errState w2) as [e2|] eqn:He2.
  { cbn [ret]. exists 0, (k1 + k2)%nat, w2. rewrite He2.
    split; [reflexivity|]. split; [discriminate|].
    split; [intros _; split; [reflexivity|congruence]|].
    split; [exact Hq|]. split; [congruence|]. split; [congruence|].
    exact Hidle. }
  unfold bind at 1. cbn [get]. rewrite K2, K1, B2, B1.
  destruct (Z.ltb_spec (ibufCap w) (len (ibuf w))); [lia|].
  unfold bind at 1. cbn [ret]. unfold bind at 1. cbn [modify ret].
  rewrite Z.min_r by lia. rewrite take_all by lia.
  exists (len p), (k1 + k2)%nat, (set_ibuf (ibuf w ++ p) w2). proj. rewrite He2.
  split; [reflexivity|].
  split; [intros _; split; reflexivity|].
  split; [intros Hne; contradiction Hne; reflexivity|].
  split; [exact Hq|]. split; [congruence|]. split; [congruence|].
  exact Hidle.
Qed.

Lemma Write_buffers_witness :
  exists n k w',
    Write (E := sample_env) [1; 2; 3]
      (sample_writer good_sink [WriterBlockSize 4096] [1%nat])
    = Val ((n, errState w'), w') /\
    (errState w' = None ->
     n = len [1; 2; 3] /\
     ibuf w' = ibuf (sample_writer good_sink [WriterBlockSize 4096] [1%nat])
               ++ [1; 2; 3]) /\
    (errState w' <> None ->
     n = 0 /\ ibuf w' = ibuf (sample_writer good_sink [WriterBlockSize 4096] [1%nat])) /\
    output w' = queue_after k
                  (output (sample_writer good_sink [WriterBlockSize 4096] [1%nat])) /\
    wroteStreamHeader w'
    = wroteStreamHeader (sample_writer good_sink [WriterBlockSize 4096] [1%nat]) /\
    uncompWritten w'
    = uncompWritten (sample_writer good_sink [WriterBlockSize 4096] [1%nat]) /\
    (output (sample_writer good_sink [WriterBlockSize 4096] [1%nat]) = None ->
     sinkLog w' = sinkLog (sample_writer good_sink [WriterBlockSize 4096] [1%nat]) /\
     written w' = written (sample_writer good_sink [WriterBlockSize 4096] [1%nat]) /\
     errState w' = errState (sample_writer good_sink [WriterBlockSize 4096] [1%nat])).
Proof.
  refine (Write_buffers (E := sample_env) [1; 2; 3]
            (sample_writer good_sink [WriterBlockSize 4096] [1%nat]) good_sink
            _ _ _ _); run_it.
Defined.

Section EncodeBufferJob.
Context {E : Env}.

Lemma EncodeBuffer_job_declined c arr src :
  obufHeaderLen = 8 ->
  0 < len src < 2 ^ 64 ->
  len src + 8 <= len arr ->
  (forall dst dlen, fst (Writer_encodeBlock c dst dlen src) <= 0) ->
  EncodeBuffer_job c arr src
  = Val (chunk (uint8 chunkTypeUncompressedData) (le32 (crc src) ++ src)).
Proof.
  intros H8 Hsrc Harr Hk. unfold EncodeBuffer_job. cbv zeta. rewrite H8.
  set (l := len src + 8).
  unfold reslice at 1.
  destruct (Z.ltb_spec l 0); [lia|]. destruct (Z.ltb_spec (len arr) l); [lia|].
  cbn [orb rbind].
  assert (Hl : len (take l arr) = l) by (rewrite len_take by lia; lia).
  unfold slice_from. rewrite Hl.
  destruct (Z.ltb_spec 8 0); [lia|]. destruct (Z.ltb_spec l 8); [lia|].
  cbn [orb rbind].
  rewrite (uint64_small (len src)) by lia.
  set (v := uvarint (len src)).
  assert (Hv : len v <= len src) by (apply uvarint_le_len; lia).
  pose proof (uvarint_len (len src)) as Hv1. fold v in Hv1.
  assert (Htail : len (drop 8 (take l arr)) = len src)
    by (rewrite len_drop by lia; rewrite Hl; lia).
  rewrite (PutUvarint_fits (drop 8 (take l arr)) (len src)) by (fold v; lia).
  fold v. cbn [rbind].
  set (tail1 := v ++ drop (len v) (drop 8 (take l arr))).
  assert (Ht1 : len tail1 = len src).
  { unfold tail1. rewrite len_app, len_drop by lia. lia. }
  set (arr1 := copy_at arr 8 tail1).
  assert (Ha1 : len arr1 = len arr) by (apply len_copy_at; lia).
  pose proof (Writer_encodeBlock_len c (drop (8 + len v) arr1) (len tail1 - len v) src) as Hlen.
  specialize (Hk (drop (8 + len v) arr1) (len tail1 - len v)).
  destruct (Writer_encodeBlock c (drop (8 + len v) arr1) (len tail1 - len v) src)
    as [n2 tail2].
  cbn [fst snd] in Hlen, Hk.
  destruct (Z.ltb_spec 0 n2); [lia|].
  set (arr2 := take (8 + len v) arr1 ++ tail2).
  assert (Ha2 : len arr2 = len arr).
  { unfold arr2. rewrite len_app, Hlen, len_take, len_drop by lia. lia. }
  assert (Hl2 : len (take l arr2) = l) by (rewrite len_take by lia; lia).
  apply fill_header_chunk. right.
  rewrite copy_at_inside by lia.
  rewrite (drop_all (8 + len src)) by lia.
  rewrite app_nil_r. split.
  - rewrite len_app, len_take by lia. lia.
  - apply drop_app_exact. rewrite len_take by lia. lia.
Qed.

End EncodeBufferJob.

(** The goroutine of [EncodeBuffer] stores a block the kernel declines as
    the same UncompressedData chunk as [write] and [writeSync]: type byte,
    24-bit length [4 + len src], masked CRC, the bytes. *)
Theorem EncodeBuffer_stores_declined {E : Env} (c : Config) (arr src : list Z) :
  obufHeaderLen = 8 ->
  0 < len src < 2 ^ 24 - 4 ->
  len src + 8 <= len arr ->
  (forall dst dlen, fst (Writer_encodeBlock c dst dlen src) <= 0) ->
  EncodeBuffer_job c arr src
  = Val (chunk (uint8 chunkTypeUncompressedData) (le32 (crc src) ++ src)) /\
  le_value (le24 (len (le32 (crc src) ++ src))) = 4 + len src.
Proof.
  intros H8 Hsrc Harr Hk. split.
  - apply EncodeBuffer_job_declined; [exact H8|lia|exact Harr|exact Hk].
  - apply stored_length. lia.
Qed.

Lemma EncodeBuffer_stores_declined_witness :
  EncodeBuffer_job (E := sample_env)
    (cfg (sample_writer good_sink [WriterBlockSize 4096] [])) (repeat 0 4248) [1; 2; 3]
  = Val (chunk (uint8 (chunkTypeUncompressedData (Env := sample_env)))
           (le32 (crc [1; 2; 3]) ++ [1; 2; 3])) /\
  le_value (le24 (len (le32 (crc [1; 2; 3]) ++ [1; 2; 3]))) = 4 + len [1; 2; 3].
Proof.
  refine (EncodeBuffer_stores_declined (E := sample_env)
            (cfg (sample_writer good_sink [WriterBlockSize 4096] []))
            (repeat 0 4248) [1; 2; 3] _ _ _ _); run_it.
Defined.

Section Levels.
Context {E : Env}.

Lemma Writer_encodeBlock_no_level c dst dlen src :
  customEnc c = None ->
  level c <> LevelFastest -> level c <> LevelBalanced -> level c <> LevelSmallest ->
  Writer_encodeBlock c dst dlen src = (0, dst).
Proof.
  intros Hc H1 H2 H3. unfold Writer_encodeBlock. rewrite Hc.
  destruct (Z.eqb_spec (level c) LevelFastest); [contradiction|].
  destruct (Z.eqb_spec (level c) LevelBalanced); [contradiction|].
  destruct (Z.eqb_spec (level c) LevelSmallest); [contradiction|].
  reflexivity.
Qed.

End Levels.

(** At a level that is none of the three kernels' (the one
    [WriterUncompressed] sets) and with no custom encoder, no kernel runs
    and the block is stored: the goroutine of [write] produces the
    UncompressedData chunk. *)
Theorem uncompressed_level_stores {E : Env} (c : Config) (obuf inbuf src : list Z) :
  customEnc c = None ->
  level c <> LevelFastest -> level c <> LevelBalanced -> level c <> LevelSmallest ->
  obufHeaderLen = 8 ->
  18 <= len obuf ->
  8 <= len inbuf ->
  drop 8 inbuf = src ->
  write_job c obuf inbuf src
  = Val (chunk (uint8 chunkTypeUncompressedData) (le32 (crc src) ++ src)).
Proof.
  intros Hc H1 H2 H3 H8 Ho Hi Hd.
  assert (Hk : block_encoded c obuf src = (0, block_dst obuf src))
    by (apply Writer_encodeBlock_no_level; assumption).
  rewrite (write_job_chunk c obuf inbuf src H8 Ho Hi Hd).
  - rewrite block_chunk_cases, Hk. reflexivity.
  - rewrite Hk. apply len_nonneg.
Qed.

Lemma uncompressed_level_stores_witness :
  write_job (E := sample_env)
    (cfg (sample_writer good_sink [WriterUncompressed; WriterBlockSize 4096] []))
    (repeat 0 4248) (repeat 0 8 ++ [1; 2; 3]) [1; 2; 3]
  = Val (chunk (uint8 (chunkTypeUncompressedData (Env := sample_env)))
           (le32 (crc [1; 2; 3]) ++ [1; 2; 3])).
Proof.
  refine (uncompressed_level_stores (E := sample_env)
            (cfg (sample_writer good_sink [WriterUncompressed; WriterBlockSize 4096] []))
            (repeat 0 4248) (repeat 0 8 ++ [1; 2; 3]) [1; 2; 3] _ _ _ _ _ _ _ _); run_it.
Defined.

Section CloseIdle.
Context {E : Env}.

(** ** [Close] on an idle writer *)

Lemma closeIndex_idle_eof w s :
  errState w = None -> output w = None -> ibuf w = [] ->
  writer w = Some s -> (forall log d, s log d = (len d, None)) ->
  pad (cfg w) <= 1 ->
  let vb := uvarint (uint64 (uncompWritten w)) in
  exists w',
    closeIndex false w = Val (([], None), w') /\
    sinkLog w' = sinkLog w ++ [[chunkTypeEOF; uint8 (len vb); 0; 0] ++ vb] /\
    errState w' = Some errClosed /\
    written w' = int64 (written w + (len vb + 4)) /\
    uncompWritten w' = uncompWritten w /\ output w' = None.
Proof.
  intros He Ho Hb Hw Hs Hp vb. unfold closeIndex.
  destruct (Flush_idle_empty w He Ho Hb) as (w1 & Hrun & Q1 & O1).
  unfold bind at 1. rewrite Hrun.
  unfold bind at 1. unfold close_output. unfold bind at 1. cbn [get]. rewrite O1. cbn [ret].
  unfold bind at 1. cbn [get]. cbn [andb].
  destruct Q1 as ((Hc1 & He1 & _ & _ & Hwr1 & Hu1 & Hw1 & _ & _ & _ & Hl1 & _) & _).
  rewrite He in He1. rewrite Hw in Hw1.
  unfold bind at 1. rewrite (Writer_err_idle_clean None w1 He1 O1).
  rewrite Hw1. cbn [is_nil andb negb].
  unfold bind at 1. unfold bind at 1. cbn [get]. cbv zeta. proj.
  unfold bind at 1. unfold writer_Write. proj. rewrite Hw1, Hs. cbn [snd].
  unfold bind at 1.
  rewrite Writer_err_idle_clean by (proj; first [reflexivity|assumption]).
  unfold add_written. cbn [modify]. proj.
  unfold bind at 1.
  rewrite Writer_err_idle_clean by (proj; first [reflexivity|assumption]).
  cbn [is_nil andb negb]. proj.
  unfold bind at 1. cbn [ret].
  unfold bind at 1. rewrite Hc1.
  destruct (Z.ltb_spec 1 (pad (cfg w))); [lia|]. cbn [ret].
  unfold bind at 1. cbn [len List.length Z.of_nat Z.ltb Z.compare andb ret].
  unfold closeIndex_return. unfold bind at 1.
  rewrite Writer_err_idle_clean by (proj; first [reflexivity|assumption]).
  cbn [ret]. eexists. split; [reflexivity|]. proj.
  rewrite Hl1, Hu1, Hwr1. fold vb. auto 10.
Qed.

End CloseIdle.

(** [Close] on an idle writer with nothing buffered, no index to append
    and no padding writes one chunk, the EOF chunk carrying the
    uncompressed size as a varint, counts its bytes, and leaves the closed
    error in the cell. *)
Theorem Close_writes_EOF {E : Env} (w : Writer) (s : Sink) :
  errState w = None ->
  output w = None ->
  ibuf w = [] ->
  writer w = Some s ->
  (forall log d, s log d = (len d, None)) ->
  pad (cfg w) <= 1 ->
  appendIndex (cfg w) = false ->
  exists w',
    Close w = Val (None, w') /\
    sinkLog w' =
      sinkLog w ++ [[chunkTypeEOF; uint8 (len (uvarint (uint64 (uncompWritten w)))); 0; 0]
                    ++ uvarint (uint64 (uncompWritten w))] /\
    errState w' = Some errClosed /\
    written w' = int64 (written w + (len (uvarint (uint64 (uncompWritten w))) + 4)).
Proof.
  intros He Ho Hb Hw Hs Hp Ha.
  destruct (closeIndex_idle_eof w s He Ho Hb Hw Hs Hp) as (w' & Hrun & Hl & He' & Hwr & _).
  exists w'. split; [|auto].
  unfold Close, bind. cbn [get]. rewrite Ha, Hrun. reflexivity.
Qed.

Lemma Close_writes_EOF_witness :
  exists w',
    Close (E := sample_env) sample_flushed = Val (None, w') /\
    sinkLog w' =
      sinkLog sample_flushed
      ++ [[chunkTypeEOF (Env := sample_env);
           uint8 (len (uvarint (uint64 (uncompWritten sample_flushed)))); 0; 0]
          ++ uvarint (uint64 (uncompWritten sample_flushed))] /\
    errState w' = Some errClosed /\
    written w' =
      int64 (written sample_flushed
             + (len (uvarint (uint64 (uncompWritten sample_flushed))) + 4)).
Proof.
  refine (Close_writes_EOF (E := sample_env) sample_flushed good_sink _ _ _ _ _ _ _);
    run_it.
Defined.

(** * Counting the bytes written *)

Lemma int64_idem x : int64 (int64 x) = int64 x.
Proof.
  unfold int64.
  replace (x + 2 ^ 63 - 2 ^ 63 * 0) with (x + 2 ^ 63) by lia.
  rewrite Z.sub_add. rewrite Z.mod_mod by lia. reflexivity.
Qed.

Lemma int64_add_l x y : int64 (int64 x + y) = int64 (x + y).
Proof.
  unfold int64. f_equal.
  replace ((x + 2 ^ 63) mod 2 ^ 64 - 2 ^ 63 + y + 2 ^ 63)
    with ((x + 2 ^ 63) mod 2 ^ 64 + y) by lia.
  rewrite Zplus_mod_idemp_l. f_equal. lia.
Qed.

Lemma int64_add_cong x y k : int64 x = int64 y -> int64 (x + k) = int64 (y + k).
Proof.
  intros H. rewrite <- (int64_add_l x k), <- (int64_add_l y k), H. reflexivity.
Qed.

Lemma hoare_pure {A} (phi : Prop) (P : Writer -> Prop) (m : M A)
    (Q : A -> Writer -> Prop) :
  (phi -> hoare P m Q) -> hoare (fun w => phi /\ P w) m Q.
Proof. intros H w (Hphi & Hw). exact (H Hphi w Hw). Qed.

Create HintDb owed.

Section Counting.
Context {E : Env}.
Variable c : Config.
Hypothesis c_sync : concurrency c = 1.
Hypothesis c_pad : pad c <= 1.

Ltac owed_unf := unfold Owed, on_sink in *; proj.

Lemma Owed_set_sched n v w : Owed c n w -> Owed c n (set_sched v w).
Proof. owed_unf. auto. Qed.

Lemma Owed_set_errState n e w : Owed c n w -> Owed c n (set_errState e w).
Proof. owed_unf. auto. Qed.

Lemma Owed_set_pool n v w : Owed c n w -> Owed c n (set_pool v w).
Proof. owed_unf. auto. Qed.

Lemma Owed_set_ibuf n v w : Owed c n w -> Owed c n (set_ibuf v w).
Proof. owed_unf. auto. Qed.

Lemma Owed_set_index n v w : Owed c n w -> Owed c n (set_index v w).
Proof. owed_unf. auto. Qed.

Lemma Owed_set_uncompWritten n v w : Owed c n w -> Owed c n (set_uncompWritten v w).
Proof. owed_unf. auto. Qed.

Lemma Owed_set_wroteStreamHeader n v w : Owed c n w -> Owed c n (set_wroteStreamHeader v w).
Proof. owed_unf. auto. Qed.

Lemma Owed_set_randSrc n v w : Owed c n w -> Owed c n (set_randSrc v w).
Proof. owed_unf. auto. Qed.

Lemma Owed_Writer_err n e : pres (Owed c n) (Writer_err e).
Proof.
  apply closed_Writer_err.
  - intros w H. apply H.
  - intros v w H. apply Owed_set_sched. exact H.
  - intros x w H _. apply Owed_set_errState. exact H.
Qed.

Lemma Owed_closeIndex_return n ix : pres (Owed c n) (closeIndex_return ix).
Proof.
  apply closed_closeIndex_return.
  - intros w H. apply H.
  - intros v w H. apply Owed_set_sched. exact H.
  - intros x w H _. apply Owed_set_errState. exact H.
Qed.

Lemma Owed_Index_add n x u : pres (Owed c n) (Index_add x u).
Proof.
  intros w Hw. unfold Index_add. destruct (index w); [|exact Hw].
  destruct (index_add i x u). apply Owed_set_index. exact Hw.
Qed.

Lemma Owed_add_uncompWritten n k : pres (Owed c n) (add_uncompWritten k).
Proof. apply pres_modify. intros w Hw. apply Owed_set_uncompWritten. exact Hw. Qed.

Lemma Owed_buffers_Get n : pres (Owed c n) buffers_Get.
Proof.
  intros w Hw. unfold buffers_Get. destruct (obufLen (cfg w) <? 0); [exact I|].
  destruct (pool w); [exact Hw|]. apply Owed_set_pool. exact Hw.
Qed.

Lemma Owed_modify_ibuf n v : pres (Owed c n) (modify (set_ibuf v)).
Proof. apply pres_modify. intros w Hw. apply Owed_set_ibuf. exact Hw. Qed.

Lemma Owed_modify_flag n v : pres (Owed c n) (modify (set_wroteStreamHeader v)).
Proof. apply pres_modify. intros w Hw. apply Owed_set_wroteStreamHeader. exact Hw. Qed.

(** A write to the sink puts [written] behind by the bytes written ... *)
Lemma Owed_writer_Write n d :
  hoare (Owed c n) (writer_Write d)
    (fun r w => r = (len d, None) /\ Owed c (n + len d) w).
Proof.
  intros w (H1 & H2 & H3 & H4 & H5). unfold writer_Write.
  destruct (writer w) as [s|] eqn:Hs; [|exact I].
  split; [apply (H3 s eq_refl)|].
  owed_unf. rewrite Hs. split; [exact H1|]. split; [exact H2|].
  split; [exact H3|]. split; [exact H4|].
  rewrite concat_app, len_app. cbn [List.concat]. rewrite app_nil_r.
  rewrite Z.add_assoc. apply int64_add_cong. exact H5.
Qed.

(** ... and counting them catches up. *)
Lemma Owed_add_written n k :
  hoare (Owed c n) (add_written k) (fun _ => Owed c (n - k)).
Proof.
  apply hoare_modify. intros w (H1 & H2 & H3 & H4 & H5). owed_unf.
  split; [exact H1|]. split; [exact H2|]. split; [exact H3|].
  split; [symmetry; apply int64_idem|].
  rewrite int64_add_l. rewrite <- H5. f_equal. lia.
Qed.

Lemma Owed_settle k :
  hoare (Owed c k) (add_written k) (fun _ => Owed c 0).
Proof.
  eapply hoare_post; [apply Owed_add_written|].
  intros a w H. rewrite Z.sub_diag in H. exact H.
Qed.

Lemma Owed_sync n w : Owed c n w -> (concurrency (cfg w) =? 1) = true.
Proof. intros (-> & _). rewrite c_sync. reflexivity. Qed.

Lemma len_makeHeader bs : len (makeHeader bs) = len magicChunk + 1.
Proof. unfold makeHeader. cbv zeta. rewrite len_app, len_cons, len_nil. lia. Qed.

Hint Resolve Owed_Writer_err Owed_Index_add Owed_add_uncompWritten Owed_buffers_Get
  Owed_modify_ibuf Owed_modify_flag Owed_closeIndex_return : owed.

Ltac Owed_auto :=
  try apply hoare_pres; repeat (pres_step ltac:(solve [auto with owed])).

(** What a good sink answers decides the tests that follow the write. *)
Ltac good_answer :=
  let Heq := fresh "Heq" in
  apply hoare_pure; intros Heq; injection Heq as -> ->;
  try rewrite len_makeHeader; rewrite Z.eqb_refl; cbn [negb].

Ltac settled :=
  eapply hoare_pre;
  [|let w := fresh "w" in let H := fresh "H" in
    intros w H;
    match type of H with
    | Owed _ ?n _ => replace n with 0 in H by lia; exact H
    end].

Lemma writeSync_loop_Owed f : forall p n, pres (Owed c 0) (writeSync_loop f p n).
Proof.
  induction f as [|f IH]; intros p n; cbn [writeSync_loop];
    (destruct (0 <? len p); [|apply pres_ret]); [apply pres_hang|].
  unfold pres.
  eapply hoare_seq; [apply pres_get|]. intros w.
  eapply hoare_seq; [apply pres_lift|]. intros [uncompressed p'].
  eapply hoare_seq; [apply Owed_buffers_Get|]. intros obuf0.
  eapply hoare_seq; [apply pres_lift|]. intros obuf.
  eapply hoare_seq; [apply pres_lift|]. intros [obuf3 chunkType].
  eapply hoare_bind; [apply Owed_writer_Write|]. intros [nw err]. good_answer.
  eapply hoare_seq; [apply pres_get|]. intros w1.
  eapply hoare_seq; [apply Owed_Index_add|]. intros ie.
  eapply hoare_seq; [apply Owed_Writer_err|]. intros _e.
  eapply hoare_bind; [apply Owed_add_written|]. intros _u. settled.
  eapply hoare_seq; [apply Owed_add_uncompWritten|]. intros _v.
  destruct (chunkType =? chunkTypeUncompressedData); [|apply IH].
  eapply hoare_bind; [apply Owed_writer_Write|]. intros [nw2 err2]. good_answer.
  eapply hoare_bind; [apply Owed_add_written|]. intros _x. settled.
  apply IH.
Qed.

Lemma writeSync_Owed p : pres (Owed c 0) (writeSync p).
Proof.
  unfold writeSync, pres.
  eapply hoare_seq; [apply Owed_Writer_err|]. intros [e|]; [apply pres_ret|].
  eapply hoare_seq; [apply pres_get|]. intros w.
  destruct (negb (wroteStreamHeader w)); [|apply writeSync_loop_Owed].
  eapply hoare_seq; [apply Owed_modify_flag|]. intros _u.
  eapply hoare_bind; [apply Owed_writer_Write|]. intros [n err]. good_answer.
  eapply hoare_bind; [apply Owed_add_written|]. intros _v. settled.
  apply writeSync_loop_Owed.
Qed.

Lemma write_Owed p : pres (Owed c 0) (write p).
Proof.
  unfold write, pres.
  eapply hoare_seq; [apply Owed_Writer_err|]. intros [e|]; [apply pres_ret|].
  apply hoare_open. intros w0 H0. apply hoare_get_at.
  rewrite (Owed_sync 0 w0 H0).
  apply (hoare_at (Owed c 0)); [exact H0|]. apply writeSync_Owed.
Qed.

Lemma writeFull_Owed inbuf : pres (Owed c 0) (writeFull inbuf).
Proof.
  unfold writeFull, pres.
  eapply hoare_seq; [apply Owed_Writer_err|]. intros [e|]; [apply pres_ret|].
  apply hoare_open. intros w0 H0. apply hoare_get_at.
  rewrite (Owed_sync 0 w0 H0).
  apply (hoare_at (Owed c 0)); [exact H0|].
  eapply hoare_seq; [apply pres_lift|]. intros data.
  eapply hoare_seq; [apply writeSync_Owed|]. intros r. apply pres_ret.
Qed.

Hint Resolve writeSync_Owed write_Owed writeFull_Owed : owed.

Lemma AsyncFlush_Owed : pres (Owed c 0) AsyncFlush.
Proof. unfold AsyncFlush. Owed_auto. Qed.
Hint Resolve AsyncFlush_Owed : owed.

Lemma Flush_Owed : pres (Owed c 0) Flush.
Proof.
  unfold Flush, pres.
  eapply hoare_seq; [apply AsyncFlush_Owed|]. intros [e|]; [apply pres_ret|].
  apply hoare_open. intros w0 H0. apply hoare_get_at.
  destruct H0 as (H1 & H2 & H3). rewrite H2.
  apply (hoare_at (Owed c 0)); [split; [exact H1|split; [exact H2|exact H3]]|].
  apply Owed_Writer_err.
Qed.
Hint Resolve Flush_Owed : owed.

Lemma EncodeBuffer_Owed buf : pres (Owed c 0) (EncodeBuffer buf).
Proof.
  unfold EncodeBuffer, pres.
  eapply hoare_seq; [apply Owed_Writer_err|]. intros [e|]; [apply pres_ret|].
  apply hoare_open. intros w0 H0. apply hoare_get_at.
  rewrite (Owed_sync 0 w0 H0).
  apply (hoare_at (Owed c 0)); [exact H0|]. Owed_auto.
Qed.
Hint Resolve EncodeBuffer_Owed : owed.

Lemma Write_loop_Owed f : forall p n, pres (Owed c 0) (Write_loop f p n).
Proof. induction f as [|f IH]; intros p n; cbn [Write_loop]; Owed_auto. Qed.
Hint Resolve Write_loop_Owed : owed.

Lemma Write_Owed p : pres (Owed c 0) (Write p).
Proof. unfold Write. Owed_auto. Qed.

Lemma ReadFrom_loop_Owed f : forall r n, pres (Owed c 0) (ReadFrom_loop f r n).
Proof. induction f as [|f IH]; intros r n; cbn [ReadFrom_loop]; Owed_auto. Qed.
Hint Resolve ReadFrom_loop_Owed : owed.

Lemma ReadFrom_Owed r : pres (Owed c 0) (ReadFrom r).
Proof. unfold ReadFrom. Owed_auto. Qed.

End Counting.

Section CountingClose.
Context {E : Env}.
Variable c : Config.
Hypothesis c_sync : concurrency c = 1.
Hypothesis c_pad : pad c <= 1.

Ltac good_answer :=
  let Heq := fresh "Heq" in
  apply hoare_pure; intros Heq; injection Heq as -> ->;
  try rewrite len_makeHeader; try rewrite Z.eqb_refl; cbn [negb snd].

Ltac settled :=
  eapply hoare_pre;
  [|let w := fresh "w" in let H := fresh "H" in
    intros w H;
    match type of H with
    | Owed _ ?n _ => replace n with 0 in H by lia; exact H
    end].

(** ** [AddUserChunk]: with an empty cell every write is counted *)

Lemma clean_Writer_err n :
  hoare (fun w => Owed c n w /\ errState w = None) (Writer_err None)
    (fun e w => e = None /\ Owed c n w /\ errState w = None).
Proof.
  intros w (HO & He). pose proof HO as (_ & Ho & _).
  rewrite (Writer_err_idle_clean None w He Ho).
  split; [reflexivity|]. split; [|proj; reflexivity].
  apply Owed_set_errState, Owed_set_sched. exact HO.
Qed.

Lemma clean_writer_Write n d :
  hoare (fun w => Owed c n w /\ errState w = None) (writer_Write d)
    (fun r w => r = (len d, None) /\ Owed c (n + len d) w /\ errState w = None).
Proof.
  intros w (HO & He). pose proof (Owed_writer_Write c n d w HO) as H.
  revert H. unfold writer_Write. destruct (writer w); [|auto].
  intros (H1 & H2). split; [exact H1|]. split; [exact H2|]. proj. exact He.
Qed.

Lemma clean_add_written n k :
  hoare (fun w => Owed c n w /\ errState w = None) (add_written k)
    (fun _ w => Owed c (n - k) w /\ errState w = None).
Proof.
  intros w (HO & He). pose proof (Owed_add_written c n k w HO) as H.
  split; [exact H|]. unfold add_written. cbn [modify]. proj. exact He.
Qed.

Lemma AddUserChunk_write_Owed d :
  hoare (fun w => Owed c 0 w /\ errState w = None) (AddUserChunk_write d)
    (fun e w => e = None /\ Owed c 0 w /\ errState w = None).
Proof.
  unfold AddUserChunk_write.
  eapply hoare_bind; [apply clean_writer_Write|]. intros [n err].
  apply hoare_pure. intros Heq. injection Heq as -> ->.
  eapply hoare_bind; [apply clean_Writer_err|]. intros e.
  apply hoare_pure. intros ->. rewrite Z.eqb_refl. cbn [negb].
  eapply hoare_bind; [apply clean_add_written|]. intros _u.
  eapply hoare_pre; [apply clean_Writer_err|].
  intros w (H & He). replace (0 + len d - len d) with 0 in H by lia. split; assumption.
Qed.

Lemma AddUserChunk_Owed id data : pres (Owed c 0) (AddUserChunk id data).
Proof.
  unfold AddUserChunk, pres.
  eapply hoare_bind.
  { apply (closed_Writer_err_value (Owed c 0)).
    - intros w H. apply H.
    - intros v w H. apply Owed_set_sched. exact H.
    - intros x w H _. apply Owed_set_errState. exact H. }
  intros [e|]; [apply hoare_ret; intros w H; apply H|].
  destruct ((id <? MinUserSkippableChunk) || (ChunkTypePadding <? id));
    [apply hoare_ret; intros w H; apply H|].
  destruct (MaxUserChunkSize <? len data); [apply hoare_ret; intros w H; apply H|].
  cbv zeta. apply hoare_open. intros w0 (He & H0). apply hoare_get_at.
  rewrite (Owed_sync c c_sync 0 w0 H0).
  apply (hoare_at (fun w => Owed c 0 w /\ errState w = None)); [split; auto|].
  eapply hoare_bind
    with (Q := fun e1 w => e1 = None /\ Owed c 0 w /\ errState w = None).
  { destruct (negb (wroteStreamHeader w0)); [|apply hoare_ret; auto].
    eapply hoare_bind with (Q := fun _ w => Owed c 0 w /\ errState w = None).
    - apply hoare_modify. intros w (H & Hn).
      split; [apply Owed_set_wroteStreamHeader; exact H|proj; exact Hn].
    - intros _u. apply AddUserChunk_write_Owed. }
  intros e1. apply hoare_pure. intros ->.
  apply hoare_open. intros w1 (H1 & Hn1). apply hoare_get_at.
  eapply hoare_bind
    with (Q := fun e2 w => Owed c 0 w /\ (e2 = None -> errState w = None)).
  { destruct (0 <? uncompWritten w1).
    - apply (hoare_at (Owed c 0)); [exact H1|].
      eapply hoare_seq; [apply Owed_Index_add|]. intros ie.
      eapply hoare_post.
      + apply (closed_Writer_err_value (Owed c 0)).
        * intros w H. apply H.
        * intros v w H. apply Owed_set_sched. exact H.
        * intros x w H _. apply Owed_set_errState. exact H.
      + intros a w (Ha & H). split; [exact H|]. intros ->. auto.
    - apply hoare_ret. intros w ->. auto. }
  intros [e2|]; [apply hoare_ret; intros w H; apply H|].
  eapply hoare_bind.
  { eapply hoare_pre; [apply AddUserChunk_write_Owed|].
    intros w (H & Hn). split; [exact H|apply Hn; reflexivity]. }
  intros e3. apply hoare_pure. intros ->.
  eapply hoare_post; [apply AddUserChunk_write_Owed|].
  intros a w (_ & H & _). exact H.
Qed.

(** ** [closeIndex]: the index is counted before it is written *)

Lemma closeIndex_Owed idx : pres (Owed c 0) (closeIndex idx).
Proof.
  unfold closeIndex, pres.
  eapply hoare_seq; [apply (Flush_Owed c c_sync)|]. intros err.
  eapply hoare_seq.
  { unfold close_output. apply pres_bind; [apply pres_get|]. intros w.
    destruct (output w) eqn:Ho; [|apply pres_ret].
    intros w' H'. unfold bind.
    destruct H' as (H1 & H2 & H3).
    unfold dispatcher_drain. rewrite H2. cbn [modify].
    unfold Owed, on_sink in *. proj. auto. }
  intros _u.
  apply hoare_open. intros w0 H0. apply hoare_get_at.
  destruct (idx && is_nil (index w0)); [apply hoare_ret; intros w ->; exact H0|].
  apply (hoare_at (Owed c 0)); [exact H0|].
  eapply hoare_seq; [apply (Owed_Writer_err c)|]. intros e1.
  eapply hoare_seq.
  { destruct (is_nil e1 && negb (is_nil (writer w0))); [|apply pres_ret].
    unfold pres. eapply hoare_seq; [apply pres_get|]. intros w1. cbv zeta.
    eapply hoare_bind; [apply (Owed_writer_Write c)|]. intros [n err'].
    apply hoare_pure. intros Heq. injection Heq as -> ->. cbn [snd].
    eapply hoare_seq; [apply (Owed_Writer_err c)|]. intros _e.
    eapply hoare_post; [apply (Owed_add_written c)|].
    intros a w H. cbv beta in H.
    match type of H with
    | Owed _ ?n _ => replace n with 0 in H; [exact H|]
    end.
    rewrite len_app.
    match goal with
    | |- context [len [?a; ?b; ?x; ?d]] => change (len [a; b; x; d]) with 4
    end. lia. }
  intros _v.
  eapply hoare_seq; [apply (Owed_Writer_err c)|]. intros e2.
  destruct (is_nil e2 && negb (is_nil (writer w0)));
    [|apply (Owed_closeIndex_return c)].
  pose proof H0 as (Hc0 & _).
  eapply hoare_bind
    with (Q := fun ixb w =>
                 Owed c (if (0 <? len ixb) && appendIndex c then - len ixb else 0) w).
  { destruct idx; [|apply hoare_ret; intros w H; exact H].
    apply hoare_open. intros w2 H2. apply hoare_get_at. cbv zeta.
    pose proof H2 as (Hc2 & _). rewrite Hc2.
    set (ixb := Index_appendTo (index w2) [] (uncompWritten w2)
                    (if pad c <=? 1 then written w2 else -1)).
    apply (hoare_at (Owed c 0)); [exact H2|].
    destruct (appendIndex c).
    - eapply hoare_bind; [apply (Owed_add_written c)|]. intros _x.
      apply hoare_ret. intros w H. rewrite andb_true_r.
      destruct (Z.ltb_spec 0 (len ixb)) as [Hl|Hl]; [exact H|].
      pose proof (len_nonneg ixb).
      replace (0 - len ixb) with 0 in H by lia. exact H.
    - eapply hoare_seq; [apply pres_ret|]. intros _x.
      apply hoare_ret. intros w H. rewrite andb_false_r. exact H. }
  intros ixb. rewrite Hc0.
  destruct (Z.ltb_spec 1 (pad c)) as [Hp|_]; [lia|].
  eapply hoare_bind
    with (Q := fun stop w =>
                 stop = None /\
                 Owed c (if (0 <? len ixb) && appendIndex c then - len ixb else 0) w).
  { apply hoare_ret. auto. }
  intros stop. apply hoare_pure. intros ->.
  destruct ((0 <? len ixb) && appendIndex c).
  - eapply hoare_bind with (Q := fun _ => Owed c 0); [|intros _x; apply (Owed_closeIndex_return c)].
    eapply hoare_bind; [apply (Owed_writer_Write c)|]. intros [n err2].
    apply hoare_pure. intros Heq. injection Heq as -> ->. rewrite Z.eqb_refl.
    eapply hoare_seq; [apply (Owed_Writer_err c)|]. intros _e.
    apply hoare_ret. intros w H.
    replace (- len ixb + len ixb) with 0 in H by lia. exact H.
  - eapply hoare_seq; [apply pres_ret|]. intros _x. apply (Owed_closeIndex_return c).
Qed.

Lemma Close_Owed : pres (Owed c 0) Close.
Proof.
  unfold Close. apply pres_bind; [apply pres_get|]. intros w.
  apply pres_bind; [apply closeIndex_Owed|]. intros r. apply pres_ret.
Qed.

(** ** [Reset] starts the count again *)

Lemma Reset_Owed wr :
  (forall s, wr = Some s -> good s) -> pres (Owed c 0) (Reset wr).
Proof.
  intros Hwr. unfold Reset, pres.
  apply hoare_open. intros w0 H0. apply hoare_get_at.
  apply (hoare_at (Owed c 0)); [exact H0|].
  destruct (negb (paramsOK (cfg w0))); [apply pres_ret|].
  eapply hoare_seq.
  { unfold close_output. apply pres_bind; [apply pres_get|]. intros w.
    destruct (output w) eqn:Ho; [|apply pres_ret].
    intros w' H'. unfold bind. destruct H' as (H1 & H2 & H3).
    unfold dispatcher_drain. rewrite H2. cbn [modify].
    unfold Owed, on_sink in *. proj. auto. }
  intros _u.
  eapply hoare_seq.
  { apply pres_modify. intros w H.
    destruct (genIndex (cfg w) && is_nil (index w)); [|exact H].
    apply Owed_set_index. exact H. }
  intros _v.
  eapply hoare_bind
    with (Q := fun _ w => Owed c 0 w).
  { apply hoare_modify. intros w (H1 & H2 & _). unfold Owed, on_sink. proj.
    split; [exact H1|]. split; [exact H2|]. split; [exact Hwr|].
    split; reflexivity. }
  intros _x. destruct wr as [s|].
  - apply hoare_open. intros w1 H1. apply hoare_get_at.
    rewrite (Owed_sync c c_sync 0 w1 H1). apply hoare_ret. intros w ->. exact H1.
  - eapply hoare_seq; [apply (Owed_Writer_err c)|]. intros e. apply pres_ret.
Qed.

Lemma call_Owed k : good_call k -> pres (Owed c 0) (call k).
Proof.
  destruct k; cbn [call good_call]; intros Hk;
    try (apply pres_bind; [|intros ?; apply pres_ret]).
  - apply (Write_Owed c c_sync).
  - apply (EncodeBuffer_Owed c c_sync).
  - apply (ReadFrom_Owed c c_sync).
  - apply AddUserChunk_Owed.
  - apply (AsyncFlush_Owed c c_sync).
  - apply (Flush_Owed c c_sync).
  - apply Close_Owed.
  - apply closeIndex_Owed.
  - apply Reset_Owed. intros s ->. exact Hk.
Qed.

Lemma run_Owed ks : Forall good_call ks -> pres (Owed c 0) (run ks).
Proof.
  induction ks as [|k ks IH]; cbn [run]; intros Hks; [apply pres_ret|].
  apply pres_bind; [apply call_Owed; exact (Forall_inv Hks)|].
  intros _u. apply IH. exact (Forall_inv_tail Hks).
Qed.

End CountingClose.

(** On a synchronous writer without padding whose sink takes every byte,
    the compressed count that [Written] reports is, after any run of
    calls, the number of bytes the sink has received (as an [int64]). *)
Theorem Written_counts_sink {E : Env} (w0 : Writer) (ks : list Call) (u : unit)
    (w : Writer) :
  concurrency (cfg w0) = 1 ->
  pad (cfg w0) <= 1 ->
  output w0 = None ->
  (forall s, writer w0 = Some s -> good s) ->
  written w0 = int64 (len (on_sink w0)) ->
  Forall good_call ks ->
  run ks w0 = Val (u, w) ->
  snd (Written w) = int64 (len (on_sink w)).
Proof.
  intros Hc Hp Ho Hg Hw Hks Hrun.
  assert (H0 : Owed (cfg w0) 0 w0).
  { split; [reflexivity|]. split; [exact Ho|]. split; [exact Hg|].
    split.
    - rewrite Hw at 2. rewrite int64_idem. exact Hw.
    - rewrite Z.add_0_r, Hw. apply int64_idem. }
  pose proof (run_Owed (cfg w0) Hc Hp ks Hks w0 H0) as H. rewrite Hrun in H.
  destruct H as (_ & _ & _ & H4 & H5). unfold Written. cbn [snd].
  rewrite <- H5, Z.add_0_r. exact H4.
Qed.

Lemma Written_counts_sink_witness :
  snd (Written (after (run (E := sample_env)
                         [CallWrite [1; 2; 3]; CallAddUserChunk 128 [9]; CallClose])
                  (sample_writer good_sink [WriterBlockSize 4096; WriterConcurrency 1] [])))
  = int64 (len (on_sink
                  (after (run (E := sample_env)
                            [CallWrite [1; 2; 3]; CallAddUserChunk 128 [9]; CallClose])
                     (sample_writer good_sink
                        [WriterBlockSize 4096; WriterConcurrency 1] [])))).
Proof.
  refine (Written_counts_sink (E := sample_env)
            (sample_writer good_sink [WriterBlockSize 4096; WriterConcurrency 1] [])
            [CallWrite [1; 2; 3]; CallAddUserChunk 128 [9]; CallClose] tt
            (after (run (E := sample_env)
                      [CallWrite [1; 2; 3]; CallAddUserChunk 128 [9]; CallClose])
               (sample_writer good_sink [WriterBlockSize 4096; WriterConcurrency 1] []))
            _ _ _ _ _ _ _).
  - vm_compute. reflexivity.
  - apply Z.leb_le. vm_compute. reflexivity.
  - vm_compute. reflexivity.
  - intros s Hs. vm_compute in Hs. injection Hs as <-. intros log d. reflexivity.
  - vm_compute. reflexivity.
  - repeat constructor.
  - vm_compute. reflexivity.
Defined.

Section UserChunk.
Context {E : Env}.

(** ** [AddUserChunk] on the synchronous path *)

Lemma AddUserChunk_write_good d w s :
  errState w = None -> output w = None -> writer w = Some s -> good s ->
  exists w',
    AddUserChunk_write d w = Val (None, w') /\
    errState w' = None /\ output w' = None /\ writer w' = Some s /\
    index w' = index w /\ ibuf w' = ibuf w /\ sinkLog w' = sinkLog w ++ [d].
Proof.
  intros He Ho Hw Hs. unfold AddUserChunk_write.
  unfold bind at 1. unfold writer_Write. rewrite Hw, Hs.
  unfold bind at 1.
  rewrite Writer_err_idle_clean by (proj; assumption).
  rewrite Z.eqb_refl. cbn [negb].
  unfold bind at 1. unfold add_written. cbn [modify].
  rewrite Writer_err_idle_clean by (proj; first [reflexivity|assumption]).
  eexists. split; [reflexivity|]. proj. auto 10.
Qed.

End UserChunk.

(** On the synchronous path [AddUserChunk] writes the stream header when
    it is still due, then the four header bytes of the chunk (id and
    24-bit length) and the data as two sink calls.  It does not touch the
    input buffer: bytes an earlier [Write] left there reach the sink after
    the user chunk. *)
Theorem AddUserChunk_sync {E : Env} (id : Z) (data : list Z) (w : Writer) (s : Sink) :
  errState w = None ->
  output w = None ->
  concurrency (cfg w) = 1 ->
  writer w = Some s ->
  good s ->
  index w = None ->
  MinUserSkippableChunk <= id <= ChunkTypePadding ->
  len data <= MaxUserChunkSize ->
  exists w',
    AddUserChunk id data w = Val (None, w') /\
    sinkLog w' =
      sinkLog w
      ++ (if wroteStreamHeader w then [] else [makeHeader (blockSize (cfg w))])
      ++ [[id; uint8 (len data); uint8 (Z.shiftr (len data) 8);
           uint8 (Z.shiftr (len data) 16)]; data] /\
    ibuf w' = ibuf w /\
    errState w' = None.
Proof.
  intros He Ho Hc Hw Hs Hi Hid Hl. unfold AddUserChunk.
  unfold bind at 1. rewrite (Writer_err_idle_clean None w He Ho).
  destruct (Z.ltb_spec id MinUserSkippableChunk); [lia|].
  destruct (Z.ltb_spec ChunkTypePadding id); [lia|].
  destruct (Z.ltb_spec MaxUserChunkSize (len data)); [lia|].
  cbn [orb]. cbv zeta.
  unfold bind at 1. cbn [get]. proj. rewrite Hc. cbn [Z.eqb Pos.eqb].
  set (w1 := set_errState None (set_sched (tl (sched w)) w)).
  assert (Hst1 : errState w1 = None /\ output w1 = None /\ writer w1 = Some s /\
                 index w1 = None /\ ibuf w1 = ibuf w /\ sinkLog w1 = sinkLog w)
    by (unfold w1; proj; auto 10).
  destruct Hst1 as (He1 & Ho1 & Hw1 & Hi1 & Hb1 & Hl1).
  assert (Hfirst : exists w2,
            (if negb (wroteStreamHeader w)
             then modify (set_wroteStreamHeader true) ;;;
                  AddUserChunk_write (makeHeader (blockSize (cfg w)))
             else ret None) w1 = Val (None, w2) /\
            errState w2 = None /\ output w2 = None /\ writer w2 = Some s /\
            index w2 = None /\ ibuf w2 = ibuf w /\
            sinkLog w2 = sinkLog w
              ++ (if wroteStreamHeader w then [] else [makeHeader (blockSize (cfg w))])).
  { destruct (wroteStreamHeader w); cbn [negb].
    - exists w1. cbn [ret]. rewrite app_nil_r. auto 10.
    - unfold bind at 1. cbn [modify].
      destruct (AddUserChunk_write_good (makeHeader (blockSize (cfg w)))
                  (set_wroteStreamHeader true w1) s)
        as (w2 & Hrun & He2 & Ho2 & Hw2 & Hi2 & Hb2 & Hl2); proj; auto.
      exists w2. split; [exact Hrun|]. proj.
      split; [exact He2|]. split; [exact Ho2|]. split; [exact Hw2|].
      split; [congruence|]. split; [congruence|]. rewrite Hl2, Hl1. reflexivity. }
  destruct Hfirst as (w2 & Hrun2 & He2 & Ho2 & Hw2 & Hi2 & Hb2 & Hl2).
  unfold bind at 1. rewrite Hrun2.
  unfold bind at 1. cbn [get].
  assert (Hidx : (if 0 <? uncompWritten w2
                  then ie <- Index_add (written w2) (uncompWritten w2) ;; Writer_err ie
                  else ret None) w2
                 = Val (None, if 0 <? uncompWritten w2
                              then set_errState None (set_sched (tl (sched w2)) w2)
                              else w2)).
  { destruct (0 <? uncompWritten w2); [|reflexivity].
    unfold bind at 1. unfold Index_add. rewrite Hi2.
    apply Writer_err_idle_clean; assumption. }
  unfold bind at 1. rewrite Hidx.
  set (w3 := if 0 <? uncompWritten w2
             then set_errState None (set_sched (tl (sched w2)) w2) else w2).
  assert (Hst3 : errState w3 = None /\ output w3 = None /\ writer w3 = Some s /\
                 ibuf w3 = ibuf w /\ sinkLog w3 = sinkLog w2)
    by (unfold w3; destruct (0 <? uncompWritten w2); proj; auto 10).
  destruct Hst3 as (He3 & Ho3 & Hw3 & Hb3 & Hl3).
  destruct (AddUserChunk_write_good
              [id; uint8 (Z.shiftr (len data) 0); uint8 (Z.shiftr (len data) 8);
               uint8 (Z.shiftr (len data) 16)] w3 s He3 Ho3 Hw3 Hs)
    as (w4 & Hrun4 & He4 & Ho4 & Hw4 & Hi4 & Hb4 & Hl4).
  unfold bind at 1. rewrite Hrun4.
  destruct (AddUserChunk_write_good data w4 s He4 Ho4 Hw4 Hs)
    as (w5 & Hrun5 & He5 & Ho5 & Hw5 & Hi5 & Hb5 & Hl5).
  exists w5. split; [exact Hrun5|].
  split; [|split; [congruence|exact He5]].
  rewrite Hl5, Hl4, Hl3, Hl2, Z.shiftr_0_r. rewrite <- !app_assoc. reflexivity.
Qed.

Lemma AddUserChunk_sync_witness :
  exists w',
    AddUserChunk (E := sample_env) 128 [7; 8]
      (after (Write (E := sample_env) [1; 2; 3])
         (sample_writer good_sink
            [WriterBlockSize 4096; WriterConcurrency 1; WriterCreateIndex false] []))
    = Val (None, w') /\
    sinkLog w' =
      sinkLog (after (Write (E := sample_env) [1; 2; 3])
                 (sample_writer good_sink
                    [WriterBlockSize 4096; WriterConcurrency 1; WriterCreateIndex false] []))
      ++ (if wroteStreamHeader
               (after (Write (E := sample_env) [1; 2; 3])
                  (sample_writer good_sink
                     [WriterBlockSize 4096; WriterConcurrency 1; WriterCreateIndex false] []))
          then []
          else [makeHeader (E := sample_env)
                  (blockSize (cfg (after (Write (E := sample_env) [1; 2; 3])
                                     (sample_writer good_sink
                                        [WriterBlockSize 4096; WriterConcurrency 1;
                                         WriterCreateIndex false] []))))])
      ++ [[128; uint8 (len [7; 8]); uint8 (Z.shiftr (len [7; 8]) 8);
           uint8 (Z.shiftr (len [7; 8]) 16)]; [7; 8]] /\
    ibuf w' = ibuf (after (Write (E := sample_env) [1; 2; 3])
                      (sample_writer good_sink
                         [WriterBlockSize 4096; WriterConcurrency 1;
                          WriterCreateIndex false] [])) /\
    errState w' = None.
Proof.
  refine (AddUserChunk_sync (E := sample_env) 128 [7; 8]
            (after (Write (E := sample_env) [1; 2; 3])
               (sample_writer good_sink
                  [WriterBlockSize 4096; WriterConcurrency 1; WriterCreateIndex false] []))
            good_sink _ _ _ _ _ _ _ _); run_it.
Defined.

(** * [ReadFrom] *)

(** ** [io.ReadFull] *)

Lemma ReadFull_cases r k :
  0 < k ->
  (snd (fst (ReadFull r k)) = None /\
   len (fst (fst (ReadFull r k))) = k /\
   len (rd_data (snd (ReadFull r k))) = len (rd_data r) - k) \/
  (snd (fst (ReadFull r k)) <> None /\
   len (fst (fst (ReadFull r k))) = len (rd_data r)).
Proof.
  intros Hk. unfold ReadFull.
  destruct (Z.leb_spec k 0); [lia|].
  destruct (Z.leb_spec k (len (rd_data r))).
  - left. cbn [fst snd rd_data]. split; [reflexivity|].
    rewrite len_take, len_drop by lia. lia.
  - right. cbn [fst snd]. split; [discriminate|reflexivity].
Qed.

Section ReadFromCount.
Context {E : Env}.
Variable X : Config * bool.
Hypothesis X_block : 0 < blockSize (fst X).
Hypothesis hdr_nonneg : 0 <= obufHeaderLen.

Let I (w : Writer) : Prop := stable w = X.

Hint Resolve stable_err_cell stable_writer_Write stable_buffers_Get stable_Index_add
  stable_add_written stable_add_uncompWritten stable_Writer_err stable_send
  stable_queue_header stable_writeSync stable_write stable_AsyncFlush : stable.

Ltac stable_known :=
  first [ apply pres_modify; intros ? H; exact H
        | solve [unfold I; auto with stable] ].
Ltac stable_auto := repeat (pres_step stable_known).

Lemma stable_writeFull inbuf : pres I (writeFull inbuf).
Proof. unfold writeFull. stable_auto. Qed.

Lemma stable_EncodeBuffer_loop f : forall buf, pres I (EncodeBuffer_loop f buf).
Proof. induction f as [|f IH]; intros buf; cbn [EncodeBuffer_loop]; stable_auto. Qed.

Lemma stable_EncodeBuffer buf : pres I (EncodeBuffer buf).
Proof.
  unfold EncodeBuffer. pose proof stable_EncodeBuffer_loop. stable_auto.
Qed.

(** An error written to the cell comes back from it. *)
Lemma Writer_err_some x :
  hoare I (Writer_err (Some x)) (fun e w => I w /\ e <> None).
Proof.
  eapply hoare_post.
  - apply (Writer_err_value (Some x) I); [apply stable_yield|apply stable_err_cell].
  - intros a w (_ & H & Hn). split; [exact H|]. apply Hn. discriminate.
Qed.

Lemma Writer_err_cell x :
  hoare I (Writer_err x) (fun e w => I w /\ (e <> None -> errState w <> None)).
Proof.
  eapply hoare_post.
  - apply (Writer_err_value x I); [apply stable_yield|apply stable_err_cell].
  - intros a w (Ha & H & _). split; [exact H|]. intros Hn. congruence.
Qed.

Lemma latched_dispatch_next :
  pres (fun w => I w /\ errState w <> None) dispatch_next.
Proof.
  intros w (HI & He). pose proof (stable_dispatch_next X w HI) as Hs.
  destruct (errState w) as [e|] eqn:Hee; [|contradiction].
  destruct (dispatch_next_latched w e Hee) as (w' & Hrun & Hq).
  rewrite Hrun in *. split; [exact Hs|].
  rewrite (quiet_errState _ _ Hq), Hee. discriminate.
Qed.

Lemma Writer_err_latched_some x :
  hoare (fun w => I w /\ errState w <> None) (Writer_err x)
    (fun e w => I w /\ e <> None).
Proof.
  eapply hoare_post.
  - apply (Writer_err_value x (fun w => I w /\ errState w <> None)).
    + apply keeps_yield; [exact latched_dispatch_next|].
      intros v w H. exact H.
    + apply keeps_err_cell. intros e w (H1 & H2) Hn. contradiction.
  - intros a w (Ha & (H & Hn) & _). split; [exact H|]. congruence.
Qed.

Lemma ReadFrom_loop_counts f :
  forall r n,
  hoare I (ReadFrom_loop f r n)
    (fun res w => I w /\ (snd res = None -> fst res = n + len (rd_data r))).
Proof.
  induction f as [|f IH]; intros r n; cbn [ReadFrom_loop]; [apply hoare_hang|].
  apply hoare_open. intros w0 H0. apply hoare_get_at.
  apply (hoare_at I); [exact H0|].
  assert (Hc : cfg w0 = fst X) by (unfold I, stable in H0; rewrite <- H0; reflexivity).
  rewrite Hc.
  eapply hoare_seq; [apply stable_buffers_Get|]. intros inbuf0.
  eapply hoare_bind
    with (Q := fun inbuf w => len inbuf = blockSize (fst X) + obufHeaderLen /\ I w).
  { apply hoare_lift. intros a w Heq HI. split; [|exact HI].
    unfold reslice in Heq.
    destruct (Z.ltb_spec (blockSize (fst X) + obufHeaderLen) 0); [discriminate|].
    destruct (Z.ltb_spec (len inbuf0) (blockSize (fst X) + obufHeaderLen)); [discriminate|].
    cbn [orb] in Heq. injection Heq as <-. rewrite len_take by lia. lia. }
  intros inbuf. apply hoare_pure. intros Hin.
  eapply hoare_bind with (Q := fun room w => len room = blockSize (fst X) /\ I w).
  { apply hoare_lift. intros a w Heq HI. split; [|exact HI].
    unfold slice_from in Heq.
    destruct (Z.ltb_spec obufHeaderLen 0); [discriminate|].
    destruct (Z.ltb_spec (len inbuf) obufHeaderLen); [discriminate|].
    cbn [orb] in Heq. injection Heq as <-. rewrite len_drop by lia. lia. }
  intros room. apply hoare_pure. intros Hroom. rewrite Hroom.
  pose proof (ReadFull_cases r (blockSize (fst X)) X_block) as Hcases.
  destruct (ReadFull r (blockSize (fst X))) as [[got err] r']. cbn [fst snd] in Hcases.
  cbv zeta.
  assert (Hfail : forall x k,
            hoare I (e <- Writer_err (Some x) ;; ret (k, e))
              (fun res w => I w /\ (snd res = None -> fst res = n + len (rd_data r)))).
  { intros x k. eapply hoare_bind; [apply Writer_err_some|]. intros e.
    apply hoare_ret. intros w (H & Hn). split; [exact H|]. cbn [snd]. intros ->.
    contradiction. }
  assert (Hgo : forall eof : bool,
            (eof = true -> len got = len (rd_data r)) ->
            (eof = false ->
             len got = blockSize (fst X) /\
             len (rd_data r') = len (rd_data r) - blockSize (fst X)) ->
            hoare I
              (if len got =? 0 then e <- Writer_err None ;; ret (n, e)
               else
                 full <- lift (reslice (copy_at inbuf obufHeaderLen got)
                                 (len got + obufHeaderLen)) ;;
                 err2 <- writeFull full ;;
                 e2 <- Writer_err err2 ;;
                 if negb (is_nil e2) then e <- Writer_err None ;; ret (n + len got, e)
                 else if eof then e <- Writer_err None ;; ret (n + len got, e)
                 else ReadFrom_loop f r' (n + len got))
              (fun res w => I w /\ (snd res = None -> fst res = n + len (rd_data r)))).
  { intros eof Heof Hmore.
    destruct (Z.eqb_spec (len got) 0) as [H0'|H0'].
    - eapply hoare_seq; [apply stable_Writer_err|]. intros e.
      apply hoare_ret. intros w H. split; [exact H|]. cbn [fst snd]. intros _.
      destruct eof; [rewrite <- (Heof eq_refl); lia|].
      destruct (Hmore eq_refl) as (Hk & _). lia.
    - eapply hoare_seq; [apply pres_lift|]. intros full.
      eapply hoare_seq; [apply stable_writeFull|]. intros err2.
      eapply hoare_bind; [apply Writer_err_cell|]. intros e2.
      destruct e2 as [e2|]; cbn [is_nil negb].
      + eapply hoare_bind with (Q := fun e w => I w /\ e <> None).
        * eapply hoare_pre; [apply Writer_err_latched_some|].
          intros w (H & Hn). split; [exact H|]. apply Hn. discriminate.
        * intros e. apply hoare_ret. intros w (H & Hn). split; [exact H|].
          cbn [snd]. intros ->. contradiction.
      + eapply hoare_pre with (P := I); [|intros w H; apply H].
        destruct eof.
        * eapply hoare_seq; [apply stable_Writer_err|]. intros e.
          apply hoare_ret. intros w H. split; [exact H|]. cbn [fst snd]. intros _.
          rewrite (Heof eq_refl). reflexivity.
        * eapply hoare_post; [apply IH|]. intros res w (H & Hres). split; [exact H|].
          intros Hn. rewrite (Hres Hn). destruct (Hmore eq_refl) as (Hk & Hr). lia. }
  destruct err as [e|].
  - destruct Hcases as [(Hn & _)|(_ & Hlen)]; [discriminate|].
    assert (Heof : true = true -> len got = len (rd_data r)) by (intros _; exact Hlen).
    assert (Hno : true = false ->
                  len got = blockSize (fst X) /\
                  len (rd_data r') = len (rd_data r) - blockSize (fst X))
      by discriminate.
    destruct e; cbv beta iota;
      lazymatch goal with
      | |- hoare _ (if _ then _ else _) _ => exact (Hgo true Heof Hno)
      | _ => exact (Hfail _ _)
      end.
  - destruct Hcases as [(_ & Hk & Hr)|(Hn & _)]; [|contradiction].
    cbv beta iota.
    refine (Hgo false _ _); [discriminate|intros _; split; assumption].
Qed.

Lemma ReadFrom_counts_stable r :
  rd_bytes r = None ->
  hoare I (ReadFrom r)
    (fun res w => snd res = None -> fst res = len (rd_data r)).
Proof.
  intros Hb. unfold ReadFrom.
  eapply hoare_seq; [apply stable_Writer_err|].
  intros [e|]; [apply hoare_ret; intros w _ H; discriminate|].
  eapply hoare_seq; [apply pres_get|]. intros w0.
  eapply hoare_seq.
  { destruct (0 <? len (ibuf w0)); [apply stable_AsyncFlush|apply pres_ret]. }
  intros [e1|]; [apply hoare_ret; intros w _ H; discriminate|].
  rewrite Hb. eapply hoare_post; [apply ReadFrom_loop_counts|].
  intros res w (_ & H) Hn. rewrite (H Hn). lia.
Qed.

End ReadFromCount.

(** When [ReadFrom] reads from a plain reader and returns no error, the
    count it returns is the number of bytes the reader held: it has read
    the reader to its end. *)
Theorem ReadFrom_counts {E : Env} (r : Reader) (w w' : Writer) (n : Z) :
  0 < blockSize (cfg w) ->
  0 <= obufHeaderLen ->
  rd_bytes r = None ->
  ReadFrom r w = Val ((n, None), w') ->
  n = len (rd_data r).
Proof.
  intros Hbs Hh Hb Hrun.
  pose proof (ReadFrom_counts_stable (stable w) Hbs Hh r Hb w eq_refl) as H.
  rewrite Hrun in H. apply H. reflexivity.
Qed.

Lemma ReadFrom_counts_witness :
  3 = len (rd_data {| rd_data := [1; 2; 3]; rd_err := EOF; rd_bytes := None |}).
Proof.
  refine (ReadFrom_counts (E := sample_env)
            {| rd_data := [1; 2; 3]; rd_err := EOF; rd_bytes := None |}
            (sample_writer good_sink [WriterBlockSize 4096; WriterConcurrency 1] [])
            (after (ReadFrom (E := sample_env)
                      {| rd_data := [1; 2; 3]; rd_err := EOF; rd_bytes := None |})
               (sample_writer good_sink [WriterBlockSize 4096; WriterConcurrency 1] []))
            3 _ _ _ _); run_it.
Defined.

Section FlushDrains.
Context {E : Env}.

(** ** [Flush] waits for the dispatcher *)

Let served (w : Writer) : Prop := output w = None \/ output w = Some [].

Lemma served_dispatch_next : pres served dispatch_next.
Proof.
  intros w Hw. unfold dispatch_next. destruct Hw as [Ho|Ho]; rewrite Ho.
  - left. exact Ho.
  - right. exact Ho.
Qed.

Lemma served_Writer_err e : pres served (Writer_err e).
Proof.
  apply keeps_Writer_err.
  - exact served_dispatch_next.
  - intros v w H. exact H.
  - intros x w H _. exact H.
Qed.

Lemma Flush_served :
  hoare (fun _ => True) Flush (fun e w => e = None -> served w).
Proof.
  unfold Flush. eapply hoare_bind; [apply hoare_any|].
  intros [e|]; [apply hoare_ret; intros w _ H; discriminate|].
  apply hoare_open. intros w0 _. apply hoare_get_at.
  destruct (output w0) as [q|] eqn:Ho.
  - apply (hoare_at (fun _ => True)); [exact I|].
    eapply hoare_bind; [apply hoare_any|]. intros _u.
    eapply hoare_bind.
    { eapply hoare_pre; [exact dispatcher_drain_empties|auto]. }
    intros _v. eapply hoare_post; [apply served_Writer_err|].
    intros a w H _. exact H.
  - apply (hoare_at served); [left; exact Ho|].
    eapply hoare_post; [apply served_Writer_err|].
    intros a w H _. exact H.
Qed.

End FlushDrains.

(** When [Flush] returns nil the ordering channel is empty: every slot
    queued before has been served by the dispatcher. *)
Theorem Flush_drains_queue {E : Env} (w w' : Writer) :
  Flush w = Val (None, w') -> output w' = None \/ output w' = Some [].
Proof.
  intros H. pose proof (Flush_served w I) as Hs. rewrite H in Hs.
  apply Hs. reflexivity.
Qed.

Lemma Flush_drains_queue_witness :
  output (after (Flush (E := sample_env))
            (after (Write (E := sample_env) [1; 2; 3])
               (sample_writer good_sink
                  [WriterBlockSize 4096; WriterConcurrency 2; WriterFlushOnWrite] [])))
  = None \/
  output (after (Flush (E := sample_env))
            (after (Write (E := sample_env) [1; 2; 3])
               (sample_writer good_sink
                  [WriterBlockSize 4096; WriterConcurrency 2; WriterFlushOnWrite] [])))
  = Some [].
Proof.
  refine (Flush_drains_queue (E := sample_env)
            (after (Write (E := sample_env) [1; 2; 3])
               (sample_writer good_sink
                  [WriterBlockSize 4096; WriterConcurrency 2; WriterFlushOnWrite] []))
            (after (Flush (E := sample_env))
               (after (Write (E := sample_env) [1; 2; 3])
                  (sample_writer good_sink
                     [WriterBlockSize 4096; WriterConcurrency 2; WriterFlushOnWrite] [])))
            _); vm_compute; reflexivity.
Defined.



(** For [0 <= written], [1 < pad < 2^63] and a frame header with
    [skippableFrameHeader + pad < 2^63]: [calcSkippableFrame] returns 0
    when [written] is a multiple of [pad], and otherwise the least
    positive size that is at least the frame header and makes the total a
    multiple of [pad]. *)
Theorem calcSkippableFrame_least_padding {E : Env} (written pad : Z) :
  0 <= written -> 1 < pad -> pad < 2 ^ 63 ->
  skippableFrameHeader + pad < 2 ^ 63 ->
  (written mod pad = 0 -> calcSkippableFrame written pad = Val 0) /\
  (written mod pad <> 0 ->
   exists add, calcSkippableFrame written pad = Val add /\
               least_padding written pad add).
Proof.
  intros Hw Hp Hp63 Hov. split.
  - intros Hz. apply calcSkippableFrame_aligned; [exact Hw|lia|exact Hz].
  - intros Hnz. apply calcSkippableFrame_least; assumption.
Qed.

Lemma calcSkippableFrame_least_padding_witness :
  (10 mod 8 = 0 -> calcSkippableFrame (E := sample_env) 10 8 = Val 0) /\
  (10 mod 8 <> 0 ->
   exists add, calcSkippableFrame (E := sample_env) 10 8 = Val add /\
               least_padding (E := sample_env) 10 8 add).
Proof.
  refine (calcSkippableFrame_least_padding (E := sample_env) 10 8 _ _ _ _); run_it.
Defined.
